(** * Reinhard: command routing and resilient replies

    A shallow embedding of [reinhard/util/command_client.py] (triggers,
    check chains, clusters, prefix resolution, access levels, message
    dispatch) and of [reinhard/util/rest_manager.py] (the error managers
    that classify failures of an outbound call inside a backoff loop),
    followed by the properties stated about them.

    Conventions.  A Python object that is mutated in place is threaded
    explicitly: a function that mutates [ctx] returns the new [Context].
    A call that may raise returns an [outcome].  [await] is transparent:
    a coroutine predicate and a plain one are called the same way. *)

From Stdlib Require Import ZArith QArith List String Ascii Bool Lia.
From Stdlib Require Import Sorted Permutation.
From stdpp Require Import base option list gmap strings sorting.

Local Open Scope string_scope.
Local Open Scope list_scope.

(* ================================================================== *)
(** * Part I.  Definitions                                             *)
(* ================================================================== *)

(** ** Python values shared by both source files *)

Module Py.

(** The exception classes that occur in the two files, with the classes
    they derive from.  [PermissionError] is the class declared in
    command_client.py (it shadows the builtin and derives from
    [HikariError]); the [hikari] classes are those rest_manager.py names. *)
Inductive exc_type : Type :=
| BaseException
| KeyboardInterrupt
| CancelledError
| Exception
| ValueError
| AttributeError
| TypeError
| RuntimeError
| CommandError
| HikariError
| PermissionError
| HTTPError
| HTTPResponseError
| ClientHTTPResponseError
| ForbiddenError
| NotFoundError
| RateLimitedError
| InternalServerError.

#[global] Instance exc_type_eq_dec : EqDecision exc_type.
Proof. solve_decision. Defined.

(** The direct base class ([None] for the root). *)
Definition base_of (t : exc_type) : option exc_type :=
  match t with
  | BaseException => None
  | KeyboardInterrupt => Some BaseException
  | CancelledError => Some BaseException
  | Exception => Some BaseException
  | ValueError => Some Exception
  | AttributeError => Some Exception
  | TypeError => Some Exception
  | RuntimeError => Some Exception
  | CommandError => Some Exception
  | HikariError => Some RuntimeError
  | PermissionError => Some HikariError
  | HTTPError => Some HikariError
  | HTTPResponseError => Some HTTPError
  | ClientHTTPResponseError => Some HTTPResponseError
  | ForbiddenError => Some ClientHTTPResponseError
  | NotFoundError => Some ClientHTTPResponseError
  | RateLimitedError => Some ClientHTTPResponseError
  | InternalServerError => Some HTTPResponseError
  end.

(** Method resolution order of a class: itself, then its ancestors.  The
    hierarchy is eight levels deep at most. *)
Fixpoint mro_upto (depth : nat) (t : exc_type) : list exc_type :=
  match depth with
  | O => [t]
  | S d => t :: match base_of t with
                | Some b => mro_upto d b
                | None => []
                end
  end.

Definition mro (t : exc_type) : list exc_type := mro_upto 8 t.

(** [issubclass(t, u)]. *)
Definition issubclass (t u : exc_type) : bool :=
  bool_decide (u ∈ mro t).

(** [issubclass(t, rule)] for a tuple of classes. *)
Definition issubclass_any (t : exc_type) (rule : list exc_type) : bool :=
  existsb (issubclass t) rule.

(** A raised exception: its class and, for a [RateLimitedError], the
    [retry_after] attribute (seconds).  The attribute is a Python float;
    every finite float is a rational, and the code only compares it with
    a constant and stores it, so [Q] is exact here.  The field is read
    for instances of [RateLimitedError] only. *)
Record exception : Type := Exc {
  exc_class : exc_type;
  retry_after : Q
}.

Definition raise_ (t : exc_type) : exception := Exc t 0%Q.

(** [except Exception] catches exactly the instances of [Exception]. *)
Definition is_Exception (e : exception) : bool :=
  issubclass (exc_class e) Exception.

(** The result of a call that may raise. *)
Inductive outcome (A : Type) : Type :=
| Ret (a : A)
| Raise (e : exception).

Arguments Ret {A} a.
Arguments Raise {A} e.

(** [s.startswith(p)]. *)
Definition startswith (s p : string) : bool := String.prefix p s.

(** [s[n:]]. *)
Fixpoint drop_chars (n : nat) (s : string) : string :=
  match n, s with
  | O, _ => s
  | S _, EmptyString => EmptyString
  | S m, String _ r => drop_chars m r
  end.

(** [s[start:]] for any integer [start]: a negative [start] counts from
    the end of the string, and a [start] beyond either end is cut to
    it. *)
Definition slice_from (start : Z) (s : string) : string :=
  if (start <? 0)%Z
  then drop_chars (String.length s - Z.to_nat (- start)) s
  else drop_chars (Z.to_nat start) s.

(** Truthiness of a string: the empty string is falsy. *)
Definition truthy (s : string) : bool := negb (String.eqb s EmptyString).

(** [s.replace(a, b)] for single characters. *)
Fixpoint replace_char (a b : ascii) (s : string) : string :=
  match s with
  | EmptyString => EmptyString
  | String c r =>
      String (if Ascii.eqb c a then b else c) (replace_char a b r)
  end.

(** [d[key] = value] on a dict kept in insertion order: an existing key
    keeps its place, a new key goes to the end. *)
Fixpoint dict_set {V : Type} (key : string) (value : V)
    (d : list (string * V)) : list (string * V) :=
  match d with
  | [] => [(key, value)]
  | (k, v) :: rest =>
      if String.eqb k key then (k, value) :: rest
      else (k, v) :: dict_set key value rest
  end.

(** [d.get(key)]. *)
Fixpoint dict_get {V : Type} (key : string) (d : list (string * V))
    : option V :=
  match d with
  | [] => None
  | (k, v) :: rest =>
      if String.eqb k key then Some v else dict_get key rest
  end.

(** [s[:n]]. *)
Fixpoint take_chars (n : nat) (s : string) : string :=
  match n, s with
  | O, _ => EmptyString
  | S _, EmptyString => EmptyString
  | S m, String c r => String c (take_chars m r)
  end.

End Py.

Import Py.

(** ** command_client.py *)

Inductive TriggerTypes : Type := PREFIX | MENTION.

(** The part of [hikari]'s message object that the router reads. *)
Record Message : Type := {
  author_id : Z;
  guild_id : option Z;
  channel_id : Z;
  message_content : string
}.

(** [class Context].  [command] and [triggering_name] are slots that
    [__init__] leaves unset, hence options; [command] holds a reference
    to a command object, modelled by the object's identity.  The [fabric]
    handle is not read by anything modelled here and is left out. *)
Module Context.

Record t : Type := {
  command : option nat;
  content : string;
  message : Message;
  trigger : string;
  trigger_type : TriggerTypes;
  triggering_name : option string
}.

Definition init (content_ : string) (message_ : Message) (trigger_ : string)
    (trigger_type_ : TriggerTypes) : t :=
  {| command := None; content := content_; message := message_;
     trigger := trigger_; trigger_type := trigger_type_;
     triggering_name := None |}.

Definition prune_content (self : t) (length : Z) : t :=
  {| command := command self; content := slice_from length (content self);
     message := message self; trigger := trigger self;
     trigger_type := trigger_type self;
     triggering_name := triggering_name self |}.

Definition set_command_trigger (self : t) (trigger_ : string) : t :=
  {| command := command self; content := content self;
     message := message self; trigger := trigger self;
     trigger_type := trigger_type self;
     triggering_name := Some trigger_ |}.

Definition set_command (self : t) (command_obj : nat) : t :=
  {| command := Some command_obj; content := content self;
     message := message self; trigger := trigger self;
     trigger_type := trigger_type self;
     triggering_name := triggering_name self |}.

End Context.

(** [CheckLikeT]: a callable from the context to a boolean.  It may
    mutate the context it is given and may raise.  The bound method
    [self.check_prefix_from_context], which [Command.__init__] installs as
    the first check, is kept apart from caller-supplied predicates. *)
Inductive CheckLikeT : Type :=
| check_prefix_from_context_of_self
| predicate (f : Context.t -> Context.t * outcome bool).

(** [class Command]. *)
Module Command.

(** [oid] is the identity of the Python object.  [name] is
    [self._func.__name__].  [bound] counts how often [bind_cluster] has
    wrapped [_func] in a method (and trimmed the parser by one
    parameter).  [_cluster] is a reference to the owning cluster, by its
    class name.  [meta] and the argument parser are not modelled. *)
Record t : Type := {
  oid : nat;
  name : string;
  bound : nat;
  level : Z;
  triggers : list string;
  _checks : list CheckLikeT;
  _cluster : option string
}.

Definition generate_trigger (func_name : string) : string :=
  replace_char "_"%char " "%char func_name.

Definition bind_cluster (self : t) (cluster : string) : t :=
  {| oid := oid self; name := name self; bound := S (bound self);
     level := level self; triggers := triggers self;
     _checks := _checks self; _cluster := Some cluster |}.

(** [Command.__init__(func, trigger, aliases=…, level=…, cluster=…)]. *)
Definition init (oid_ : nat) (func_name : string) (trigger : option string)
    (aliases : list string) (level_ : Z) (cluster : option string) : t :=
  let self :=
    {| oid := oid_; name := func_name; bound := 0; level := level_;
       triggers := []; _checks := [check_prefix_from_context_of_self];
       _cluster := None |} in
  let self := match cluster with
              | Some cl => bind_cluster self cl
              | None => self
              end in
  let trigger := match trigger with
                 | Some tr => if truthy tr then tr
                              else generate_trigger func_name
                 | None => generate_trigger func_name
                 end in
  {| oid := oid self; name := name self; bound := bound self;
     level := level self; triggers := trigger :: aliases;
     _checks := _checks self; _cluster := _cluster self |}.

Definition register_check (self : t) (check : CheckLikeT) : t :=
  {| oid := oid self; name := name self; bound := bound self;
     level := level self; triggers := triggers self;
     _checks := _checks self ++ [check]; _cluster := _cluster self |}.

(** [check_prefix]: the loop over [self.triggers]; falling off the end
    returns [None]. *)
Fixpoint first_trigger (triggers_ : list string) (content : string)
    : option string :=
  match triggers_ with
  | [] => None
  | trigger :: rest =>
      if startswith content trigger then Some trigger
      else first_trigger rest content
  end.

Definition check_prefix (self : t) (content : string) : option string :=
  first_trigger (triggers self) content.

Fixpoint check_triggers_from_context (triggers_ : list string)
    (ctx : Context.t) : Context.t * bool :=
  match triggers_ with
  | [] => (ctx, false)
  | trigger :: rest =>
      if startswith (Context.content ctx) trigger
      then (Context.set_command_trigger ctx trigger, true)
      else check_triggers_from_context rest ctx
  end.

Definition check_prefix_from_context (self : t) (ctx : Context.t)
    : Context.t * bool :=
  check_triggers_from_context (triggers self) ctx.

(** Calling one entry of [self._checks]. *)
Definition call_check (self : t) (check : CheckLikeT) (ctx : Context.t)
    : Context.t * outcome bool :=
  match check with
  | check_prefix_from_context_of_self =>
      let '(ctx', r) := check_prefix_from_context self ctx in (ctx', Ret r)
  | predicate f => f ctx
  end.

(** The [for check in self._checks] loop of [check].  [result] is the
    local variable of that name.  Besides the context and the value
    returned (or the exception that escapes), the loop reports every
    predicate call it made, in call order: the context the predicate
    was given and what came back. *)
Fixpoint check_loop (self : t) (checks : list CheckLikeT) (result : bool)
    (ctx : Context.t)
    : Context.t * outcome bool * list (Context.t * outcome bool) :=
  match checks with
  | [] => (ctx, Ret result, [])
  | check :: rest =>
      match call_check self check ctx with
      | (ctx', Raise e) =>
          if is_Exception e then
            (* except Exception: result = False, and the loop goes on *)
            let '(ctx'', r, calls) := check_loop self rest false ctx' in
            (ctx'', r, (ctx, Raise e) :: calls)
          else (ctx', Raise e, [(ctx, Raise e)])
      | (ctx', Ret r) =>
          if negb r then (ctx', Ret r, [(ctx, Ret r)])     (* break *)
          else
            let '(ctx'', r', calls) := check_loop self rest r ctx' in
            (ctx'', r', (ctx, Ret r) :: calls)
      end
  end.

Definition check_run (self : t) (ctx : Context.t)
    : Context.t * outcome bool * list (Context.t * outcome bool) :=
  check_loop self (_checks self) false (Context.set_command ctx (oid self)).

(** [Command.check(ctx)]: the context as left behind, and the result. *)
Definition check (self : t) (ctx : Context.t) : Context.t * outcome bool :=
  fst (check_run self ctx).

(** The predicate calls [check] made, and their outcomes alone. *)
Definition calls (self : t) (ctx : Context.t)
    : list (Context.t * outcome bool) :=
  snd (check_run self ctx).

Definition evaluated (self : t) (ctx : Context.t) : list (outcome bool) :=
  map snd (calls self ctx).

(** What running the handler comes to ([self.parser.parse(ctx)] followed
    by [self._func(ctx, …)]): it completes, or it raises [e], whose
    [str(e)] is [text]. *)
Inductive handled : Type :=
| Completed
| Failed (e : exception) (text : string).

(** What [execute] does besides returning or raising. *)
Inductive effect : Type :=
| ReplyAttempt (content_ : string)
| ErrorEvent (cluster : string) (e : exception).

(** [Command.execute(ctx)].  [body] is what the handler comes to for
    this context and [reply] what [ctx.reply(content=…)] comes to.  The
    first [except] clause takes instances of [CommandError] and replies
    under [contextlib.suppress(PermissionError)]; the second takes the
    other instances of [Exception], dispatches the [ERROR] event when the
    command has a cluster, and raises the exception again. *)
Definition execute (self : t) (body : handled)
    (reply : string -> outcome unit) : list effect * outcome unit :=
  match body with
  | Completed => ([], Ret tt)
  | Failed e text =>
      if issubclass (exc_class e) CommandError then
        match reply text with
        | Ret _ => ([ReplyAttempt text], Ret tt)
        | Raise e' =>
            if issubclass (exc_class e') PermissionError
            then ([ReplyAttempt text], Ret tt)
            else ([ReplyAttempt text], Raise e')
        end
      else if is_Exception e then
        (match _cluster self with
         | Some cluster => [ErrorEvent cluster e]
         | None => []
         end, Raise e)
      else ([], Raise e)
  end.

End Command.

(** [class CommandCluster]. *)
Module CommandCluster.

(** [members] is what [inspect.getmembers(self, isinstance(…,
    AbstractCommand))] finds: the attributes of the cluster that hold a
    command, by attribute name, in the order [getmembers] returns them.
    Distinct attributes hold distinct command objects.  The event
    dispatcher, the logger and the client reference are not modelled;
    the warnings that [bind_commands] logs are returned instead. *)
Record t : Type := {
  class_name : string;
  members : list (string * Command.t);
  cluster_commands : list Command.t
}.

(** The generator [get_command_from_name], as the sequence it yields.
    The walrus test [if prefix := …] is a truthiness test. *)
Fixpoint commands_from_name (commands : list Command.t) (content : string)
    : list (Command.t * string) :=
  match commands with
  | [] => []
  | command_obj :: rest =>
      match Command.check_prefix command_obj content with
      | Some prefix =>
          if truthy prefix
          then (command_obj, prefix) :: commands_from_name rest content
          else commands_from_name rest content
      | None => commands_from_name rest content
      end
  end.

Definition get_command_from_name (self : t) (content : string)
    : list (Command.t * string) :=
  commands_from_name (cluster_commands self) content.

(** The triggers of [command_obj] for which [bind_commands] logs the
    "possible overlapping trigger" warning, given the commands loaded so
    far. *)
Definition overlapping (loaded : list Command.t) (command_obj : Command.t)
    : list string :=
  List.filter (fun trigger =>
                 match commands_from_name loaded trigger with
                 | [] => false
                 | _ :: _ => true
                 end)
              (Command.triggers command_obj).

(** The [for name, command_obj in inspect.getmembers(…)] loop: the
    commands loaded so far and the warnings logged so far. *)
Fixpoint bind_members (cluster : string) (found : list (string * Command.t))
    (loaded : list Command.t) (warnings : list string)
    : list Command.t * list string :=
  match found with
  | [] => (loaded, warnings)
  | (_, command_obj) :: rest =>
      let command_obj := Command.bind_cluster command_obj cluster in
      bind_members cluster rest (loaded ++ [command_obj])
                   (warnings ++ overlapping loaded command_obj)
  end.

(** [list.sort(key=lambda comm: comm.name, reverse=True)]: descending by
    name; the sort is stable, so commands of equal name keep their
    order.  Strings compare as [str] does, code point by code point. *)
Fixpoint insert_by_name (x : Command.t) (sorted : list Command.t)
    : list Command.t :=
  match sorted with
  | [] => [x]
  | y :: rest =>
      if String.ltb (Command.name x) (Command.name y)
      then y :: insert_by_name x rest
      else x :: y :: rest
  end.

Definition sort_by_name_reverse (l : list Command.t) : list Command.t :=
  fold_right insert_by_name [] l.

(** [bind_commands].  [assertions.assert_that(cond, msg)] raises
    [ValueError] when [cond] is false, as the docstring says.
    [Command.bind_cluster] also does [setattr(cluster, func.__name__,
    bound_func)]: from then on the attribute of that name is the bound
    function, not a command, so it leaves [members]. *)
Definition bind_commands (self : t) : outcome (t * list string) :=
  match cluster_commands self with
  | _ :: _ => Raise (raise_ ValueError)
  | [] =>
      let '(loaded, warnings) :=
        bind_members (class_name self) (members self) [] [] in
      let shadowed := map Command.name loaded in
      Ret ({| class_name := class_name self;
              members :=
                List.filter (fun m => negb (bool_decide (fst m ∈ shadowed)))
                  (map (fun m => (fst m,
                          Command.bind_cluster (snd m) (class_name self)))
                       (members self));
              cluster_commands := sort_by_name_reverse loaded |},
           warnings)
  end.

(** Resuming a generator: it yields a command and suspends, or it ends,
    or an exception escapes from it. *)
Inductive gen_step (S : Type) : Type :=
| Yield (command_obj : Command.t) (suspended : S)
| StopIteration
| Throw (e : exception).

Arguments Yield {S} command_obj suspended.
Arguments StopIteration {S}.
Arguments Throw {S} e.

(** The async generator [get_command_from_context], suspended in front
    of the commands [remaining]: run it up to its next [yield]. *)
Fixpoint get_command_from_context (remaining : list Command.t)
    (ctx : Context.t) : Context.t * gen_step (list Command.t) :=
  match remaining with
  | [] => (ctx, StopIteration)
  | command_obj :: rest =>
      match Command.check command_obj ctx with
      | (ctx', Raise e) => (ctx', Throw e)
      | (ctx', Ret true) => (ctx', Yield command_obj rest)
      | (ctx', Ret false) => get_command_from_context rest ctx'
      end
  end.

(** Something [register_command] accepts: a command object, or a
    coroutine function from which it builds [Command(func=…, cluster=…,
    trigger=…, aliases=…)]; [oid_] is the identity of the object built. *)
Inductive registrable : Type :=
| a_command (command_obj : Command.t)
| a_function (oid_ : nat) (func_name : string) (aliases : list string)
    (trigger : option string).

(** [register_command(func, aliases…, trigger=…, bind=…)]: the cluster
    afterwards and the overlap warnings logged.  Binding sets the bound
    function as an attribute of the cluster, as in [bind_commands]. *)
Definition register_command (self : t) (func : registrable) (bind : bool)
    : t * list string :=
  let command_obj :=
    match func with
    | a_command command_obj =>
        if bind then Command.bind_cluster command_obj (class_name self)
        else command_obj
    | a_function oid_ func_name aliases trigger =>
        Command.init oid_ func_name trigger aliases 0
          (if bind then Some (class_name self) else None)
    end in
  ({| class_name := class_name self;
      members :=
        if bind
        then List.filter
               (fun m => negb (String.eqb (fst m) (Command.name command_obj)))
               (members self)
        else members self;
      cluster_commands := cluster_commands self ++ [command_obj] |},
   overlapping (cluster_commands self) command_obj).

(** [list.remove(x)]: drop the first element that is [x].  Commands
    define no [__eq__]: two of them are equal when they are the same
    object.  [None] when [x] is not in the list ([ValueError]). *)
Fixpoint remove_command (x : Command.t) (l : list Command.t)
    : option (list Command.t) :=
  match l with
  | [] => None
  | y :: rest =>
      if Nat.eqb (Command.oid y) (Command.oid x) then Some rest
      else match remove_command x rest with
           | Some rest' => Some (y :: rest')
           | None => None
           end
  end.

Definition unregister_command (self : t) (command_obj : Command.t)
    : outcome t :=
  match remove_command command_obj (cluster_commands self) with
  | Some commands =>
      Ret {| class_name := class_name self; members := members self;
             cluster_commands := commands |}
  | None => Raise (raise_ ValueError)
  end.

(** [get_cluster_event_listeners].  [coroutines] is what
    [inspect.getmembers(self, asyncio.iscoroutinefunction)] finds: the
    coroutine functions of the cluster by attribute name, each stood for
    by its identity.  The event name is [name[3:]]. *)
Definition get_cluster_event_listeners (coroutines : list (string * nat))
    : list (string * nat) :=
  map (fun m => (drop_chars 3 (fst m), snd m))
      (List.filter (fun m => startswith (fst m) "on_") coroutines).

(** [CommandCluster.__init__(command_client, bind=…)] for a cluster
    class with the given command members: the command list starts
    empty, and [bind] runs [bind_commands]. *)
Definition init (class_name_ : string)
    (members_ : list (string * Command.t)) (bind : bool)
    : outcome (t * list string) :=
  let self := {| class_name := class_name_; members := members_;
                 cluster_commands := [] |} in
  if bind then bind_commands self else Ret (self, []).

End CommandCluster.

(** [class CommandClientOptions]: the access level configured per user
    id, and the global prefixes. *)
Record CommandClientOptions : Type := {
  access_levels : gmap Z Z;
  prefixes : list string
}.

(** [class CommandClient]. *)
Module CommandClient.

(** The client is a cluster itself ([self_cluster] holds what it
    inherits from [CommandCluster]) and owns the loaded clusters, a dict
    from class name to cluster, kept here in insertion order, which is
    the order of [dict.values()].  [get_guild_prefix] is the optional
    resolver: [None] when the attribute is absent ([hasattr] is false),
    otherwise the function a subclass implements, which returns a prefix
    or [None]. *)
Record t : Type := {
  _client_options : CommandClientOptions;
  self_cluster : CommandCluster.t;
  clusters : list (string * CommandCluster.t);
  get_guild_prefix : option (Z -> option string)
}.

(** [access_levels.get(message.author.id, 0) >= command_obj.level]. *)
Definition access_check (self : t) (command_obj : Command.t)
    (message : Message) : bool :=
  (default 0 (access_levels (_client_options self) !! author_id message)
     >=? Command.level command_obj)%Z.

Definition _get_prefixes (self : t) (guild : option Z) : list string :=
  match guild, get_guild_prefix self with
  | None, _ => prefixes (_client_options self)
  | Some _, None => prefixes (_client_options self)
  | Some guild_, Some resolver =>
      match resolver guild_ with
      | Some guild_prefix =>
          if truthy guild_prefix
          then guild_prefix :: prefixes (_client_options self)
          else prefixes (_client_options self)
      | None => prefixes (_client_options self)
      end
  end.

(** The [for prefix in …] loop of [check_prefix]. *)
Fixpoint first_prefix (candidates : list string) (content : string)
    : option string :=
  match candidates with
  | [] => None
  | prefix :: rest =>
      if startswith content prefix then Some prefix
      else first_prefix rest content
  end.

Definition check_prefix (self : t) (message : Message) : option string :=
  first_prefix (_get_prefixes self (guild_id message))
               (message_content message).

(** The async generator [get_global_command_from_context], suspended
    inside the cluster whose commands [remaining] are still to come,
    with the clusters [later] after it. *)
Fixpoint get_global_command_from_context (later : list CommandCluster.t)
    (remaining : list Command.t) (ctx : Context.t)
    : Context.t
      * CommandCluster.gen_step (list Command.t * list CommandCluster.t) :=
  match CommandCluster.get_command_from_context remaining ctx with
  | (ctx', CommandCluster.Yield command_obj rest) =>
      (ctx', CommandCluster.Yield command_obj (rest, later))
  | (ctx', CommandCluster.Throw e) => (ctx', CommandCluster.Throw e)
  | (ctx', CommandCluster.StopIteration) =>
      match later with
      | [] => (ctx', CommandCluster.StopIteration)
      | cluster :: later' =>
          get_global_command_from_context later'
            (CommandCluster.cluster_commands cluster) ctx'
      end
  end.

(** How the [async for … else] loop of [on_message_create] ends. *)
Inductive loop_exit : Type :=
| Break (command_obj : Command.t)
| Else
| Escaped (e : exception).

(** The [async for command_obj in …] loop: resume the generator, test
    the access level of what it yields, [break] on the first command
    that passes.  Every resumption consumes a command, so [fuel] above
    the number of commands left is never used up. *)
Fixpoint select_command (fuel : nat) (self : t) (message : Message)
    (gen : list Command.t * list CommandCluster.t) (ctx : Context.t)
    : option (Context.t * loop_exit) :=
  match fuel with
  | O => None
  | S fuel' =>
      match get_global_command_from_context (snd gen) (fst gen) ctx with
      | (ctx', CommandCluster.Yield command_obj gen') =>
          if access_check self command_obj message
          then Some (ctx', Break command_obj)
          else select_command fuel' self message gen' ctx'
      | (ctx', CommandCluster.StopIteration) => Some (ctx', Else)
      | (ctx', CommandCluster.Throw e) => Some (ctx', Escaped e)
      end
  end.

(** The commands in the order [get_global_command_from_context] visits
    them: the client's own, then those of each loaded cluster. *)
Definition traversal (self : t) : list Command.t :=
  CommandCluster.cluster_commands (self_cluster self)
  ++ flat_map (fun c => CommandCluster.cluster_commands (snd c))
              (clusters self).

(** What a call of [on_message_create] comes to. *)
Inductive dispatch : Type :=
| NoPrefix                                   (* the first [return] *)
| NoCommand                                  (* [command_obj is None] *)
| Execute (command_obj : Command.t) (ctx : Context.t)
| Raises (e : exception).

(** [on_message_create].  [mention] is always [None].  The last step,
    [await command_obj.execute(ctx)], is reported as [Execute]. *)
Definition on_message_create (self : t) (message : Message)
    : option dispatch :=
  match check_prefix self message with
  | None => Some NoPrefix
  | Some prefix =>
      if negb (truthy prefix) then Some NoPrefix
      else
        let command_args :=
          drop_chars (String.length prefix) (message_content message) in
        let ctx := Context.init command_args message prefix PREFIX in
        match select_command (S (List.length (traversal self))) self message
                (CommandCluster.cluster_commands (self_cluster self),
                 map snd (clusters self)) ctx with
        | None => None
        | Some (_, Escaped e) => Some (Raises e)
        | Some (_, Else) => Some NoCommand
        | Some (ctx', Break command_obj) =>
            match Context.triggering_name ctx' with
            | None => Some (Raises (raise_ AttributeError))
            | Some triggering_name_ =>
                Some (Execute command_obj
                        (Context.prune_content ctx'
                           (Z.of_nat (String.length triggering_name_) + 1)))
            end
        end
  end.

(** [get_global_command_from_name]: the client's own matches, then
    those of each loaded cluster. *)
Definition get_global_command_from_name (self : t) (content : string)
    : list (Command.t * string) :=
  CommandCluster.get_command_from_name (self_cluster self) content
  ++ flat_map (fun c => CommandCluster.get_command_from_name (snd c) content)
              (clusters self).

(** What [register_cluster] accepts: a cluster class, which it
    instantiates with [cluster(self)], or a cluster instance. *)
Inductive cluster_like : Type :=
| a_class (class_name_ : string) (members_ : list (string * Command.t))
| an_instance (cluster : CommandCluster.t).

(** [register_cluster(cluster)]: the client afterwards and the warnings
    logged while a class was instantiated. *)
Definition register_cluster (self : t) (cluster : cluster_like)
    : outcome (t * list string) :=
  match match cluster with
        | a_class class_name_ members_ =>
            CommandCluster.init class_name_ members_ true
        | an_instance cluster_ => Ret (cluster_, [])
        end with
  | Raise e => Raise e
  | Ret (cluster_, warnings) =>
      Ret ({| _client_options := _client_options self;
              self_cluster := self_cluster self;
              clusters :=
                dict_set (CommandCluster.class_name cluster_) cluster_
                         (clusters self);
              get_guild_prefix := get_guild_prefix self |},
           warnings)
  end.

(** [register_command] of the client, which is a cluster itself. *)
Definition register_command (self : t) (func : CommandCluster.registrable)
    (bind : bool) : t * list string :=
  let '(own, warnings) :=
    CommandCluster.register_command (self_cluster self) func bind in
  ({| _client_options := _client_options self;
      self_cluster := own;
      clusters := clusters self;
      get_guild_prefix := get_guild_prefix self |},
   warnings).

End CommandClient.

(** [class ReinhardCommandClient]. *)
Module ReinhardCommandClient.

(** What a module can export: a cluster class, a command object, some
    other callable (called with the client; it may change the client
    and may raise), or anything else, of which only the type name is
    used. *)
Inductive loadable : Type :=
| cluster_class (class_name_ : string)
    (members_ : list (string * Command.t))
| command_object (command_obj : Command.t)
| callable (call : CommandClient.t -> CommandClient.t * option exception)
| other (type_name : string).

(** An imported module: its path, its [exports] ([[]] when the attribute
    is missing) and its attributes. *)
Record module_ : Type := {
  module_path : string;
  exports : list string;
  attributes : gmap string loadable
}.

(** What the loader logs. *)
Inductive log : Type :=
| overlapping_trigger (trigger : string)
| invalid_export (type_name module_path_ : string)
| no_exports (module_path_ : string).

(** [_consume_client_loadable]: the client afterwards, what was logged,
    the exception that escaped if any, and otherwise the value
    returned. *)
Definition _consume_client_loadable (self : CommandClient.t)
    (item : loadable)
    : CommandClient.t * list log * outcome bool :=
  match item with
  | cluster_class class_name_ members_ =>
      match CommandClient.register_cluster self
              (CommandClient.a_class class_name_ members_) with
      | Ret (self', warnings) =>
          (self', map overlapping_trigger warnings, Ret true)
      | Raise e => (self, [], Raise e)
      end
  | command_object command_obj =>
      let '(self', warnings) :=
        CommandClient.register_command self
          (CommandCluster.a_command command_obj) false in
      (self', map overlapping_trigger warnings, Ret true)
  | callable call =>
      match call self with
      | (self', None) => (self', [], Ret true)
      | (self', Some e) => (self', [], Raise e)
      end
  | other _ => (self, [], Ret false)
  end.

Definition type_name_of (item : loadable) : string :=
  match item with
  | cluster_class _ _ => "type"
  | command_object _ => "Command"
  | callable _ => "function"
  | other type_name => type_name
  end.

(** The [for item in exports] loop of [load_from_modules]; its [else]
    branch belongs to the [for] and runs whenever the loop runs to its
    end. *)
Fixpoint load_exports (self : CommandClient.t) (module : module_)
    (items : list string)
    : CommandClient.t * list log * option exception :=
  match items with
  | [] => (self, [no_exports (module_path module)], None)
  | item :: rest =>
      match attributes module !! item with
      | None => (self, [], Some (raise_ RuntimeError))
      | Some found =>
          match _consume_client_loadable self found with
          | (self', logged, Raise e) => (self', logged, Some e)
          | (self', logged, Ret consumed) =>
              let logged :=
                if consumed then logged
                else logged ++ [invalid_export (type_name_of found)
                                  (module_path module)] in
              let '(self'', later, escaped) :=
                load_exports self' module rest in
              (self'', logged ++ later, escaped)
          end
      end
  end.

(** [load_from_modules] over modules that are already imported. *)
Fixpoint load_from_modules (self : CommandClient.t)
    (modules : list module_)
    : CommandClient.t * list log * option exception :=
  match modules with
  | [] => (self, [], None)
  | module :: rest =>
      match load_exports self module (exports module) with
      | (self', logged, Some e) => (self', logged, Some e)
      | (self', logged, None) =>
          let '(self'', later, escaped) := load_from_modules self' rest in
          (self'', logged ++ later, escaped)
      end
  end.

End ReinhardCommandClient.

(** ** rest_manager.py *)

(** Modelled from the spec: [yuyo.backoff.Backoff], the backoff iterator,
    is library code outside this repository.  It hands out at most
    [max_retries] permits, the first one included; the first permit is
    immediate, every later one follows a sleep; [set_next_backoff]
    overrides the delay of the next sleep only; [finish] ends the
    sequence; [reset] makes the iterator fresh again.  [schedule] is the
    configured growth of the delay with the number of permits given.
    [max_retries = None] is an iterator without a bound. *)
Module Backoff.

Record t : Type := {
  max_retries : option nat;
  schedule : nat -> Q;
  retries : nat;
  finished : bool;
  next_backoff : option Q
}.

(** [Backoff(max_retries=n)]. *)
Definition init (max_retries_ : option nat) (schedule_ : nat -> Q) : t :=
  {| max_retries := max_retries_; schedule := schedule_; retries := 0;
     finished := false; next_backoff := None |}.

Definition finish (self : t) : t :=
  {| max_retries := max_retries self; schedule := schedule self;
     retries := retries self; finished := true;
     next_backoff := next_backoff self |}.

Definition reset (self : t) : t :=
  {| max_retries := max_retries self; schedule := schedule self;
     retries := 0; finished := false; next_backoff := None |}.

Definition set_next_backoff (self : t) (backoff_ : Q) : t :=
  {| max_retries := max_retries self; schedule := schedule self;
     retries := retries self; finished := finished self;
     next_backoff := Some backoff_ |}.

Definition is_depleted (self : t) : bool :=
  match max_retries self with
  | Some n => (n <=? retries self)%nat
  | None => false
  end.

(** [__anext__]: [None] when the sequence has ended, otherwise the sleep
    that precedes the permit ([None] for the immediate first permit) and
    the iterator after it. *)
Definition anext (self : t) : option (option Q * t) :=
  if finished self || is_depleted self then None
  else
    match retries self with
    | O =>
        Some (None,
              {| max_retries := max_retries self; schedule := schedule self;
                 retries := 1; finished := false;
                 next_backoff := next_backoff self |})
    | S _ =>
        Some (Some (match next_backoff self with
                    | Some d => d
                    | None => schedule self (retries self)
                    end),
              {| max_retries := max_retries self; schedule := schedule self;
                 retries := S (retries self); finished := false;
                 next_backoff := None |})
    end.

End Backoff.

(** Modelled from the spec: [yuyo.backoff.ErrorManager], the base class
    of both managers, is library code outside this repository.  It keeps
    (exception classes, callback) rules in registration order; when an
    exception leaves the [with] block, the first rule with a matching
    class decides, and an exception that matches no rule propagates.

    [__exit__] has two things it can tell Python: suppress the exception,
    after which the statement following the [with] block runs, or let it
    propagate.  The library reads a callback's answer as "re-raise?":
    [True] lets the exception propagate, [False] suppresses it.  The
    callbacks of rest_manager.py are written against this reading:
    [_on_break_on] answers [False] and has to finish the iterator itself
    to end the retry loop, and [_on_client_response_error] answers
    [True] for the client errors that a retry cannot cure (400, 403, …).
    The spec's gloss of the answer (true: retry, false: stop retrying)
    is not followed: an [__exit__] without access to the iterator has no
    means to stop the loop of [try_respond].  The lemmas
    [suppressed_failure_is_followed_by_an_attempt] and [raise_or_retry]
    below hold for all rules, so also for callbacks that answer the
    other way round.

    A callback may update the backoff iterator its manager holds.

    The order in which the library tries the rules cannot be read off
    rest_manager.py; the spec has it to be the order of registration,
    and so has [exit_].  It matters only for an exception that two
    rules match.  The statements about [clear_rules] that depend on it
    are made for a rule list in any order. *)
Module ErrorManager.

Definition callback : Type := exception -> Backoff.t -> bool * Backoff.t.

Definition rules : Type := list (list exc_type * callback).

Definition clear_rules : rules := [].

Definition with_rule (self : rules) (exceptions : list exc_type)
    (result : callback) : rules :=
  self ++ [(exceptions, result)].

(** [__exit__] with an exception: [true] when the exception is
    suppressed. *)
Fixpoint exit_ (self : rules) (e : exception) (handler : Backoff.t)
    : bool * Backoff.t :=
  match self with
  | [] => (false, handler)
  | (rule, result) :: rest =>
      if issubclass_any (exc_class e) rule
      then let '(reraise, handler') := result e handler in
           (negb reraise, handler')
      else exit_ rest e handler
  end.

End ErrorManager.

(** [class HikariErrorManager]. *)
Module HikariErrorManager.

(** The iterator in [_backoff_handler] is shared with whoever passed it
    in; it is threaded through every call that may touch it. *)
Record t : Type := {
  _backoff_handler : Backoff.t;
  _rules : ErrorManager.rules
}.

Definition _on_break_on : ErrorManager.callback :=
  fun _ handler => (false, Backoff.finish handler).

Definition _on_internal_server_error : ErrorManager.callback :=
  fun _ handler => (false, handler).

Definition _on_rate_limited_error : ErrorManager.callback :=
  fun exception_ handler =>
    if negb (Qle_bool (retry_after exception_) 10%Q) then (true, handler)
    else (false, Backoff.set_next_backoff handler (retry_after exception_)).

Definition clear_rules (break_on : list exc_type) : ErrorManager.rules :=
  let rs := ErrorManager.clear_rules in
  let rs := ErrorManager.with_rule rs [InternalServerError]
              _on_internal_server_error in
  let rs := ErrorManager.with_rule rs [RateLimitedError]
              _on_rate_limited_error in
  match break_on with
  | [] => rs
  | _ :: _ => ErrorManager.with_rule rs break_on _on_break_on
  end.

(** [HikariErrorManager(backoff_handler, break_on=…)]; without a handler
    it makes [Backoff(max_retries=5)], whose delay schedule is the
    library's and is taken as [schedule_]. *)
Definition init (backoff_handler : option Backoff.t) (schedule_ : nat -> Q)
    (break_on : list exc_type) : t :=
  {| _backoff_handler :=
       match backoff_handler with
       | Some b => b
       | None => Backoff.init (Some 5) schedule_
       end;
     _rules := clear_rules break_on |}.

(** What happens while [try_respond] runs, in order. *)
Inductive event : Type :=
| Sleep (delay : Q)
| Respond (failure : option exception).

(** How [try_respond] ends: the guarded call succeeded ([break]); the
    iterator ended and the function returned without a success; an
    exception left the function; or the run is cut where the model has
    no answer of the remote side left. *)
Inductive ending : Type :=
| Responded
| GaveUp
| Propagated (e : exception)
| Unanswered.

(** The [async for _ in self._backoff_handler] loop.  [answers] are the
    results [ctx.respond] will have, attempt by attempt: [None] for a
    success, [Some e] when it raises [e].  The body is
    [with self: await ctx.respond(…); break].  After a success the
    [break] ends the loop.  When [respond] raises, [__exit__] decides:
    an exception it does not suppress leaves the function; one it
    suppresses ends the [with] block normally, the [break] has not run,
    and the loop asks the iterator for its next permit. *)
Fixpoint respond_loop (rs : ErrorManager.rules)
    (answers : list (option exception)) (handler : Backoff.t)
    : list event * ending * Backoff.t :=
  match Backoff.anext handler with
  | None => ([], GaveUp, handler)
  | Some (slept, handler1) =>
      let before := match slept with
                    | Some d => [Sleep d]
                    | None => []
                    end in
      match answers with
      | [] => (before, Unanswered, handler1)
      | None :: _ => (before ++ [Respond None], Responded, handler1)
      | Some e :: rest =>
          let '(suppressed, handler2) := ErrorManager.exit_ rs e handler1 in
          if suppressed then
            let '(events, end_, handler3) := respond_loop rs rest handler2 in
            (before ++ Respond (Some e) :: events, end_, handler3)
          else (before ++ [Respond (Some e)], Propagated e, handler2)
      end
  end.

Definition try_respond (self : t) (answers : list (option exception))
    : list event * ending * Backoff.t :=
  respond_loop (_rules self) answers (Backoff.reset (_backoff_handler self)).

End HikariErrorManager.

(** [class AIOHTTPStatusHandler]. *)
Module AIOHTTPStatusHandler.

(** The text of a [Retry-After] header as [float(…)] takes it: the text
    of a number, or a text that [float] refuses (a date, for one).  As
    for [retry_after], the number is finite, hence a rational; the texts
    that [float] reads as an infinity or as nan are not modelled. *)
Inductive header_text : Type :=
| numeric (seconds : Q)
| malformed.

(** [float(raw_retry_after)]: the number, or [ValueError]. *)
Definition float_ (raw : header_text) : outcome Q :=
  match raw with
  | numeric seconds => Ret seconds
  | malformed => Raise (raise_ ValueError)
  end.

(** [aiohttp.ClientResponseError] as the handler reads it: the status and
    the [Retry-After] header ([None] when the response has no headers or
    not this one). *)
Record ClientResponseError : Type := {
  status : Z;
  retry_after_header : option header_text
}.

(** [on_404]: a message for a [CommandError], or a callback (what the
    callback does is not modelled). *)
Inductive on_404_t : Type :=
| on_404_message (response : string)
| on_404_call.

Record t : Type := {
  _backoff_handler : Backoff.t;
  _break_on : list Z;
  _on_404 : option on_404_t
}.

(** [_on_client_response_error]: the callback's answer, or the
    exception that leaves it (the [CommandError] it raises for a 404,
    the [ValueError] of [float]), and the iterator afterwards. *)
Definition _on_client_response_error (self : t)
    (exception_ : ClientResponseError) : outcome bool * Backoff.t :=
  if bool_decide (status exception_ ∈ _break_on self)
  then (Ret false, Backoff.finish (_backoff_handler self))
  else if (status exception_ >=? 500)%Z
  then (Ret false, _backoff_handler self)
  else if (status exception_ =? 429)%Z
  then match retry_after_header exception_ with
       | Some raw_retry_after =>
           match float_ raw_retry_after with
           | Raise e => (Raise e, _backoff_handler self)
           | Ret retry_after_ =>
               if Qle_bool retry_after_ 10%Q
               then (Ret false,
                     Backoff.set_next_backoff (_backoff_handler self)
                       retry_after_)
               else (Ret false, _backoff_handler self)
           end
       | None => (Ret false, _backoff_handler self)
       end
  else match _on_404 self with
       | Some (on_404_message _) =>
           if (status exception_ =? 404)%Z
           then (Raise (raise_ CommandError), _backoff_handler self)
           else (Ret true, _backoff_handler self)
       | _ => (Ret true, _backoff_handler self)
       end.

End AIOHTTPStatusHandler.

(** ** command_hooks.py *)

Module Hooks.

(** The loop both hooks end with: a fresh [Backoff(max_retries=5)] and a
    [HikariErrorManager] that breaks on [ForbiddenError] and
    [NotFoundError], around [ctx.respond].  There is no [reset] here. *)
Definition respond_with_retries (schedule_ : nat -> Q)
    (answers : list (option exception))
    : list HikariErrorManager.event * HikariErrorManager.ending * Backoff.t :=
  let retry := Backoff.init (Some 5) schedule_ in
  let error_manager :=
    HikariErrorManager.init (Some retry) schedule_
      [ForbiddenError; NotFoundError] in
  HikariErrorManager.respond_loop (HikariErrorManager._rules error_manager)
    answers retry.

(** The description of the embed [on_error] sends: [str(exception)]
    cut to 1950 characters, in a code block. *)
Definition error_description (text : string) : string :=
  ("```python" ++ String "010"%char EmptyString)
  ++ take_chars 1950 text ++ "```".

Definition on_error (schedule_ : nat -> Q)
    (answers : list (option exception)) :=
  respond_with_retries schedule_ answers.

(** The text [on_parser_error] sends: [str(exception)], followed, for a
    [ConversionError] with errors, by the errors in backticks, each
    error being given by its [str]. *)
Definition quoted (error : string) : string := "`" ++ error ++ "`".

Fixpoint join (separator : string) (parts : list string) : string :=
  match parts with
  | [] => EmptyString
  | [part] => part
  | part :: rest => part ++ separator ++ join separator rest
  end.

Definition parser_error_message (text : string)
    (errors : option (list string)) : string :=
  match errors with
  | None => text
  | Some [] => text
  | Some [error] => text ++ ": " ++ quoted error
  | Some errors_ =>
      text ++ (":" ++ String "010"%char "* ")
      ++ join (String "010"%char "* ") (map quoted errors_)
  end.

Definition on_parser_error (schedule_ : nat -> Q)
    (answers : list (option exception)) :=
  respond_with_retries schedule_ answers.

End Hooks.

(** ** Vocabulary of the statements *)

(** The spec's trigger matcher: the first trigger, in declared order,
    that is a literal prefix of the content. *)
Definition match_spec (triggers_ : list string) (content : string)
    : option string :=
  List.find (fun trigger => startswith content trigger) triggers_.

(** The spec's [getCommandFromName]: in stored order, one pair for every
    command that has a trigger prefixing the content, with the first
    such trigger. *)
Definition getCommandFromName_spec (commands : list Command.t)
    (content : string) : list (Command.t * string) :=
  flat_map (fun command_obj =>
              match match_spec (Command.triggers command_obj) content with
              | Some trigger => [(command_obj, trigger)]
              | None => []
              end)
           commands.

(** The spec's [resolvePrefix]: the guild's prefix, when the message is
    from a guild, a resolver is configured and it resolves one, is tried
    first, then the global prefixes.  The spec makes no exception for
    a resolved prefix that is the empty string. *)
Definition guild_override (self : CommandClient.t) (message : Message)
    : list string :=
  match guild_id message, CommandClient.get_guild_prefix self with
  | Some guild_, Some resolver =>
      match resolver guild_ with
      | Some guild_prefix => [guild_prefix]
      | None => []
      end
  | _, _ => []
  end.

Definition resolvePrefix_spec (self : CommandClient.t) (message : Message)
    : option string :=
  List.find (fun prefix => startswith (message_content message) prefix)
            (guild_override self message
             ++ prefixes (CommandClient._client_options self)).

(** [unregister_command] for each of [commands] in turn, stopping at
    the first call that raises. *)
Fixpoint unregister_all (self : CommandCluster.t)
    (commands : list Command.t) : outcome CommandCluster.t :=
  match commands with
  | [] => Ret self
  | command_obj :: rest =>
      match CommandCluster.unregister_command self command_obj with
      | Ret self' => unregister_all self' rest
      | Raise e => Raise e
      end
  end.

(** [x] is the first element of [l] that satisfies [p]. *)
Definition first_such {A : Type} (p : A -> bool) (l : list A) (x : A)
    : Prop :=
  exists before after,
    l = before ++ x :: after /\ p x = true /\
    forall y, In y before -> p y = false.

(** The context [on_message_create] builds once a prefix has matched. *)
Definition initial_context (self : CommandClient.t) (message : Message)
    : option Context.t :=
  match CommandClient.check_prefix self message with
  | None => None
  | Some prefix =>
      if truthy prefix
      then Some (Context.init
                   (drop_chars (String.length prefix)
                               (message_content message))
                   message prefix PREFIX)
      else None
  end.

(** Running the checks of [commands] one after the other on the shared
    context: the commands whose check passed (the candidates), and the
    exception that ended the run, if one escaped. *)
Fixpoint passing (commands : list Command.t) (ctx : Context.t)
    : list Command.t * option exception :=
  match commands with
  | [] => ([], None)
  | command_obj :: rest =>
      match Command.check command_obj ctx with
      | (_, Raise e) => ([], Some e)
      | (ctx', Ret true) =>
          let '(found, escaped) := passing rest ctx' in
          (command_obj :: found, escaped)
      | (ctx', Ret false) => passing rest ctx'
      end
  end.

(** The candidate commands of a message, in traversal order. *)
Definition candidates (self : CommandClient.t) (message : Message)
    : list Command.t * option exception :=
  match initial_context self message with
  | Some ctx => passing (CommandClient.traversal self) ctx
  | None => ([], None)
  end.

(** The selection loop of [on_message_create] over one flat list. *)
Fixpoint select_flat (self : CommandClient.t) (message : Message)
    (commands : list Command.t) (ctx : Context.t)
    : Context.t * CommandClient.loop_exit :=
  match commands with
  | [] => (ctx, CommandClient.Else)
  | command_obj :: rest =>
      match Command.check command_obj ctx with
      | (ctx', Raise e) => (ctx', CommandClient.Escaped e)
      | (ctx', Ret true) =>
          if CommandClient.access_check self command_obj message
          then (ctx', CommandClient.Break command_obj)
          else select_flat self message rest ctx'
      | (ctx', Ret false) => select_flat self message rest ctx'
      end
  end.

(** A caller-supplied predicate that leaves the [command] slot, or that
    slot and [triggering_name], as it found them. *)
Definition keeps_command (f : Context.t -> Context.t * outcome bool) : Prop :=
  forall ctx, Context.command (fst (f ctx)) = Context.command ctx.

Definition keeps_identity (f : Context.t -> Context.t * outcome bool)
    : Prop :=
  forall ctx,
    Context.command (fst (f ctx)) = Context.command ctx /\
    Context.triggering_name (fst (f ctx)) = Context.triggering_name ctx.

Definition check_keeps_command (check : CheckLikeT) : Prop :=
  match check with
  | check_prefix_from_context_of_self => True
  | predicate f => keeps_command f
  end.

(** The iterator allows at least [n] permits after a reset. *)
Definition allows (handler : Backoff.t) (n : nat) : Prop :=
  match Backoff.max_retries handler with
  | Some m => n <= m
  | None => True
  end.

(** [e] is an instance of the class [t]. *)
Definition isinstance (e : exception) (t : exc_type) : bool :=
  issubclass (exc_class e) t.

(** No [break_on] class covers a server error or a rate-limit error:
    for these failures the rule of their own kind is the only rule of
    the manager that matches. *)
Definition uncontested (break_on : list exc_type) : Prop :=
  forall t,
    issubclass t InternalServerError = true
    \/ issubclass t RateLimitedError = true ->
    issubclass_any t break_on = false.

(** A command as [__init__] builds it: the built-in prefix predicate is
    its only check. *)
Definition plain (command_obj : Command.t) : Prop :=
  Command._checks command_obj = [check_prefix_from_context_of_self].

(** Some trigger of the command prefixes the content. *)
Definition triggered (content : string) (command_obj : Command.t) : bool :=
  match Command.check_prefix command_obj content with
  | Some _ => true
  | None => false
  end.

(** [a] is [b] cut short: [b] is [a] followed by at least a character. *)
Definition proper_prefix (a b : string) : Prop :=
  exists c rest, b = (a ++ String c rest)%string.

(** The attempts of the retry loop and its sleeps take turns: two
    attempts are never next to each other, nor two sleeps.
    [expect_attempt] tells which of the two comes next. *)
Fixpoint paced (expect_attempt : bool)
    (events : list HikariErrorManager.event) : bool :=
  match events with
  | [] => true
  | HikariErrorManager.Respond _ :: rest =>
      expect_attempt && paced false rest
  | HikariErrorManager.Sleep _ :: rest =>
      negb expect_attempt && paced true rest
  end.

(** The number of calls of [ctx.respond] in a trace. *)
Fixpoint attempts (events : list HikariErrorManager.event) : nat :=
  match events with
  | [] => 0
  | HikariErrorManager.Respond _ :: rest => S (attempts rest)
  | HikariErrorManager.Sleep _ :: rest => attempts rest
  end.

(** A failure the rules of [HikariErrorManager] answer with another
    attempt: a server error, or a rate limit with a hint of at most 10
    seconds. *)
Definition retryable (e : exception) : bool :=
  isinstance e InternalServerError
  || (isinstance e RateLimitedError && Qle_bool (retry_after e) 10).

(** The modules the loader reported as having no exports, in the order
    of the log. *)
Definition reported_empty (logged : list ReinhardCommandClient.log)
    : list string :=
  flat_map (fun entry =>
              match entry with
              | ReinhardCommandClient.no_exports module_path_ =>
                  [module_path_]
              | _ => []
              end)
           logged.

(** ** Concrete scenarios *)

Module Scenario.

Definition alice : Message :=
  {| author_id := 7; guild_id := None; channel_id := 1;
     message_content := "!ping now" |}.

Definition ctx_ping : Context.t := Context.init "ping now" alice "!" PREFIX.

Definition ctx_hello : Context.t := Context.init "hello" alice "!" PREFIX.

Definition always (answer : outcome bool) : CheckLikeT :=
  predicate (fun ctx => (ctx, answer)).

(** [Command(ping, "ping")]. *)
Definition ping : Command.t := Command.init 1 "ping" (Some "ping") [] 0 None.

(** [ping] with a check that raises [ValueError], then one that passes. *)
Definition ping_raise_then_pass : Command.t :=
  Command.register_check
    (Command.register_check ping (always (Raise (raise_ ValueError))))
    (always (Ret true)).

(** [ping] with a check that raises [PermissionError]. *)
Definition ping_forbidden : Command.t :=
  Command.register_check ping (always (Raise (raise_ PermissionError))).

(** [ping] with a check that fails. *)
Definition ping_refused : Command.t :=
  Command.register_check ping (always (Ret false)).

(** [ping] with a check that fails after it has put another command and
    another trigger on the context, through [ctx.set_command] and
    [ctx.set_command_trigger]. *)
Definition ping_hijacked : Command.t :=
  Command.register_check ping
    (predicate (fun ctx =>
                  (Context.set_command_trigger (Context.set_command ctx 99)
                     "pong",
                   Ret false))).

(** [Command(ping, "ping", aliases=[…])] with one alias, the empty
    string. *)
Definition ping_empty_alias : Command.t :=
  Command.init 2 "ping" (Some "ping") [EmptyString] 0 None.

(** [Command(pin, "pin", level=2)] and [Command(pi, "pi")]. *)
Definition pin : Command.t := Command.init 3 "pin" (Some "pin") [] 2 None.

Definition pi : Command.t := Command.init 4 "pi" (Some "pi") ["p"] 0 None.

Definition empty_cluster : CommandCluster.t :=
  {| CommandCluster.class_name := "Listeners";
     CommandCluster.members := [];
     CommandCluster.cluster_commands := [] |}.

Definition basic_cluster : CommandCluster.t :=
  {| CommandCluster.class_name := "Basic";
     CommandCluster.members := [("pi", pi); ("pin", pin); ("ping", ping)];
     CommandCluster.cluster_commands := [] |}.

Definition loaded_cluster (commands : list Command.t) : CommandCluster.t :=
  {| CommandCluster.class_name := "Basic";
     CommandCluster.members := [];
     CommandCluster.cluster_commands := commands |}.

Definition options : CommandClientOptions :=
  {| access_levels := {[ 7%Z := 1%Z ]}; prefixes := ["!"; "?"] |}.

(** A client with no command of its own and one loaded cluster. *)
Definition client (commands : list Command.t) : CommandClient.t :=
  {| CommandClient._client_options := options;
     CommandClient.self_cluster := empty_cluster;
     CommandClient.clusters := [("Basic", loaded_cluster commands)];
     CommandClient.get_guild_prefix := None |}.

(** A client whose resolver gives guild 5 the prefix ["$"]. *)
Definition guild_client : CommandClient.t :=
  {| CommandClient._client_options := options;
     CommandClient.self_cluster := empty_cluster;
     CommandClient.clusters := [];
     CommandClient.get_guild_prefix :=
       Some (fun guild => if (guild =? 5)%Z then Some "$" else None) |}.

Definition in_guild : Message :=
  {| author_id := 7; guild_id := Some 5%Z; channel_id := 1;
     message_content := "$ping" |}.

(** A client whose resolver gives guild 5 the empty string as its
    prefix. *)
Definition blank_guild_client : CommandClient.t :=
  {| CommandClient._client_options := options;
     CommandClient.self_cluster := empty_cluster;
     CommandClient.clusters := [];
     CommandClient.get_guild_prefix :=
       Some (fun guild => if (guild =? 5)%Z then Some EmptyString
                          else None) |}.

(** A delay schedule: 1, 2, 4, … seconds, capped at 64. *)
Definition doubling (n : nat) : Q :=
  inject_Z (Z.min 64 (2 ^ Z.of_nat n)).

Definition rate_limited (seconds : Q) : exception :=
  Exc RateLimitedError seconds.

(** [HikariErrorManager()] and the manager of command_hooks.py. *)
Definition manager : HikariErrorManager.t :=
  HikariErrorManager.init None doubling [].

Definition hooks_manager : HikariErrorManager.t :=
  HikariErrorManager.init (Some (Backoff.init (Some 5) doubling)) doubling
    [ForbiddenError; NotFoundError].

(** A manager told to break on server errors. *)
Definition break_on_5xx : HikariErrorManager.t :=
  HikariErrorManager.init None doubling [InternalServerError].

(** A module that exports the commands [ping] and [pin], and one whose
    export list names an attribute the module does not have. *)
Definition basic_module : ReinhardCommandClient.module_ :=
  {| ReinhardCommandClient.module_path := "reinhard.components.basic";
     ReinhardCommandClient.exports := ["ping"; "pin"];
     ReinhardCommandClient.attributes :=
       <["ping" := ReinhardCommandClient.command_object ping]>
         (<["pin" := ReinhardCommandClient.command_object pin]> ∅) |}.

Definition broken_module : ReinhardCommandClient.module_ :=
  {| ReinhardCommandClient.module_path := "reinhard.components.broken";
     ReinhardCommandClient.exports := ["ping"; "pong"; "pin"];
     ReinhardCommandClient.attributes :=
       <["ping" := ReinhardCommandClient.command_object ping]>
         (<["pin" := ReinhardCommandClient.command_object pin]> ∅) |}.

(** A status handler that breaks on 403 and answers a 404 with a
    message, and two errors of a request. *)
Definition status_handler : AIOHTTPStatusHandler.t :=
  {| AIOHTTPStatusHandler._backoff_handler := Backoff.init (Some 5) doubling;
     AIOHTTPStatusHandler._break_on := [403%Z];
     AIOHTTPStatusHandler._on_404 :=
       Some (AIOHTTPStatusHandler.on_404_message "Nothing found") |}.




End Scenario.

(* ================================================================== *)
(** * Part II.  Properties                                             *)
(* ================================================================== *)

Import Scenario.

(** ** The check chain of a command *)

Section CheckLoop.

Variable self : Command.t.

Ltac step_check :=
  match goal with
  | |- context [Command.call_check ?s ?c ?x] =>
      destruct (Command.call_check s c x) as [? [[|] | ?]] eqn:?
  | |- context [is_Exception ?e] => destruct (is_Exception e) eqn:?
  | |- context [Command.check_loop ?s ?l ?r ?x] =>
      destruct (Command.check_loop s l r x) as [[? ?] ?] eqn:?
  end; cbn [negb].

(** An exception that escapes from the loop is not an [Exception]. *)
Lemma check_loop_escape checks result ctx ctx' e calls :
  Command.check_loop self checks result ctx = (ctx', Raise e, calls) ->
  is_Exception e = false.
Proof.
  revert result ctx ctx' calls.
  induction checks as [|check rest IH]; intros result ctx ctx' calls; cbn.
  - discriminate.
  - repeat step_check; intros ?; simplify_eq; eauto.
Qed.

(** Without a call the loop had nothing to run. *)
Lemma check_loop_no_call checks result ctx ctx' r :
  Command.check_loop self checks result ctx = (ctx', r, []) ->
  checks = [] /\ r = Ret result.
Proof.
  destruct checks as [|check rest]; cbn.
  - intros ?; simplify_eq. auto.
  - repeat step_check; discriminate.
Qed.

(** A predicate that returns false is the last one called, and false is
    what the loop returns. *)
Lemma check_loop_break checks result ctx ctx' r calls before after :
  Command.check_loop self checks result ctx = (ctx', r, calls) ->
  map snd calls = before ++ Ret false :: after ->
  after = [] /\ r = Ret false.
Proof.
  revert result ctx ctx' r calls before.
  induction checks as [|check rest IH];
    intros result ctx ctx' r calls before; cbn.
  - intros ?; simplify_eq. destruct before; discriminate.
  - repeat step_check; intros ?; simplify_eq; cbn;
      destruct before as [|o before]; cbn; intros ?; simplify_eq;
      try (destruct before; discriminate); eauto.
Qed.

(** A predicate that raises an [Exception] never has its exception
    leave the loop; when it is the last one called, the loop returns
    false. *)
Lemma check_loop_caught checks result ctx ctx' r calls before e after :
  Command.check_loop self checks result ctx = (ctx', r, calls) ->
  map snd calls = before ++ Raise e :: after ->
  is_Exception e = true ->
  r <> Raise e /\ (after = [] -> r = Ret false).
Proof.
  revert result ctx ctx' r calls before.
  induction checks as [|check rest IH];
    intros result ctx ctx' r calls before; cbn.
  - intros ?; simplify_eq. destruct before; discriminate.
  - repeat step_check; intros ?; simplify_eq; cbn;
      destruct before as [|o before]; cbn; intros ? He; simplify_eq;
      try (destruct before; discriminate); eauto; try congruence.
    match goal with
    | H : Command.check_loop _ _ _ _ = _ |- _ => rename H into Hrest
    end.
    split.
    + intros ->. apply check_loop_escape in Hrest. congruence.
    + intros Hafter. apply map_eq_nil in Hafter. subst.
      apply check_loop_no_call in Hrest. tauto.
Qed.

(** The first predicate called is given the context the loop starts
    from. *)
Lemma check_loop_first_call checks result ctx ctx' r first more :
  Command.check_loop self checks result ctx = (ctx', r, first :: more) ->
  fst first = ctx.
Proof.
  destruct checks as [|check rest]; cbn.
  - discriminate.
  - repeat step_check; intros ?; simplify_eq; reflexivity.
Qed.

(** The built-in predicate agrees with [check_prefix]: it records the
    first trigger that prefixes the content, and answers whether there
    is one. *)
Lemma check_triggers_from_context_spec triggers_ ctx :
  Command.check_triggers_from_context triggers_ ctx =
  match Command.first_trigger triggers_ (Context.content ctx) with
  | Some trigger => (Context.set_command_trigger ctx trigger, true)
  | None => (ctx, false)
  end.
Proof.
  induction triggers_ as [|trigger rest IH]; cbn; [reflexivity|].
  destruct (startswith (Context.content ctx) trigger); auto.
Qed.

Lemma first_trigger_exists triggers_ content trigger :
  In trigger triggers_ -> startswith content trigger = true ->
  exists found, Command.first_trigger triggers_ content = Some found.
Proof.
  induction triggers_ as [|t rest IH]; cbn; [tauto|].
  intros [-> | Hin] Hp.
  - rewrite Hp. eauto.
  - destruct (startswith content t); eauto.
Qed.

Lemma call_check_keeps_command check ctx :
  check_keeps_command check ->
  Context.command (fst (Command.call_check self check ctx)) =
  Context.command ctx.
Proof.
  destruct check as [|f]; cbn.
  - intros _. unfold Command.check_prefix_from_context.
    rewrite check_triggers_from_context_spec.
    destruct (Command.first_trigger _ _); reflexivity.
  - intros Hf. apply Hf.
Qed.

(** Predicates that leave the [command] slot alone see it as the loop
    found it, and so does the caller afterwards. *)
Lemma check_loop_keeps_command checks result ctx ctx' r calls :
  Forall check_keeps_command checks ->
  Command.check_loop self checks result ctx = (ctx', r, calls) ->
  Context.command ctx' = Context.command ctx /\
  Forall (fun call => Context.command (fst call) = Context.command ctx) calls.
Proof.
  revert result ctx ctx' r calls.
  induction checks as [|check rest IH]; intros result ctx ctx' r calls Hk;
    cbn.
  - intros ?; simplify_eq. auto.
  - apply Forall_cons in Hk as [Hcheck Hrest].
    pose proof (call_check_keeps_command check ctx Hcheck) as Hcall.
    revert Hcall.
    repeat step_check; cbn; intros Hcall ?; simplify_eq;
      try (split; [assumption | repeat constructor; reflexivity]);
      match goal with
      | H : Command.check_loop _ _ _ _ = _ |- _ =>
          destruct (IH _ _ _ _ _ Hrest H) as [Hc Hcalls]
      end;
      (split; [congruence|]);
      (constructor; [reflexivity|]);
      (eapply Forall_impl; [exact Hcalls|]); cbn; intros; congruence.
Qed.

(** Caller-supplied predicates that leave [command] and
    [triggering_name] alone hand both on unchanged. *)
Lemma check_loop_keeps_identity fs result ctx ctx' r calls :
  Forall keeps_identity fs ->
  Command.check_loop self (map predicate fs) result ctx = (ctx', r, calls) ->
  Context.command ctx' = Context.command ctx /\
  Context.triggering_name ctx' = Context.triggering_name ctx.
Proof.
  revert result ctx ctx' r calls.
  induction fs as [|f rest IH]; intros result ctx ctx' r calls Hk; cbn.
  - intros ?; simplify_eq. auto.
  - apply Forall_cons in Hk as [Hf Hrest].
    destruct (Hf ctx) as [Hc Ht]. revert Hc Ht.
    destruct (f ctx) as [ctx1 [[|] | e]]; cbn;
      try destruct (is_Exception e); cbn;
      try destruct (Command.check_loop self (map predicate rest) _ ctx1)
        as [[? ?] ?] eqn:Hloop;
      intros Hc Ht ?; simplify_eq; auto;
      destruct (IH _ _ _ _ _ Hrest Hloop) as [? ?]; split; congruence.
Qed.

End CheckLoop.

Section CheckTrue.

Variable self : Command.t.

(** What a true result does guarantee: every registered predicate was
    called, each call returned true or raised an [Exception], and the
    last call returned true. *)
Lemma check_loop_true checks result ctx ctx' calls :
  Command.check_loop self checks result ctx = (ctx', Ret true, calls) ->
  List.length calls = List.length checks /\
  Forall (fun o => o = Ret true \/
                   exists e, o = Raise e /\ is_Exception e = true)
         (map snd calls) /\
  match last (map snd calls) with
  | Some o => o = Ret true
  | None => result = true
  end.
Proof.
  revert result ctx ctx' calls.
  induction checks as [|check rest IH]; intros result ctx ctx' calls; cbn.
  - intros ?; simplify_eq. cbn. auto.
  - destruct (Command.call_check self check ctx) as [ctx1 [[|] | e]];
      cbn [negb]; try destruct (is_Exception e) eqn:He;
      try (intros ?; simplify_eq; fail);
      destruct (Command.check_loop self rest _ ctx1)
        as [[ctx2 r2] calls2] eqn:Hloop;
      intros ?; simplify_eq;
      destruct (IH _ _ _ _ Hloop) as (Hlen & Hall & Hlast); cbn;
      (split; [congruence|]);
      (split; [constructor; eauto|]);
      destruct (map snd calls2) as [|o os] eqn:Hmap; cbn in *;
      auto; try congruence;
      (destruct (last (o :: os)) eqn:Hnone;
       [exact Hlast | apply last_None in Hnone; discriminate]).
Qed.

End CheckTrue.

(** A true result of [check]: all predicates were called, none returned
    false, and the last one returned true. *)
Lemma check_true_means self ctx :
  snd (Command.check self ctx) = Ret true ->
  List.length (Command.evaluated self ctx)
  = List.length (Command._checks self) /\
  Forall (fun o => o = Ret true \/
                   exists e, o = Raise e /\ is_Exception e = true)
         (Command.evaluated self ctx) /\
  (Command._checks self <> [] ->
   last (Command.evaluated self ctx) = Some (Ret true)).
Proof.
  unfold Command.evaluated, Command.calls, Command.check, Command.check_run.
  destruct (Command.check_loop _ _ _ _) as [[ctx' r] calls] eqn:Hloop; cbn.
  intros ->. apply check_loop_true in Hloop as (Hlen & Hall & Hlast).
  rewrite length_map. repeat split; try assumption.
  intros Hne. destruct (last (map snd calls)) as [o|]; congruence.
Qed.

(** [check] stops at the first predicate that returns false: nothing is
    called after it, and false is the result. *)
Lemma check_short_circuits self ctx before after :
  Command.evaluated self ctx = before ++ Ret false :: after ->
  after = [] /\ snd (Command.check self ctx) = Ret false.
Proof.
  unfold Command.evaluated, Command.calls, Command.check, Command.check_run.
  destruct (Command.check_loop _ _ _ _) as [[ctx' r] calls] eqn:Hloop; cbn.
  eapply check_loop_break; eassumption.
Qed.

(** C1 (the code departs from it).  The claim: [check] returns true only
    if every registered predicate evaluated to true, a predicate that
    raises counting as false.  Here the second of three predicates
    raises [ValueError]; the [except] branch records false but does not
    leave the loop, the third predicate returns true, and [check]
    returns true. *)
Theorem check_passes_after_a_raising_predicate :
  Command.evaluated ping_raise_then_pass ctx_ping
  = [Ret true; Raise (raise_ ValueError); Ret true] /\
  is_Exception (raise_ ValueError) = true /\
  snd (Command.check ping_raise_then_pass ctx_ping) = Ret true.
Proof. repeat split; reflexivity. Qed.

(** C5, as claimed, fails: a predicate raises [PermissionError], and
    [check] returns false instead of re-raising it. *)
Lemma check_swallows_PermissionError :
  Command.evaluated ping_forbidden ctx_ping
  = [Ret true; Raise (raise_ PermissionError)] /\
  snd (Command.check ping_forbidden ctx_ping) = Ret false.
Proof. split; reflexivity. Qed.

(** C5, amended.  An exception derived from [Exception] that a predicate
    raises, [PermissionError] included, is caught by [check] and never
    re-raised; when the raising predicate is the last one called,
    [check] returns false. *)
Theorem check_catches_every_Exception self ctx before e after :
  Command.evaluated self ctx = before ++ Raise e :: after ->
  is_Exception e = true ->
  snd (Command.check self ctx) <> Raise e /\
  (after = [] -> snd (Command.check self ctx) = Ret false).
Proof.
  unfold Command.evaluated, Command.calls, Command.check, Command.check_run.
  destruct (Command.check_loop _ _ _ _) as [[ctx' r] calls] eqn:Hloop; cbn.
  eapply check_loop_caught; eassumption.
Qed.

Lemma check_catches_every_Exception_witness :
  Command.evaluated ping_forbidden ctx_ping
  = [Ret true] ++ Raise (raise_ PermissionError) :: [] /\
  is_Exception (raise_ PermissionError) = true /\
  snd (Command.check ping_forbidden ctx_ping)
  <> Raise (raise_ PermissionError) /\
  ([] = @nil (outcome bool) ->
   snd (Command.check ping_forbidden ctx_ping) = Ret false).
Proof.
  split; [reflexivity|]. split; [reflexivity|].
  apply (check_catches_every_Exception ping_forbidden ctx_ping
           [Ret true] (raise_ PermissionError) []); reflexivity.
Defined.

(** C10, as claimed, fails: a registered predicate is handed the
    context and may write to it.  Here the predicate puts another
    command and another trigger on the context and fails; after [check]
    has returned false, the context names neither the checked command
    nor its matched trigger. *)
Lemma check_loses_identity_to_a_predicate :
  Command.check_prefix ping_hijacked (Context.content ctx_ping)
  = Some "ping" /\
  snd (Command.check ping_hijacked ctx_ping) = Ret false /\
  Context.command (fst (Command.check ping_hijacked ctx_ping))
  <> Some (Command.oid ping_hijacked) /\
  Context.triggering_name (fst (Command.check ping_hijacked ctx_ping))
  <> Some "ping".
Proof. repeat split; discriminate. Qed.

(** C10, amended.  [check] stores the checked command in [ctx.command]
    before it calls any predicate: the first predicate called is handed
    the context with the command set.  The assignment stays whatever the
    outcome (true, false, or an exception), provided the registered
    predicates do not overwrite the slot themselves.  The built-in
    prefix predicate stores the first trigger that prefixes
    [ctx.content] in [ctx.triggering_name] whenever some trigger
    prefixes it.  Hence a command whose checks are the built-in
    predicate followed by registered predicates that overwrite neither
    slot, which is how [__init__] and [register_check] build them,
    leaves both its identity and its matched trigger on the context,
    whether or not its checks pass. *)
Theorem check_leaves_identity_on_context self ctx :
  (forall first more,
      Command.calls self ctx = first :: more ->
      fst first = Context.set_command ctx (Command.oid self)) /\
  (Forall check_keeps_command (Command._checks self) ->
   Forall (fun call =>
             Context.command (fst call) = Some (Command.oid self))
          (Command.calls self ctx) /\
   Context.command (fst (Command.check self ctx))
   = Some (Command.oid self)) /\
  (forall c,
      (exists trigger,
          In trigger (Command.triggers self) /\
          startswith (Context.content c) trigger = true) ->
      exists trigger,
        Command.check_prefix self (Context.content c) = Some trigger /\
        Command.check_prefix_from_context self c
        = (Context.set_command_trigger c trigger, true)) /\
  (forall fs trigger,
      Command._checks self
      = check_prefix_from_context_of_self :: map predicate fs ->
      Forall keeps_identity fs ->
      Command.check_prefix self (Context.content ctx) = Some trigger ->
      Context.command (fst (Command.check self ctx))
      = Some (Command.oid self) /\
      Context.triggering_name (fst (Command.check self ctx))
      = Some trigger).
Proof.
  unfold Command.calls, Command.check, Command.check_run.
  destruct (Command.check_loop _ _ _ _) as [[ctx' r] calls] eqn:Hloop; cbn.
  split; [|split; [|split]].
  - intros first more ->. eapply check_loop_first_call; eassumption.
  - intros Hkeep.
    destruct (check_loop_keeps_command _ _ _ _ _ _ _ Hkeep Hloop)
      as [Hc Hcalls].
    split; assumption.
  - intros c (trigger & Hin & Hp).
    destruct (first_trigger_exists _ _ _ Hin Hp) as [found Hfound].
    exists found. split; [exact Hfound|].
    unfold Command.check_prefix_from_context.
    rewrite check_triggers_from_context_spec, Hfound. reflexivity.
  - intros fs trigger Hchecks Hkeep Hfound.
    rewrite Hchecks in Hloop. cbn in Hloop.
    unfold Command.check_prefix_from_context in Hloop.
    rewrite check_triggers_from_context_spec in Hloop.
    unfold Command.check_prefix in Hfound.
    change (Context.content (Context.set_command ctx (Command.oid self)))
      with (Context.content ctx) in Hloop.
    rewrite Hfound in Hloop. cbn in Hloop.
    destruct (Command.check_loop _ _ _ _) as [[ctx1 r1] calls1] eqn:Hrest.
    simplify_eq.
    destruct (check_loop_keeps_identity _ _ _ _ _ _ _ Hkeep Hrest)
      as [Hc Ht].
    split; [rewrite Hc | rewrite Ht]; reflexivity.
Qed.

Lemma check_leaves_identity_on_context_witness :
  Forall check_keeps_command (Command._checks ping_refused) /\
  Command._checks ping_refused
  = check_prefix_from_context_of_self
    :: map predicate [fun ctx => (ctx, Ret false)] /\
  Forall keeps_identity [fun ctx : Context.t => (ctx, Ret false)] /\
  Command.check_prefix ping_refused (Context.content ctx_ping)
  = Some "ping" /\
  snd (Command.check ping_refused ctx_ping) = Ret false /\
  Context.command (fst (Command.check ping_refused ctx_ping)) = Some 1 /\
  Context.triggering_name (fst (Command.check ping_refused ctx_ping))
  = Some "ping".
Proof.
  assert (Hk : Forall keeps_identity
                 [fun ctx : Context.t => (ctx, Ret false)]).
  { repeat constructor. }
  assert (Hc : Forall check_keeps_command (Command._checks ping_refused)).
  { repeat constructor. }
  split; [exact Hc|]. split; [reflexivity|]. split; [exact Hk|].
  split; [reflexivity|]. split; [reflexivity|].
  destruct (check_leaves_identity_on_context ping_refused ctx_ping)
    as (_ & Hcommand & _ & Hboth).
  split.
  - exact (proj2 (Hcommand Hc)).
  - exact (proj2 (Hboth [fun ctx : Context.t => (ctx, Ret false)] "ping"
                    eq_refl Hk eq_refl)).
Defined.

(** ** Triggers, prefixes and clusters *)

(** [List.find] returns the first element that satisfies the test. *)
Lemma find_first_such {A : Type} (p : A -> bool) (l : list A) (x : A) :
  List.find p l = Some x <-> first_such p l x.
Proof.
  unfold first_such. induction l as [|y l IH]; cbn.
  - split; [discriminate|]. intros (before & after & H & _).
    destruct before; discriminate.
  - destruct (p y) eqn:Hy.
    + split.
      * intros [= ->]. exists [], l. cbn. tauto.
      * intros ([|z before] & after & H & Hx & Hb); cbn in H;
          injection H as -> ->; [reflexivity|].
        rewrite (Hb z) in Hy by (left; reflexivity). discriminate.
    + rewrite IH. split.
      * intros (before & after & -> & Hx & Hb).
        exists (y :: before), after. cbn. repeat split; [assumption|].
        intros z [<- | Hz]; auto.
      * intros ([|z before] & after & H & Hx & Hb); cbn in H;
          injection H as -> ->; [congruence|].
        exists before, after. repeat split; [assumption|].
        intros w Hw. apply Hb. right. assumption.
Qed.

Lemma find_none_all {A : Type} (p : A -> bool) (l : list A) :
  List.find p l = None <-> forall x, In x l -> p x = false.
Proof.
  induction l as [|y l IH]; cbn.
  - tauto.
  - destruct (p y) eqn:Hy.
    + split; [discriminate|]. intros H.
      rewrite (H y) in Hy by (left; reflexivity). discriminate.
    + rewrite IH. split.
      * intros H x [<- | Hx]; auto.
      * intros H x Hx. apply H. right. assumption.
Qed.

(** The loop of [Command.check_prefix] is the spec's matcher. *)
Lemma first_trigger_match_spec triggers_ content :
  Command.first_trigger triggers_ content = match_spec triggers_ content.
Proof.
  unfold match_spec.
  induction triggers_ as [|trigger rest IH]; cbn; [reflexivity|].
  destruct (startswith content trigger); auto.
Qed.

Lemma truthy_nonempty s : truthy s = true <-> s <> EmptyString.
Proof.
  unfold truthy. destruct (String.eqb_spec s EmptyString); cbn; split;
    congruence.
Qed.

(** C7, as claimed, fails: the command below declares the empty string
    as a trigger, which is a literal prefix of ["hello"], and is not
    yielded. *)
Lemma get_command_from_name_skips_empty_trigger :
  In EmptyString (Command.triggers ping_empty_alias) /\
  startswith "hello" EmptyString = true /\
  CommandCluster.get_command_from_name
    (loaded_cluster [ping_empty_alias]) "hello" = [] /\
  getCommandFromName_spec [ping_empty_alias] "hello"
  = [(ping_empty_alias, EmptyString)].
Proof. repeat split; try reflexivity. right; left; reflexivity. Qed.

(** C7, amended.  When no command's first trigger prefixing the content
    is the empty string, [get_command_from_name] yields, in the stored
    command order, one pair (command, trigger) for every command that
    has a trigger prefixing the content, and the trigger is the first
    such trigger in the command's declared order. *)
Theorem get_command_from_name_yields_every_match self content :
  (forall command_obj,
      In command_obj (CommandCluster.cluster_commands self) ->
      Command.check_prefix command_obj content <> Some EmptyString) ->
  CommandCluster.get_command_from_name self content
  = getCommandFromName_spec (CommandCluster.cluster_commands self) content
  /\
  forall command_obj trigger,
    In (command_obj, trigger)
       (CommandCluster.get_command_from_name self content) ->
    In command_obj (CommandCluster.cluster_commands self) /\
    first_such (fun t => startswith content t)
               (Command.triggers command_obj) trigger.
Proof.
  unfold CommandCluster.get_command_from_name.
  induction (CommandCluster.cluster_commands self) as [|c rest IH];
    intros Hne; cbn.
  - split; [reflexivity|]. intros ? ? [].
  - destruct IH as [IHeq IHin].
    { intros c' Hc'. apply Hne. right. assumption. }
    pose proof (Hne c (or_introl eq_refl)) as Hc.
    unfold Command.check_prefix in *.
    rewrite <- first_trigger_match_spec.
    destruct (Command.first_trigger (Command.triggers c) content)
      as [t|] eqn:Ht.
    + assert (truthy t = true) as ->.
      { apply truthy_nonempty. congruence. }
      cbn. split; [f_equal; exact IHeq|].
      intros c' t' [[= <- <-] | Hin].
      * split; [left; reflexivity|].
        apply find_first_such. rewrite <- Ht.
        symmetry. apply first_trigger_match_spec.
      * destruct (IHin _ _ Hin). split; [right|]; assumption.
    + cbn. split; [exact IHeq|].
      intros c' t' Hin. destruct (IHin _ _ Hin).
      split; [right|]; assumption.
Qed.

Lemma get_command_from_name_yields_every_match_witness :
  (forall command_obj,
      In command_obj (CommandCluster.cluster_commands
                        (loaded_cluster [ping; pin; pi])) ->
      Command.check_prefix command_obj "pin 3" <> Some EmptyString) /\
  CommandCluster.get_command_from_name (loaded_cluster [ping; pin; pi])
    "pin 3" = [(pin, "pin"); (pi, "pi")].
Proof.
  assert (H : forall command_obj,
             In command_obj (CommandCluster.cluster_commands
                               (loaded_cluster [ping; pin; pi])) ->
             Command.check_prefix command_obj "pin 3" <> Some EmptyString).
  { cbn. intros c [<- | [<- | [<- | []]]]; discriminate. }
  split; [exact H|].
  rewrite (proj1 (get_command_from_name_yields_every_match
                    (loaded_cluster [ping; pin; pi]) "pin 3" H)).
  reflexivity.
Defined.

(** The prefixes tried are the guild's override, unless it is the empty
    string, followed by the global prefixes. *)
Lemma get_prefixes_spec self message :
  (forall guild_ resolver,
      guild_id message = Some guild_ ->
      CommandClient.get_guild_prefix self = Some resolver ->
      resolver guild_ <> Some EmptyString) ->
  CommandClient._get_prefixes self (guild_id message)
  = guild_override self message
    ++ prefixes (CommandClient._client_options self).
Proof.
  unfold CommandClient._get_prefixes, guild_override. intros Hfilled.
  destruct (guild_id message) as [guild_|]; [|reflexivity].
  destruct (CommandClient.get_guild_prefix self) as [resolver|];
    [|reflexivity].
  specialize (Hfilled guild_ resolver eq_refl eq_refl).
  destruct (resolver guild_) as [guild_prefix|]; [|reflexivity].
  destruct guild_prefix; [congruence | reflexivity].
Qed.

Lemma get_prefixes_global self guild prefix :
  In prefix (prefixes (CommandClient._client_options self)) ->
  In prefix (CommandClient._get_prefixes self guild).
Proof.
  unfold CommandClient._get_prefixes. intros Hin.
  destruct guild as [guild_|]; [|exact Hin].
  destruct (CommandClient.get_guild_prefix self) as [resolver|];
    [|exact Hin].
  destruct (resolver guild_) as [guild_prefix|]; [|exact Hin].
  destruct (truthy guild_prefix); [right|]; exact Hin.
Qed.

Lemma first_prefix_find candidates_ content :
  CommandClient.first_prefix candidates_ content
  = List.find (fun prefix => startswith content prefix) candidates_.
Proof.
  induction candidates_ as [|prefix rest IH]; cbn; [reflexivity|].
  destruct (startswith content prefix); auto.
Qed.

(** C8, as claimed, fails: the resolver gives the guild the empty
    string as its prefix.  The claim tries that prefix first, and the
    empty string is a literal prefix of every content; the code leaves
    it out of the prefixes tried and answers with a global prefix, or
    with [None] where the claim finds the empty prefix. *)
Lemma check_prefix_drops_empty_guild_prefix :
  CommandClient.get_guild_prefix blank_guild_client <> None /\
  guild_id in_guild = Some 5%Z /\
  guild_override blank_guild_client in_guild = [EmptyString] /\
  resolvePrefix_spec blank_guild_client in_guild = Some EmptyString /\
  CommandClient._get_prefixes blank_guild_client (guild_id in_guild)
  = ["!"; "?"] /\
  CommandClient.check_prefix blank_guild_client in_guild = None /\
  CommandClient.check_prefix blank_guild_client in_guild
  <> resolvePrefix_spec blank_guild_client in_guild.
Proof. repeat split; discriminate. Qed.

(** C8, amended.  [check_prefix] returns the first of the prefixes tried
    that is a literal prefix of the message content, and [None] when
    none is.  The prefixes tried are the guild's prefix first, when the
    message is from a guild and the configured resolver resolves one
    that is not the empty string, and then the global prefixes, which
    are always among them; a resolved prefix that is the empty string
    is left out.  Where no empty prefix is resolved, this is the spec's
    [resolvePrefix]. *)
Theorem check_prefix_first_of_guild_then_global self message :
  let tried := CommandClient._get_prefixes self (guild_id message) in
  let test := fun prefix => startswith (message_content message) prefix in
  ((forall guild_ resolver,
       guild_id message = Some guild_ ->
       CommandClient.get_guild_prefix self = Some resolver ->
       resolver guild_ <> Some EmptyString) ->
   CommandClient.check_prefix self message
   = resolvePrefix_spec self message) /\
  (forall prefix,
      CommandClient.check_prefix self message = Some prefix <->
      first_such test tried prefix) /\
  (CommandClient.check_prefix self message = None <->
   forall prefix, In prefix tried -> test prefix = false) /\
  (forall prefix,
      In prefix (prefixes (CommandClient._client_options self)) ->
      In prefix tried) /\
  (forall guild_ resolver guild_prefix,
      guild_id message = Some guild_ ->
      CommandClient.get_guild_prefix self = Some resolver ->
      resolver guild_ = Some guild_prefix ->
      guild_prefix <> EmptyString ->
      tried = guild_prefix :: prefixes (CommandClient._client_options self))
  /\
  (forall guild_ resolver,
      guild_id message = Some guild_ ->
      CommandClient.get_guild_prefix self = Some resolver ->
      resolver guild_ = Some EmptyString \/ resolver guild_ = None ->
      tried = prefixes (CommandClient._client_options self)) /\
  (guild_id message = None \/ CommandClient.get_guild_prefix self = None ->
   tried = prefixes (CommandClient._client_options self)).
Proof.
  cbn. unfold CommandClient.check_prefix, resolvePrefix_spec.
  rewrite first_prefix_find.
  split; [intros Hfilled; rewrite get_prefixes_spec by exact Hfilled;
          reflexivity|].
  split; [intros prefix; apply find_first_such|].
  split; [apply find_none_all|].
  split; [intros prefix; apply get_prefixes_global|].
  split; [|split].
  - intros guild_ resolver guild_prefix Hg Hr Hp Hne.
    unfold CommandClient._get_prefixes. rewrite Hg, Hr, Hp.
    apply truthy_nonempty in Hne. rewrite Hne. reflexivity.
  - intros guild_ resolver Hg Hr Hp.
    unfold CommandClient._get_prefixes. rewrite Hg, Hr.
    destruct Hp as [-> | ->]; reflexivity.
  - unfold CommandClient._get_prefixes. intros [-> | ->]; [reflexivity|].
    destruct (guild_id message); reflexivity.
Qed.

Lemma check_prefix_first_of_guild_then_global_witness :
  (forall guild_ resolver,
      guild_id in_guild = Some guild_ ->
      CommandClient.get_guild_prefix guild_client = Some resolver ->
      resolver guild_ <> Some EmptyString) /\
  guild_id in_guild = Some 5%Z /\
  CommandClient.check_prefix guild_client in_guild = Some "$" /\
  CommandClient._get_prefixes guild_client (guild_id in_guild)
  = ["$"; "!"; "?"] /\
  CommandClient._get_prefixes blank_guild_client (guild_id in_guild)
  = prefixes (CommandClient._client_options blank_guild_client) /\
  CommandClient.check_prefix guild_client alice = Some "!".
Proof.
  assert (Hfilled : forall guild_ resolver,
             guild_id in_guild = Some guild_ ->
             CommandClient.get_guild_prefix guild_client = Some resolver ->
             resolver guild_ <> Some EmptyString).
  { intros guild_ resolver [= <-] [= <-]. discriminate. }
  split; [exact Hfilled|]. split; [reflexivity|].
  destruct (check_prefix_first_of_guild_then_global guild_client in_guild)
    as (Hspec & _ & _ & _ & Hguild & _ & _).
  destruct (check_prefix_first_of_guild_then_global blank_guild_client
              in_guild) as (_ & _ & _ & _ & _ & Hblank & _).
  split; [rewrite (Hspec Hfilled); reflexivity|].
  split; [|split; [|reflexivity]].
  - cbn in Hguild.
    exact (Hguild 5%Z _ "$" eq_refl eq_refl eq_refl ltac:(discriminate)).
  - cbn in Hblank.
    exact (Hblank 5%Z _ eq_refl eq_refl (or_introl eq_refl)).
Defined.

(** [bind_commands] refuses to run on a cluster that holds commands. *)
Lemma bind_commands_on_loaded self :
  CommandCluster.cluster_commands self <> [] ->
  CommandCluster.bind_commands self = Raise (raise_ ValueError).
Proof.
  unfold CommandCluster.bind_commands.
  destruct (CommandCluster.cluster_commands self); [congruence|reflexivity].
Qed.

Lemma bind_members_length cluster found loaded warnings :
  List.length (fst (CommandCluster.bind_members cluster found loaded
                      warnings))
  = List.length loaded + List.length found.
Proof.
  revert loaded warnings.
  induction found as [|[attr command_obj] rest IH]; intros loaded warnings;
    cbn.
  - lia.
  - rewrite IH, length_app. cbn. lia.
Qed.

Lemma insert_by_name_length x sorted :
  List.length (CommandCluster.insert_by_name x sorted)
  = S (List.length sorted).
Proof.
  induction sorted as [|y rest IH]; cbn; [reflexivity|].
  destruct (String.ltb _ _); cbn; congruence.
Qed.

Lemma sort_by_name_reverse_length l :
  List.length (CommandCluster.sort_by_name_reverse l) = List.length l.
Proof.
  unfold CommandCluster.sort_by_name_reverse.
  induction l as [|x rest IH]; cbn; [reflexivity|].
  rewrite insert_by_name_length. congruence.
Qed.

(** The first [bind_commands] loads one command per member. *)
Lemma bind_commands_loads_members self self' warnings :
  CommandCluster.bind_commands self = Ret (self', warnings) ->
  CommandCluster.cluster_commands self = [] /\
  List.length (CommandCluster.cluster_commands self')
  = List.length (CommandCluster.members self).
Proof.
  unfold CommandCluster.bind_commands.
  destruct (CommandCluster.cluster_commands self); [|discriminate].
  pose proof (bind_members_length (CommandCluster.class_name self)
                (CommandCluster.members self) [] []) as Hlen.
  destruct (CommandCluster.bind_members _ _ _ _) as [loaded logged].
  intros ?; simplify_eq. cbn in *.
  rewrite sort_by_name_reverse_length. auto.
Qed.

(** C6, as claimed, fails: a cluster without command members can be
    bound, and bound again, without an error. *)
Lemma bind_commands_twice_on_empty_cluster :
  CommandCluster.bind_commands empty_cluster = Ret (empty_cluster, []) /\
  CommandCluster.bind_commands empty_cluster <> Raise (raise_ ValueError).
Proof. split; [reflexivity | discriminate]. Qed.

(** [bind_commands] runs on a cluster that holds no command. *)
Lemma bind_commands_on_unloaded self :
  CommandCluster.cluster_commands self = [] ->
  exists self' warnings,
    CommandCluster.bind_commands self = Ret (self', warnings).
Proof.
  unfold CommandCluster.bind_commands. intros ->.
  destruct (CommandCluster.bind_members _ _ _ _) as [loaded logged].
  eauto.
Qed.

(** Unregistering the commands of a cluster one by one empties its
    command list and raises nothing. *)
Lemma unregister_all_own commands :
  forall self,
    CommandCluster.cluster_commands self = commands ->
    exists emptied,
      unregister_all self commands = Ret emptied /\
      CommandCluster.cluster_commands emptied = [] /\
      CommandCluster.members emptied = CommandCluster.members self.
Proof.
  induction commands as [|command_obj rest IH]; intros self Hself;
    cbn [unregister_all].
  - exists self. auto.
  - unfold CommandCluster.unregister_command. rewrite Hself.
    cbn [CommandCluster.remove_command]. rewrite Nat.eqb_refl.
    destruct (IH {| CommandCluster.class_name :=
                      CommandCluster.class_name self;
                    CommandCluster.members := CommandCluster.members self;
                    CommandCluster.cluster_commands := rest |} eq_refl)
      as (emptied & Hall & Hnil & Hmembers).
    exists emptied. auto.
Qed.

(** C6, amended.  What [bind_commands] tests is the command list, not
    whether it has run before: it fails with [ValueError] exactly when
    the cluster holds a command at the time of the call, and completes
    otherwise.  Hence, on the cluster as a completed first call left it,
    a second call fails when the cluster has a command member, and
    completes again when it has none; and once the loaded commands have
    been unregistered, it completes again as well. *)
Theorem second_bind_commands_fails self :
  (CommandCluster.bind_commands self = Raise (raise_ ValueError) <->
   CommandCluster.cluster_commands self <> []) /\
  (CommandCluster.cluster_commands self = [] ->
   exists self' warnings,
     CommandCluster.bind_commands self = Ret (self', warnings)) /\
  (forall self' warnings,
      CommandCluster.bind_commands self = Ret (self', warnings) ->
      (CommandCluster.members self <> [] ->
       CommandCluster.bind_commands self' = Raise (raise_ ValueError)) /\
      (CommandCluster.members self = [] ->
       exists again warnings',
         CommandCluster.bind_commands self' = Ret (again, warnings')) /\
      (exists emptied again warnings',
          unregister_all self' (CommandCluster.cluster_commands self')
          = Ret emptied /\
          CommandCluster.bind_commands emptied = Ret (again, warnings'))).
Proof.
  split; [|split].
  - split; [|apply bind_commands_on_loaded].
    intros Hfails Hnil.
    destruct (bind_commands_on_unloaded self Hnil) as (self' & w & Hok).
    congruence.
  - apply bind_commands_on_unloaded.
  - intros self' warnings Hbind.
    apply bind_commands_loads_members in Hbind as [_ Hlen].
    split; [|split].
    + intros Hmembers. apply bind_commands_on_loaded.
      destruct (CommandCluster.members self) as [|m ms]; [congruence|].
      intros Hnil. rewrite Hnil in Hlen. discriminate.
    + intros Hmembers. apply bind_commands_on_unloaded.
      rewrite Hmembers in Hlen.
      destruct (CommandCluster.cluster_commands self');
        [reflexivity | discriminate].
    + destruct (unregister_all_own
                  (CommandCluster.cluster_commands self') self' eq_refl)
        as (emptied & Hall & Hnil & _).
      destruct (bind_commands_on_unloaded emptied Hnil)
        as (again & warnings' & Hok).
      eauto.
Qed.

Lemma second_bind_commands_fails_witness :
  CommandCluster.members basic_cluster <> [] /\
  exists self' warnings,
    CommandCluster.bind_commands basic_cluster = Ret (self', warnings) /\
    map Command.name (CommandCluster.cluster_commands self')
    = ["ping"; "pin"; "pi"] /\
    CommandCluster.bind_commands self' = Raise (raise_ ValueError) /\
    exists emptied again warnings',
      unregister_all self' (CommandCluster.cluster_commands self')
      = Ret emptied /\
      CommandCluster.bind_commands emptied = Ret (again, warnings').
Proof.
  assert (Hmembers : CommandCluster.members basic_cluster <> [])
    by discriminate.
  split; [exact Hmembers|].
  destruct (CommandCluster.bind_commands basic_cluster)
    as [[self' warnings]|e] eqn:Hbind; [|discriminate].
  exists self', warnings. split; [reflexivity|].
  destruct (second_bind_commands_fails basic_cluster)
    as (_ & _ & Hsecond).
  destruct (Hsecond self' warnings Hbind) as (Hfails & _ & Hagain).
  split; [|split; [exact (Hfails Hmembers) | exact Hagain]].
  vm_compute in Hbind. injection Hbind as <- _. reflexivity.
Defined.

(** ** Dispatch of a message *)

Section Dispatch.

Variable self : CommandClient.t.
Variable message_ : Message.

Let flat (later : list CommandCluster.t) : list Command.t :=
  flat_map CommandCluster.cluster_commands later.

Ltac step_gen :=
  match goal with
  | |- context [Command.check ?c ?x] =>
      let ctx1 := fresh "ctx1" in
      destruct (Command.check c x) as [ctx1 [[|] | ?]] eqn:?
  end.

(** A generator over [l1 ++ l2] runs through [l1], then through [l2]. *)
Lemma get_command_from_context_app l1 l2 ctx :
  CommandCluster.get_command_from_context (l1 ++ l2) ctx
  = match CommandCluster.get_command_from_context l1 ctx with
    | (ctx', CommandCluster.Yield c rest) =>
        (ctx', CommandCluster.Yield c (rest ++ l2))
    | (ctx', CommandCluster.Throw e) => (ctx', CommandCluster.Throw e)
    | (ctx', CommandCluster.StopIteration) =>
        CommandCluster.get_command_from_context l2 ctx'
    end.
Proof.
  revert ctx. induction l1 as [|c rest IH]; intros ctx; cbn.
  - reflexivity.
  - step_gen; auto.
Qed.

(** What a generator yields is followed by fewer commands than it
    started with. *)
Lemma get_command_from_context_shorter l ctx ctx' c rest :
  CommandCluster.get_command_from_context l ctx
  = (ctx', CommandCluster.Yield c rest) ->
  List.length rest < List.length l.
Proof.
  revert ctx. induction l as [|c0 l IH]; intros ctx; cbn.
  - discriminate.
  - step_gen; intros H; simplify_eq; try lia.
    apply IH in H. lia.
Qed.

(** The generator of the client is the generator of one cluster that
    holds all commands in traversal order. *)
Lemma get_global_command_from_context_flat later remaining ctx :
  match CommandCluster.get_command_from_context (remaining ++ flat later)
          ctx,
        CommandClient.get_global_command_from_context later remaining ctx
  with
  | (c1, CommandCluster.Yield x rest),
    (c2, CommandCluster.Yield y (remaining', later')) =>
      c1 = c2 /\ x = y /\ rest = remaining' ++ flat later'
  | (c1, CommandCluster.StopIteration),
    (c2, CommandCluster.StopIteration) => c1 = c2
  | (c1, CommandCluster.Throw e1), (c2, CommandCluster.Throw e2) =>
      c1 = c2 /\ e1 = e2
  | _, _ => False
  end.
Proof.
  revert remaining ctx.
  induction later as [|cluster later IH]; intros remaining ctx; cbn;
    rewrite get_command_from_context_app;
    destruct (CommandCluster.get_command_from_context remaining ctx)
      as [ctx' [c rest | | e]]; cbn; auto.
  apply IH.
Qed.

(** One turn of the selection loop, in terms of the generator. *)
Lemma select_flat_step l ctx :
  select_flat self message_ l ctx
  = match CommandCluster.get_command_from_context l ctx with
    | (ctx', CommandCluster.Yield c rest) =>
        if CommandClient.access_check self c message_
        then (ctx', CommandClient.Break c)
        else select_flat self message_ rest ctx'
    | (ctx', CommandCluster.StopIteration) => (ctx', CommandClient.Else)
    | (ctx', CommandCluster.Throw e) => (ctx', CommandClient.Escaped e)
    end.
Proof.
  revert ctx. induction l as [|c rest IH]; intros ctx; cbn.
  - reflexivity.
  - step_gen; auto.
Qed.

(** With fuel above the number of commands left, the loop of
    [on_message_create] comes to an end, and it is the selection over
    the flat traversal. *)
Lemma select_command_flat fuel later remaining ctx :
  List.length (remaining ++ flat later) < fuel ->
  CommandClient.select_command fuel self message_ (remaining, later) ctx
  = Some (select_flat self message_ (remaining ++ flat later) ctx).
Proof.
  revert later remaining ctx.
  induction fuel as [|fuel IH]; intros later remaining ctx Hfuel; [lia|].
  cbn [CommandClient.select_command fst snd].
  rewrite select_flat_step.
  pose proof (get_global_command_from_context_flat later remaining ctx)
    as Hgen.
  destruct (CommandCluster.get_command_from_context
              (remaining ++ flat later) ctx)
    as [c1 [x rest | | e1]] eqn:Hflat;
    destruct (CommandClient.get_global_command_from_context
                later remaining ctx)
      as [c2 [y [remaining' later'] | | e2]];
    try contradiction.
  - destruct Hgen as (<- & <- & ->).
    destruct (CommandClient.access_check self x message_); [reflexivity|].
    apply IH. apply get_command_from_context_shorter in Hflat. lia.
  - subst. reflexivity.
  - destruct Hgen as [<- <-]. reflexivity.
Qed.

Lemma traversal_flat :
  CommandClient.traversal self
  = CommandCluster.cluster_commands (CommandClient.self_cluster self)
    ++ flat (map snd (CommandClient.clusters self)).
Proof.
  unfold CommandClient.traversal, flat. f_equal.
  induction (CommandClient.clusters self) as [|c rest IH]; cbn;
    congruence.
Qed.

(** [on_message_create] always comes to an end, and this is what it
    comes to. *)
Lemma on_message_create_flat :
  CommandClient.on_message_create self message_
  = Some
      match initial_context self message_ with
      | None => CommandClient.NoPrefix
      | Some ctx =>
          match select_flat self message_ (CommandClient.traversal self)
                  ctx with
          | (_, CommandClient.Escaped e) => CommandClient.Raises e
          | (_, CommandClient.Else) => CommandClient.NoCommand
          | (ctx', CommandClient.Break command_obj) =>
              match Context.triggering_name ctx' with
              | None => CommandClient.Raises (raise_ AttributeError)
              | Some triggering_name_ =>
                  CommandClient.Execute command_obj
                    (Context.prune_content ctx'
                       (Z.of_nat (String.length triggering_name_) + 1))
              end
          end
      end.
Proof.
  unfold CommandClient.on_message_create, initial_context.
  destruct (CommandClient.check_prefix self message_) as [prefix|];
    [|reflexivity].
  destruct (truthy prefix); cbn [negb]; [|reflexivity].
  rewrite select_command_flat by (rewrite <- traversal_flat; lia).
  rewrite <- traversal_flat.
  destruct (select_flat _ _ _ _) as [ctx' [c | | e]]; try reflexivity.
  destruct (Context.triggering_name ctx'); reflexivity.
Qed.

(** The selection breaks at the first candidate that passes the access
    check, and only there. *)
Lemma select_flat_break l ctx command_obj :
  (exists ctx', select_flat self message_ l ctx
                = (ctx', CommandClient.Break command_obj)) <->
  first_such (fun c => CommandClient.access_check self c message_)
             (fst (passing l ctx)) command_obj.
Proof.
  rewrite <- find_first_such.
  revert ctx. induction l as [|c rest IH]; intros ctx; cbn.
  - split; [intros [ctx' H]|]; discriminate.
  - step_gen; cbn.
    + specialize (IH ctx1).
      destruct (passing rest ctx1) as [found escaped]; cbn in *.
      destruct (CommandClient.access_check self c message_); [|exact IH].
      split.
      * intros [ctx' H]. simplify_eq. reflexivity.
      * intros H. simplify_eq. eauto.
    + apply IH.
    + split; [intros [ctx' H]|]; discriminate.
Qed.

(** When the traversal runs to its end and no candidate passes the
    access check, the selection ends in the [else] branch. *)
Lemma select_flat_else l ctx :
  snd (passing l ctx) = None ->
  (forall c, In c (fst (passing l ctx)) ->
             CommandClient.access_check self c message_ = false) ->
  exists ctx', select_flat self message_ l ctx = (ctx', CommandClient.Else).
Proof.
  revert ctx. induction l as [|c rest IH]; intros ctx; cbn.
  - eauto.
  - step_gen; cbn.
    + specialize (IH ctx1).
      destruct (passing rest ctx1) as [found escaped]; cbn in *.
      intros Hesc Hacc. rewrite (Hacc c) by (left; reflexivity).
      apply IH; [assumption|]. intros c' Hc'. apply Hacc. right. assumption.
    + apply IH.
    + discriminate.
Qed.

End Dispatch.

(** C4.  [access_check] is true exactly when the access level configured
    for the author, 0 when the author has no entry, is at least the
    level of the command.  [on_message_create] always comes to an end;
    the command it executes, if any, is the first candidate in traversal
    order that passes [access_check] (and that candidate is what it
    goes on with); and when the traversal runs to its end with
    candidates found but none of them passing, it executes nothing and
    raises nothing. *)
Theorem on_message_create_runs_first_accessible self message_ :
  let accessible :=
    fun c => CommandClient.access_check self c message_ in
  (forall command_obj,
      accessible command_obj = true <->
      (Command.level command_obj
       <= match access_levels (CommandClient._client_options self)
                !! author_id message_ with
          | Some configured => configured
          | None => 0
          end)%Z) /\
  (exists result, CommandClient.on_message_create self message_
                  = Some result) /\
  (forall command_obj ctx,
      CommandClient.on_message_create self message_
      = Some (CommandClient.Execute command_obj ctx) ->
      first_such accessible (fst (candidates self message_)) command_obj)
  /\
  (forall command_obj,
      first_such accessible (fst (candidates self message_)) command_obj ->
      (exists ctx, CommandClient.on_message_create self message_
                   = Some (CommandClient.Execute command_obj ctx)) \/
      CommandClient.on_message_create self message_
      = Some (CommandClient.Raises (raise_ AttributeError))) /\
  (snd (candidates self message_) = None ->
   fst (candidates self message_) <> [] ->
   (forall c, In c (fst (candidates self message_)) ->
              accessible c = false) ->
   CommandClient.on_message_create self message_
   = Some CommandClient.NoCommand).
Proof.
  cbn zeta. rewrite on_message_create_flat. unfold candidates.
  split; [|split; [eauto|]].
  { intros command_obj. unfold CommandClient.access_check.
    rewrite Z.geb_le.
    destruct (access_levels _ !! author_id message_); reflexivity. }
  destruct (initial_context self message_) as [ctx|]; cbn.
  - split; [|split].
    + intros command_obj ctx2 H. apply select_flat_break.
      destruct (select_flat _ _ _ _) as [ctx' [c | | e]]; try discriminate.
      destruct (Context.triggering_name ctx'); simplify_eq. eauto.
    + intros command_obj H. apply select_flat_break in H as [ctx' ->].
      destruct (Context.triggering_name ctx'); eauto.
    + intros Hesc _ Hacc.
      destruct (select_flat_else self message_ _ _ Hesc Hacc) as [ctx' ->].
      reflexivity.
  - split; [discriminate|]. split; [|congruence].
    intros command_obj (before & after & H & _).
    destruct before; discriminate.
Qed.

Lemma on_message_create_runs_first_accessible_witness :
  candidates (client [pin; pi]) alice = ([pin; pi], None) /\
  CommandClient.access_check (client [pin; pi]) pin alice = false /\
  CommandClient.access_check (client [pin; pi]) pi alice = true /\
  (exists ctx, CommandClient.on_message_create (client [pin; pi]) alice
               = Some (CommandClient.Execute pi ctx)) /\
  snd (candidates (client [pin]) alice) = None /\
  fst (candidates (client [pin]) alice) <> [] /\
  (forall c, In c (fst (candidates (client [pin]) alice)) ->
             CommandClient.access_check (client [pin]) c alice = false) /\
  CommandClient.on_message_create (client [pin]) alice
  = Some CommandClient.NoCommand.
Proof.
  split; [reflexivity|]. split; [reflexivity|]. split; [reflexivity|].
  split; [eexists; reflexivity|].
  assert (Hacc : forall c, In c (fst (candidates (client [pin]) alice)) ->
                   CommandClient.access_check (client [pin]) c alice
                   = false).
  { intros c [<- | []]. reflexivity. }
  split; [reflexivity|]. split; [discriminate|]. split; [exact Hacc|].
  destruct (on_message_create_runs_first_accessible (client [pin]) alice)
    as (_ & _ & _ & _ & Hdrop).
  apply Hdrop; [reflexivity | discriminate | exact Hacc].
Defined.

(** ** The error manager inside the retry loop *)

Lemma issubclass_refl t : issubclass t t = true.
Proof. destruct t; reflexivity. Qed.

Lemma issubclass_any_member t rule :
  In t rule -> issubclass_any t rule = true.
Proof.
  intros Hin. unfold issubclass_any. apply existsb_exists.
  exists t. split; [assumption | apply issubclass_refl].
Qed.

(** Rate-limit errors and server errors are different branches of the
    hierarchy. *)
Lemma rate_limited_is_no_server_error e :
  isinstance e RateLimitedError = true ->
  isinstance e InternalServerError = false.
Proof.
  unfold isinstance. destruct (exc_class e); vm_compute; congruence.
Qed.

Lemma retry_after_too_long (x : Q) :
  (10 < x)%Q -> negb (Qle_bool x 10) = true.
Proof.
  intros Hlt. destruct (Qle_bool x 10) eqn:Hle; [|reflexivity].
  apply Qle_bool_iff in Hle. apply Qlt_not_le in Hlt. contradiction.
Qed.

Lemma retry_after_short (x : Q) :
  (x <= 10)%Q -> negb (Qle_bool x 10) = false.
Proof. intros Hle. apply Qle_bool_iff in Hle. rewrite Hle. reflexivity. Qed.

Section Rules.

Variable break_on : list exc_type.

Let rs : ErrorManager.rules := HikariErrorManager.clear_rules break_on.

(** The rule for server errors comes first: the failure is suppressed
    and the iterator is left as it is. *)
Lemma exit_internal_server_error e handler :
  isinstance e InternalServerError = true ->
  ErrorManager.exit_ rs e handler = (true, handler).
Proof.
  unfold isinstance. intros He. subst rs.
  unfold HikariErrorManager.clear_rules, ErrorManager.with_rule,
    ErrorManager.clear_rules.
  destruct break_on; cbn; rewrite He; reflexivity.
Qed.

(** The rule for rate limits comes second. *)
Lemma exit_rate_limited_error e handler :
  isinstance e RateLimitedError = true ->
  ErrorManager.exit_ rs e handler
  = if negb (Qle_bool (retry_after e) 10) then (false, handler)
    else (true, Backoff.set_next_backoff handler (retry_after e)).
Proof.
  intros He. pose proof (rate_limited_is_no_server_error e He) as Hno.
  unfold isinstance in *. subst rs.
  unfold HikariErrorManager.clear_rules, ErrorManager.with_rule,
    ErrorManager.clear_rules, HikariErrorManager._on_rate_limited_error.
  destruct break_on; cbn; rewrite Hno, He; cbn;
    destruct (negb (Qle_bool (retry_after e) 10)); reflexivity.
Qed.

(** The [break_on] rule comes last: it decides for what the first two
    rules let pass. *)
Lemma exit_break_on e handler :
  isinstance e InternalServerError = false ->
  isinstance e RateLimitedError = false ->
  issubclass_any (exc_class e) break_on = true ->
  ErrorManager.exit_ rs e handler = (true, Backoff.finish handler).
Proof.
  unfold isinstance. intros H5 Hr Hb. subst rs.
  unfold HikariErrorManager.clear_rules, ErrorManager.with_rule,
    ErrorManager.clear_rules.
  destruct break_on as [|t ts] eqn:Hbo; [discriminate|].
  cbn [app ErrorManager.exit_ issubclass_any existsb].
  rewrite H5, Hr. cbn [orb].
  change (issubclass (exc_class e) t || existsb (issubclass (exc_class e)) ts)
    with (issubclass_any (exc_class e) (t :: ts)).
  rewrite Hb. reflexivity.
Qed.

End Rules.

Section Loop.

Variable rs : ErrorManager.rules.

(** An exception that leaves the loop is one that [__exit__] did not
    suppress. *)
Lemma respond_loop_propagated answers handler events e handler' :
  HikariErrorManager.respond_loop rs answers handler
  = (events, HikariErrorManager.Propagated e, handler') ->
  exists h, fst (ErrorManager.exit_ rs e h) = false.
Proof.
  revert handler events handler'.
  induction answers as [|[e0|] rest IH]; intros handler events handler';
    cbn; destruct (Backoff.anext handler) as [[slept handler1]|];
    try discriminate.
  - destruct (ErrorManager.exit_ rs e0 handler1) as [[|] handler2] eqn:Hexit.
    + destruct (HikariErrorManager.respond_loop rs rest handler2)
        as [[events2 end2] handler3] eqn:Hloop.
      intros ?; simplify_eq. eapply IH. eassumption.
    + intros ?; simplify_eq. exists handler1. rewrite Hexit. reflexivity.
Qed.

(** Whatever the rules are: a failure that [__exit__] suppresses is
    followed by a further attempt as soon as the iterator hands out its
    next permit.  Only an iterator that has been finished, or is used
    up, keeps a suppressed failure from being retried. *)
Lemma suppressed_failure_is_followed_by_an_attempt
    e a more handler slept1 handler1 handler2 slept2 handler3 :
  Backoff.anext handler = Some (slept1, handler1) ->
  ErrorManager.exit_ rs e handler1 = (true, handler2) ->
  Backoff.anext handler2 = Some (slept2, handler3) ->
  exists before between events,
    fst (fst (HikariErrorManager.respond_loop rs (Some e :: a :: more)
                handler))
    = before ++ HikariErrorManager.Respond (Some e)
        :: between ++ HikariErrorManager.Respond a :: events.
Proof.
  intros H1 Hexit H2. cbn. rewrite H1, Hexit, H2.
  destruct a as [e2|].
  - destruct (ErrorManager.exit_ rs e2 handler3) as [[|] handler4].
    + destruct (HikariErrorManager.respond_loop rs more handler4)
        as [[events end_] handler5].
      cbn. eexists _, _, _. reflexivity.
    + cbn. eexists _, _, []. reflexivity.
  - cbn. eexists _, _, []. reflexivity.
Qed.

End Loop.

(** After [reset], an iterator that allows a permit gives the first one
    at once. *)
Lemma anext_after_reset handler :
  allows handler 1 ->
  Backoff.anext (Backoff.reset handler)
  = Some (None,
          {| Backoff.max_retries := Backoff.max_retries handler;
             Backoff.schedule := Backoff.schedule handler;
             Backoff.retries := 1; Backoff.finished := false;
             Backoff.next_backoff := None |}).
Proof.
  unfold allows, Backoff.anext, Backoff.is_depleted. cbn.
  destruct (Backoff.max_retries handler) as [n|]; [|reflexivity].
  intros Hn. destruct (Nat.leb_spec n 0); [lia | reflexivity].
Qed.

(** The second permit follows a sleep: the overriding delay if one has
    been set, the scheduled one otherwise. *)
Lemma anext_second max_retries_ schedule_ next :
  match max_retries_ with Some m => 2 <= m | None => True end ->
  Backoff.anext
    {| Backoff.max_retries := max_retries_; Backoff.schedule := schedule_;
       Backoff.retries := 1; Backoff.finished := false;
       Backoff.next_backoff := next |}
  = Some (Some (match next with Some d => d | None => schedule_ 1 end),
          {| Backoff.max_retries := max_retries_;
             Backoff.schedule := schedule_;
             Backoff.retries := 2; Backoff.finished := false;
             Backoff.next_backoff := None |}).
Proof.
  unfold Backoff.anext, Backoff.is_depleted. cbn.
  destruct max_retries_ as [n|]; [|reflexivity].
  intros Hn. destruct (Nat.leb_spec n 1); [lia | reflexivity].
Qed.

(** Whatever the rules are, and however the answer of a callback is
    read: when handling the failure leaves the iterator untouched, the
    first failure of a fresh run either propagates or is followed by a
    second attempt (the iterator allowing one).  To suppress a failure
    and stop, a rule has to finish the iterator, as [_on_break_on]
    does. *)
Lemma raise_or_retry rs e a more handler :
  allows handler 2 ->
  (forall h, snd (ErrorManager.exit_ rs e h) = h) ->
  fst (HikariErrorManager.respond_loop rs (Some e :: a :: more)
         (Backoff.reset handler))
  = ([HikariErrorManager.Respond (Some e)], HikariErrorManager.Propagated e)
  \/
  exists events,
    fst (fst (HikariErrorManager.respond_loop rs (Some e :: a :: more)
                (Backoff.reset handler)))
    = HikariErrorManager.Respond (Some e)
      :: HikariErrorManager.Sleep (Backoff.schedule handler 1)
      :: HikariErrorManager.Respond a :: events.
Proof.
  intros Htwo Hsame.
  assert (Hone : allows handler 1).
  { unfold allows in *. destruct (Backoff.max_retries handler); [lia|auto]. }
  cbn [HikariErrorManager.respond_loop].
  rewrite anext_after_reset by assumption.
  match goal with
  | |- context [ErrorManager.exit_ rs e ?h1] =>
      specialize (Hsame h1);
      destruct (ErrorManager.exit_ rs e h1) as [[|] handler2]
  end; cbn in Hsame; subst handler2; [right | left; reflexivity].
  rewrite anext_second by exact Htwo.
  destruct a as [e2|].
  - destruct (ErrorManager.exit_ rs e2 _) as [[|] handler3].
    + destruct (HikariErrorManager.respond_loop rs more handler3)
        as [[events end_] handler4].
      cbn. eauto.
    + cbn. eauto.
  - cbn. eauto.
Qed.

Section TryRespond.

Variable self : HikariErrorManager.t.
Variable break_on : list exc_type.
Hypothesis rules_of_self :
  HikariErrorManager._rules self = HikariErrorManager.clear_rules break_on.

Let handler : Backoff.t := HikariErrorManager._backoff_handler self.

(** The first attempt of [try_respond] fails with [e] and [__exit__]
    suppresses it: the loop goes on from the iterator the rule left. *)
Lemma try_respond_suppressed e answers handler2 :
  allows handler 1 ->
  (forall h, ErrorManager.exit_ (HikariErrorManager._rules self) e h
             = (true, handler2 h)) ->
  HikariErrorManager.try_respond self (Some e :: answers)
  = let '(events, end_, handler3) :=
      HikariErrorManager.respond_loop (HikariErrorManager._rules self)
        answers
        (handler2
           {| Backoff.max_retries := Backoff.max_retries handler;
              Backoff.schedule := Backoff.schedule handler;
              Backoff.retries := 1; Backoff.finished := false;
              Backoff.next_backoff := None |}) in
    (HikariErrorManager.Respond (Some e) :: events, end_, handler3).
Proof.
  intros Hallow Hexit. unfold HikariErrorManager.try_respond.
  cbn [HikariErrorManager.respond_loop].
  subst handler. rewrite anext_after_reset by assumption.
  rewrite Hexit. reflexivity.
Qed.

End TryRespond.

(** *** Whatever order the rules are tried in

    The order in which [__exit__] tries the rules belongs to the library.
    The spec has them tried in registration order; the statements below
    hold for every order of the rules [clear_rules] registers. *)

Lemma server_error_is_no_rate_limit e :
  isinstance e InternalServerError = true ->
  isinstance e RateLimitedError = false.
Proof.
  unfold isinstance. destruct (exc_class e); vm_compute; congruence.
Qed.

Lemma issubclass_any_single t u :
  issubclass_any t [u] = issubclass t u.
Proof. unfold issubclass_any. cbn [existsb]. apply orb_false_r. Qed.

(** [__exit__] is decided by the first rule that matches, and by none
    when no rule matches. *)
Lemma exit_decided rs e :
  (exists rule result,
      In (rule, result) rs /\
      issubclass_any (exc_class e) rule = true /\
      forall h, ErrorManager.exit_ rs e h
                = (negb (fst (result e h)), snd (result e h)))
  \/
  ((forall rule result,
       In (rule, result) rs ->
       issubclass_any (exc_class e) rule = false) /\
   forall h, ErrorManager.exit_ rs e h = (false, h)).
Proof.
  induction rs as [|[rule result] rest IH]; cbn [ErrorManager.exit_].
  - right. split; [intros ? ? [] | reflexivity].
  - destruct (issubclass_any (exc_class e) rule) eqn:Hrule.
    + left. exists rule, result.
      split; [left; reflexivity|]. split; [exact Hrule|].
      intros h. destruct (result e h). reflexivity.
    + destruct IH as [(rule' & result' & Hin & Hmatch & Hexit)
                     | [Hnone Hexit]].
      * left. exists rule', result'.
        split; [right; exact Hin|]. split; [exact Hmatch | exact Hexit].
      * right. split; [|exact Hexit].
        intros r res [Heq | Hin];
          [injection Heq as <- <-; exact Hrule | eapply Hnone; exact Hin].
Qed.

(** The rules [clear_rules] registers. *)
Lemma clear_rules_members break_on rule result :
  In (rule, result) (HikariErrorManager.clear_rules break_on) ->
  (rule = [InternalServerError] /\
   result = HikariErrorManager._on_internal_server_error) \/
  (rule = [RateLimitedError] /\
   result = HikariErrorManager._on_rate_limited_error) \/
  (rule = break_on /\ result = HikariErrorManager._on_break_on).
Proof.
  unfold HikariErrorManager.clear_rules, ErrorManager.with_rule,
    ErrorManager.clear_rules.
  destruct break_on as [|t ts]; cbn [app In]; intros Hin;
    repeat (destruct Hin as [Hin | Hin];
            [injection Hin as <- <-;
             first [ left; split; reflexivity
                   | right; left; split; reflexivity
                   | right; right; split; reflexivity ]|]);
    destruct Hin.
Qed.

Lemma clear_rules_has_own_rules break_on :
  In ([InternalServerError], HikariErrorManager._on_internal_server_error)
     (HikariErrorManager.clear_rules break_on) /\
  In ([RateLimitedError], HikariErrorManager._on_rate_limited_error)
     (HikariErrorManager.clear_rules break_on) /\
  (break_on <> [] ->
   In (break_on, HikariErrorManager._on_break_on)
      (HikariErrorManager.clear_rules break_on)).
Proof.
  unfold HikariErrorManager.clear_rules, ErrorManager.with_rule,
    ErrorManager.clear_rules.
  destruct break_on as [|t ts]; cbn [app In]; intuition congruence.
Qed.

Section AnyOrder.

Variable rs : ErrorManager.rules.
Variable break_on : list exc_type.
Hypothesis any_order :
  Permutation rs (HikariErrorManager.clear_rules break_on).

Let registered rule result (Hin : In (rule, result) rs) :=
  clear_rules_members break_on rule result
    (Permutation_in _ any_order Hin).

Let tried rule result
    (Hin : In (rule, result) (HikariErrorManager.clear_rules break_on)) :=
  Permutation_in _ (Permutation_sym any_order) Hin.

(** A server error that [break_on] does not cover is suppressed and the
    iterator is left as it is. *)
Lemma exit_server_error_any_order e :
  issubclass_any (exc_class e) break_on = false ->
  isinstance e InternalServerError = true ->
  forall h, ErrorManager.exit_ rs e h = (true, h).
Proof.
  intros Hout He h.
  destruct (exit_decided rs e)
    as [(rule & result & Hin & Hmatch & Hexit) | [Hnone _]].
  - rewrite Hexit.
    destruct (registered rule result Hin)
      as [[-> ->] | [[-> ->] | [-> ->]]].
    + reflexivity.
    + rewrite issubclass_any_single in Hmatch.
      apply server_error_is_no_rate_limit in He.
      unfold isinstance in He. congruence.
    + congruence.
  - pose proof (Hnone _ _
                  (tried _ _ (proj1 (clear_rules_has_own_rules break_on))))
      as Hno.
    rewrite issubclass_any_single in Hno. unfold isinstance in He.
    congruence.
Qed.

(** A rate-limit error that [break_on] does not cover is decided by its
    hint. *)
Lemma exit_rate_limited_any_order e :
  issubclass_any (exc_class e) break_on = false ->
  isinstance e RateLimitedError = true ->
  forall h,
    ErrorManager.exit_ rs e h
    = if negb (Qle_bool (retry_after e) 10) then (false, h)
      else (true, Backoff.set_next_backoff h (retry_after e)).
Proof.
  intros Hout He h.
  destruct (exit_decided rs e)
    as [(rule & result & Hin & Hmatch & Hexit) | [Hnone _]].
  - rewrite Hexit.
    destruct (registered rule result Hin)
      as [[-> ->] | [[-> ->] | [-> ->]]].
    + rewrite issubclass_any_single in Hmatch.
      apply rate_limited_is_no_server_error in He.
      unfold isinstance in He. congruence.
    + unfold HikariErrorManager._on_rate_limited_error.
      destruct (negb (Qle_bool (retry_after e) 10)); reflexivity.
    + congruence.
  - pose proof (Hnone _ _
                  (tried _ _ (proj1 (proj2 (clear_rules_has_own_rules
                                              break_on))))) as Hno.
    rewrite issubclass_any_single in Hno. unfold isinstance in He.
    congruence.
Qed.


(** A server error that [break_on] covers as well matches two rules:
    the one tried first decides. *)
Lemma exit_listed_server_error e :
  isinstance e InternalServerError = true ->
  (forall h, ErrorManager.exit_ rs e h = (true, Backoff.finish h)) \/
  (forall h, ErrorManager.exit_ rs e h = (true, h)).
Proof.
  intros He.
  destruct (exit_decided rs e)
    as [(rule & result & Hin & Hmatch & Hexit) | [Hnone _]].
  - destruct (registered rule result Hin)
      as [[-> ->] | [[-> ->] | [-> ->]]].
    + right. intros h. rewrite Hexit. reflexivity.
    + rewrite issubclass_any_single in Hmatch.
      apply server_error_is_no_rate_limit in He.
      unfold isinstance in He. congruence.
    + left. intros h. rewrite Hexit. reflexivity.
  - pose proof (Hnone _ _
                  (tried _ _ (proj1 (clear_rules_has_own_rules break_on))))
      as Hno.
    rewrite issubclass_any_single in Hno. unfold isinstance in He.
    congruence.
Qed.

(** A retryable failure that [break_on] does not cover is suppressed,
    and the iterator stays unfinished with its count of permits. *)
Lemma exit_retryable_any_order e h :
  uncontested break_on ->
  retryable e = true ->
  exists h',
    ErrorManager.exit_ rs e h = (true, h') /\
    Backoff.finished h' = Backoff.finished h /\
    Backoff.max_retries h' = Backoff.max_retries h /\
    Backoff.schedule h' = Backoff.schedule h /\
    Backoff.retries h' = Backoff.retries h.
Proof.
  unfold retryable. intros Hun Hretry.
  destruct (isinstance e InternalServerError) eqn:H5.
  { rewrite exit_server_error_any_order;
      [eauto 6 | apply Hun; left; exact H5 | exact H5]. }
  cbn [orb] in Hretry. apply andb_true_iff in Hretry as [Hr Hshort].
  rewrite exit_rate_limited_any_order;
    [| apply Hun; right; exact Hr | exact Hr].
  rewrite Hshort. cbn [negb]. eexists. split; [reflexivity|]. cbn. auto.
Qed.

End AnyOrder.

(** *** The loop after any number of retried failures *)

(** An unfinished iterator with permits left gives the next one: at
    once when it is the first, after a sleep otherwise. *)
Lemma anext_gives handler :
  Backoff.finished handler = false ->
  match Backoff.max_retries handler with
  | Some m => Backoff.retries handler < m
  | None => True
  end ->
  exists slept handler1,
    Backoff.anext handler = Some (slept, handler1) /\
    slept = match Backoff.retries handler with
            | O => None
            | S _ => Some match Backoff.next_backoff handler with
                          | Some d => d
                          | None => Backoff.schedule handler
                                      (Backoff.retries handler)
                          end
            end /\
    Backoff.finished handler1 = false /\
    Backoff.max_retries handler1 = Backoff.max_retries handler /\
    Backoff.schedule handler1 = Backoff.schedule handler /\
    Backoff.retries handler1 = S (Backoff.retries handler) /\
    (Backoff.next_backoff handler = None \/ Backoff.retries handler <> 0 ->
     Backoff.next_backoff handler1 = None).
Proof.
  intros Hf Hleft. unfold Backoff.anext, Backoff.is_depleted.
  rewrite Hf. cbn [orb].
  destruct (Backoff.max_retries handler) as [m|] eqn:Hmax.
  - destruct (Nat.leb_spec m (Backoff.retries handler)); [lia|].
    destruct (Backoff.retries handler) as [|k] eqn:Hk; eexists _, _;
      (split; [reflexivity|]); cbn; repeat split; auto.
    intros [Hnone | Hne]; [exact Hnone | congruence].
  - destruct (Backoff.retries handler) as [|k] eqn:Hk; eexists _, _;
      (split; [reflexivity|]); cbn; repeat split; auto.
    intros [Hnone | Hne]; [exact Hnone | congruence].
Qed.

(** An iterator that has given all its permits ends the loop. *)
Lemma respond_loop_depleted rs answers handler m :
  Backoff.max_retries handler = Some m ->
  m <= Backoff.retries handler ->
  HikariErrorManager.respond_loop rs answers handler
  = ([], HikariErrorManager.GaveUp, handler).
Proof.
  intros Hmax Hused.
  assert (Hnext : Backoff.anext handler = None).
  { unfold Backoff.anext, Backoff.is_depleted. rewrite Hmax.
    destruct (Nat.leb_spec m (Backoff.retries handler)); [|lia].
    rewrite orb_true_r. reflexivity. }
  destruct answers as [|a more]; cbn [HikariErrorManager.respond_loop];
    rewrite Hnext; reflexivity.
Qed.

(** A finished iterator ends the loop. *)
Lemma respond_loop_finished rs answers handler :
  Backoff.finished handler = true ->
  HikariErrorManager.respond_loop rs answers handler
  = ([], HikariErrorManager.GaveUp, handler).
Proof.
  intros Hf.
  assert (Hnext : Backoff.anext handler = None).
  { unfold Backoff.anext. rewrite Hf. reflexivity. }
  destruct answers as [|a more]; cbn [HikariErrorManager.respond_loop];
    rewrite Hnext; reflexivity.
Qed.

(** After a failure that was suppressed without finishing the iterator,
    the next attempt follows a sleep: of the delay a rule has set, or
    of the scheduled one. *)
Lemma respond_loop_next_attempt rs handler a more :
  Backoff.finished handler = false ->
  Backoff.retries handler <> 0 ->
  match Backoff.max_retries handler with
  | Some m => Backoff.retries handler < m
  | None => True
  end ->
  exists events end_ handler',
    HikariErrorManager.respond_loop rs (a :: more) handler
    = (HikariErrorManager.Sleep
         match Backoff.next_backoff handler with
         | Some d => d
         | None => Backoff.schedule handler (Backoff.retries handler)
         end
       :: HikariErrorManager.Respond a :: events, end_, handler') /\
    (a = None -> events = [] /\ end_ = HikariErrorManager.Responded).
Proof.
  intros Hf Hk Hleft.
  destruct (anext_gives handler Hf Hleft)
    as (slept & handler1 & Hnext & -> & _).
  cbn [HikariErrorManager.respond_loop]. rewrite Hnext.
  destruct (Backoff.retries handler) as [|k]; [congruence|].
  destruct a as [e|].
  - destruct (ErrorManager.exit_ rs e handler1) as [[|] handler2].
    + destruct (HikariErrorManager.respond_loop rs more handler2)
        as [[events end_] handler3].
      cbn. eexists _, _, _. split; [reflexivity | discriminate].
    + cbn. eexists _, _, _. split; [reflexivity | discriminate].
  - cbn. eexists _, _, _. split; [reflexivity | auto].
Qed.

Section RetriedPrefix.

Variable rs : ErrorManager.rules.
Hypothesis retried :
  forall failure h,
    retryable failure = true ->
    exists h',
      ErrorManager.exit_ rs failure h = (true, h') /\
      Backoff.finished h' = Backoff.finished h /\
      Backoff.max_retries h' = Backoff.max_retries h /\
      Backoff.schedule h' = Backoff.schedule h /\
      Backoff.retries h' = Backoff.retries h.

(** The loop over a run of retryable failures, the iterator having
    permits for them and for one attempt more: [earlier] is what has
    happened when that attempt is due, and [handler1] the iterator that
    has just given the permit for it.  What follows is decided by the
    attempt. *)
Lemma respond_loop_retried before :
  Forall (fun failure => retryable failure = true) before ->
  forall handler,
    Backoff.finished handler = false ->
    (Backoff.next_backoff handler = None \/ Backoff.retries handler <> 0) ->
    match Backoff.max_retries handler with
    | Some m => Backoff.retries handler + List.length before < m
    | None => True
    end ->
    exists earlier handler1,
      (Backoff.finished handler1 = false /\
       Backoff.max_retries handler1 = Backoff.max_retries handler /\
       Backoff.schedule handler1 = Backoff.schedule handler /\
       Backoff.retries handler1
       = S (Backoff.retries handler + List.length before) /\
       Backoff.next_backoff handler1 = None) /\
      HikariErrorManager.respond_loop rs (map Some before) handler
      = (earlier, HikariErrorManager.Unanswered, handler1) /\
      (forall more,
          HikariErrorManager.respond_loop rs
            (map Some before ++ None :: more) handler
          = (earlier ++ [HikariErrorManager.Respond None],
             HikariErrorManager.Responded, handler1)) /\
      (forall e more,
          HikariErrorManager.respond_loop rs
            (map Some before ++ Some e :: more) handler
          = let '(suppressed, handler2) :=
              ErrorManager.exit_ rs e handler1 in
            if suppressed then
              let '(events, end_, handler3) :=
                HikariErrorManager.respond_loop rs more handler2 in
              (earlier ++ HikariErrorManager.Respond (Some e) :: events,
               end_, handler3)
            else (earlier ++ [HikariErrorManager.Respond (Some e)],
                  HikariErrorManager.Propagated e, handler2)).
Proof.
  induction 1 as [|failure before Hfailure _ IH];
    intros handler Hf Hfresh Hleft; cbn [List.length] in Hleft.
  - assert (Hleft' : match Backoff.max_retries handler with
                     | Some m => Backoff.retries handler < m
                     | None => True
                     end).
    { destruct (Backoff.max_retries handler); [lia | exact I]. }
    destruct (anext_gives handler Hf Hleft')
      as (slept & handler1 & Hnext & _ & Hf1 & Hm1 & Hs1 & Hk1 & Hn1).
    exists (match slept with
            | Some d => [HikariErrorManager.Sleep d]
            | None => []
            end), handler1.
    split.
    { repeat split; auto. rewrite Hk1. cbn. lia. }
    cbn [map app HikariErrorManager.respond_loop]. rewrite Hnext.
    repeat split.
  - assert (Hleft' : match Backoff.max_retries handler with
                     | Some m => Backoff.retries handler < m
                     | None => True
                     end).
    { destruct (Backoff.max_retries handler); [lia | exact I]. }
    destruct (anext_gives handler Hf Hleft')
      as (slept & handler1 & Hnext & _ & Hf1 & Hm1 & Hs1 & Hk1 & _).
    destruct (retried failure handler1 Hfailure)
      as (handler2 & Hexit & Hf2 & Hm2 & Hs2 & Hk2).
    destruct (IH handler2) as (earlier & handler3 & Hfields & Hrun & Hok & Hstep).
    { congruence. }
    { right. lia. }
    { rewrite Hm2, Hm1.
      destruct (Backoff.max_retries handler); [lia | exact I]. }
    exists (match slept with
            | Some d => [HikariErrorManager.Sleep d]
            | None => []
            end ++ HikariErrorManager.Respond (Some failure) :: earlier),
      handler3.
    split.
    { destruct Hfields as (Hf3 & Hm3 & Hs3 & Hk3 & Hn3).
      repeat split; try congruence. rewrite Hk3, Hk2, Hk1. cbn. lia. }
    cbn [map app HikariErrorManager.respond_loop].
    rewrite Hnext, Hexit.
    split; [rewrite Hrun; reflexivity|].
    split.
    + intros more. rewrite Hok, <- app_assoc. reflexivity.
    + intros e more. rewrite Hstep.
      destruct (ErrorManager.exit_ rs e handler3) as [[|] handler4].
      * destruct (HikariErrorManager.respond_loop rs more handler4)
          as [[events end_] handler5].
        rewrite <- app_assoc. reflexivity.
      * rewrite <- app_assoc. reflexivity.
Qed.

End RetriedPrefix.

(** *** The claims about [try_respond] *)

Section OfTryRespond.

Variable self : HikariErrorManager.t.
Variable break_on : list exc_type.
Hypothesis any_order :
  Permutation (HikariErrorManager._rules self)
    (HikariErrorManager.clear_rules break_on).
Hypothesis separate : uncontested break_on.

Let handler : Backoff.t := HikariErrorManager._backoff_handler self.

(** [try_respond] over a run of retryable failures: the loop lemma at
    the reset iterator. *)
Lemma try_respond_retried before :
  Forall (fun failure => retryable failure = true) before ->
  allows handler (S (List.length before)) ->
  exists handler1,
    (Backoff.finished handler1 = false /\
     Backoff.max_retries handler1 = Backoff.max_retries handler /\
     Backoff.schedule handler1 = Backoff.schedule handler /\
     Backoff.retries handler1 = S (List.length before) /\
     Backoff.next_backoff handler1 = None) /\
    (forall e more,
        HikariErrorManager.try_respond self
          (map Some before ++ Some e :: more)
        = let earlier :=
            fst (fst (HikariErrorManager.try_respond self
                        (map Some before))) in
          let '(suppressed, handler2) :=
            ErrorManager.exit_ (HikariErrorManager._rules self) e
              handler1 in
          if suppressed then
            let '(events, end_, handler3) :=
              HikariErrorManager.respond_loop
                (HikariErrorManager._rules self) more handler2 in
            (earlier ++ HikariErrorManager.Respond (Some e) :: events,
             end_, handler3)
          else (earlier ++ [HikariErrorManager.Respond (Some e)],
                HikariErrorManager.Propagated e, handler2)).
Proof.
  intros Hbefore Hallows. unfold HikariErrorManager.try_respond.
  destruct (respond_loop_retried (HikariErrorManager._rules self)
              (fun failure h Hfailure =>
                 exit_retryable_any_order _ _ any_order failure h separate
                   Hfailure)
              before Hbefore
              (Backoff.reset (HikariErrorManager._backoff_handler self)))
    as (earlier & handler1 & Hfields & Hrun & _ & Hstep).
  - reflexivity.
  - left. reflexivity.
  - unfold allows in Hallows. subst handler. cbn.
    destruct (Backoff.max_retries _); [lia | exact I].
  - exists handler1. split; [exact Hfields|].
    intros e more. rewrite Hstep, Hrun. reflexivity.
Qed.

End OfTryRespond.

(** C2, as claimed, fails: with a retry-after hint of 15 seconds the
    rule answers [True], and the rate-limit error leaves [try_respond]
    instead of being suppressed. *)
Lemma try_respond_raises_long_rate_limit :
  fst (HikariErrorManager.try_respond manager
         [Some (rate_limited 15); None])
  = ([HikariErrorManager.Respond (Some (rate_limited 15))],
     HikariErrorManager.Propagated (rate_limited 15)).
Proof. reflexivity. Qed.

(** C2, amended.  The manager's [break_on] covering neither server
    errors nor rate-limit errors, and in whatever order its rules are
    tried: when an attempt of the guarded action raises a rate-limit
    error, be it the first attempt or one that follows any number of
    retried failures ([before]; [earlier] is what has happened until
    that attempt), then, if the hint is greater than 10 seconds,
    [try_respond] stops without a further attempt and the error
    propagates to the caller; otherwise the rule sets the iterator's
    next delay to exactly the hint and suppresses the error, so that,
    the iterator allowing a further attempt, the action is attempted
    again after a sleep of exactly the hint, and [try_respond] returns
    without propagating when that attempt succeeds; when the iterator
    allows no further attempt, [try_respond] returns without
    propagating. *)
Theorem try_respond_on_rate_limit self break_on before e :
  Permutation (HikariErrorManager._rules self)
    (HikariErrorManager.clear_rules break_on) ->
  uncontested break_on ->
  Forall (fun failure => retryable failure = true) before ->
  isinstance e RateLimitedError = true ->
  allows (HikariErrorManager._backoff_handler self)
    (S (List.length before)) ->
  let earlier :=
    fst (fst (HikariErrorManager.try_respond self (map Some before))) in
  let attempt := HikariErrorManager.Respond (Some e) in
  let hint := HikariErrorManager.Sleep (retry_after e) in
  ((10 < retry_after e)%Q ->
   (forall h, ErrorManager.exit_ (HikariErrorManager._rules self) e h
              = (false, h)) /\
   (forall more,
       fst (HikariErrorManager.try_respond self
              (map Some before ++ Some e :: more))
       = (earlier ++ [attempt], HikariErrorManager.Propagated e))) /\
  ((retry_after e <= 10)%Q ->
   (forall h, ErrorManager.exit_ (HikariErrorManager._rules self) e h
              = (true, Backoff.set_next_backoff h (retry_after e))) /\
   (allows (HikariErrorManager._backoff_handler self)
      (S (S (List.length before))) ->
    (forall a more,
        exists events,
          fst (fst (HikariErrorManager.try_respond self
                      (map Some before ++ Some e :: a :: more)))
          = earlier ++ attempt :: hint
              :: HikariErrorManager.Respond a :: events) /\
    (forall more,
        fst (HikariErrorManager.try_respond self
               (map Some before ++ Some e :: None :: more))
        = (earlier
           ++ [attempt; hint; HikariErrorManager.Respond None],
           HikariErrorManager.Responded))) /\
   (Backoff.max_retries (HikariErrorManager._backoff_handler self)
    = Some (S (List.length before)) ->
    forall more,
      fst (HikariErrorManager.try_respond self
             (map Some before ++ Some e :: more))
      = (earlier ++ [attempt], HikariErrorManager.GaveUp))).
Proof.
  intros Hrules Hun Hbefore He Hallows. cbn zeta.
  pose proof (exit_rate_limited_any_order _ _ Hrules e
                (Hun _ (or_intror He)) He) as Hexit.
  destruct (try_respond_retried self break_on Hrules Hun before Hbefore
              Hallows)
    as (handler1 & (Hf1 & Hm1 & Hs1 & Hk1 & Hn1) & Hstep).
  split.
  - intros Hlong. apply retry_after_too_long in Hlong.
    rewrite Hlong in Hexit. split; [exact Hexit|].
    intros more. rewrite Hstep, Hexit. reflexivity.
  - intros Hshort. apply retry_after_short in Hshort.
    rewrite Hshort in Hexit. split; [exact Hexit|].
    split.
    + intros Htwo.
      assert (Hretry : forall a more,
        exists events end_ handler',
          HikariErrorManager.respond_loop (HikariErrorManager._rules self)
            (a :: more) (Backoff.set_next_backoff handler1 (retry_after e))
          = (HikariErrorManager.Sleep (retry_after e)
             :: HikariErrorManager.Respond a :: events, end_, handler') /\
          (a = None ->
           events = [] /\ end_ = HikariErrorManager.Responded)).
      { intros a more.
        apply (respond_loop_next_attempt _
                 (Backoff.set_next_backoff handler1 (retry_after e))
                 a more).
        - exact Hf1.
        - cbn. rewrite Hk1. discriminate.
        - cbn. rewrite Hm1, Hk1. unfold allows in Htwo.
          destruct (Backoff.max_retries
                      (HikariErrorManager._backoff_handler self));
            [lia | exact I]. }
      split.
      * intros a more. rewrite Hstep, Hexit. cbv beta iota zeta.
        destruct (Hretry a more) as (events & end_ & handler' & -> & _).
        cbn [fst]. eauto.
      * intros more. rewrite Hstep, Hexit. cbv beta iota zeta.
        destruct (Hretry None more)
          as (events & end_ & handler' & -> & Hdone).
        destruct (Hdone eq_refl) as [-> ->]. reflexivity.
    + intros Hmax more. rewrite Hstep, Hexit. cbv beta iota zeta.
      rewrite (respond_loop_depleted _ more
                 (Backoff.set_next_backoff handler1 (retry_after e))
                 (S (List.length before)));
        [reflexivity | | ].
      * cbn. congruence.
      * cbn. lia.
Qed.

Lemma try_respond_on_rate_limit_witness :
  Permutation (HikariErrorManager._rules manager)
    (HikariErrorManager.clear_rules []) /\
  uncontested [] /\
  Forall (fun failure => retryable failure = true)
    [raise_ InternalServerError] /\
  isinstance (rate_limited 3) RateLimitedError = true /\
  allows (HikariErrorManager._backoff_handler manager) 3 /\
  (retry_after (rate_limited 3) <= 10)%Q /\
  fst (HikariErrorManager.try_respond manager
         [Some (raise_ InternalServerError); Some (rate_limited 3); None])
  = ([HikariErrorManager.Respond (Some (raise_ InternalServerError));
      HikariErrorManager.Sleep (doubling 1);
      HikariErrorManager.Respond (Some (rate_limited 3));
      HikariErrorManager.Sleep 3;
      HikariErrorManager.Respond None],
     HikariErrorManager.Responded).
Proof.
  assert (Hrules : Permutation (HikariErrorManager._rules manager)
                     (HikariErrorManager.clear_rules [])).
  { reflexivity. }
  assert (Hbefore : Forall (fun failure => retryable failure = true)
                      [raise_ InternalServerError]).
  { repeat constructor. }
  assert (H2 : allows (HikariErrorManager._backoff_handler manager) 2).
  { cbn. lia. }
  assert (H3 : allows (HikariErrorManager._backoff_handler manager) 3).
  { cbn. lia. }
  assert (Hq : (retry_after (rate_limited 3) <= 10)%Q).
  { vm_compute. discriminate. }
  assert (Hun : uncontested []).
  { intros t _. reflexivity. }
  split; [exact Hrules|]. split; [exact Hun|].
  split; [exact Hbefore|]. split; [reflexivity|]. split; [exact H3|].
  split; [exact Hq|].
  destruct (try_respond_on_rate_limit manager []
              [raise_ InternalServerError] (rate_limited 3)
              Hrules Hun Hbefore eq_refl H2)
    as [_ Hshort].
  destruct (Hshort Hq) as (_ & Hretry & _).
  destruct (Hretry H3) as [_ Hdone].
  exact (Hdone []).
Defined.

(** The status handler answers [False] for a 5xx status that is not in
    its [break_on] set, and leaves the iterator running. *)
Lemma on_client_response_error_5xx self exception_ :
  (500 <= AIOHTTPStatusHandler.status exception_)%Z ->
  AIOHTTPStatusHandler.status exception_
  ∉ AIOHTTPStatusHandler._break_on self ->
  AIOHTTPStatusHandler._on_client_response_error self exception_
  = (Ret false, AIOHTTPStatusHandler._backoff_handler self).
Proof.
  intros H5 Hb. unfold AIOHTTPStatusHandler._on_client_response_error.
  rewrite bool_decide_eq_false_2 by assumption.
  destruct (Z.geb_spec (AIOHTTPStatusHandler.status exception_) 500);
    [reflexivity | lia].
Qed.

(** C3, as claimed, fails: after a server error the default manager
    makes a further attempt of the action. *)
Lemma try_respond_retries_server_error :
  fst (HikariErrorManager.try_respond manager
         [Some (raise_ InternalServerError); None])
  = ([HikariErrorManager.Respond (Some (raise_ InternalServerError));
      HikariErrorManager.Sleep (doubling 1);
      HikariErrorManager.Respond None],
     HikariErrorManager.Responded).
Proof. reflexivity. Qed.

(** C3, amended.  The manager's [break_on] covering neither server
    errors nor rate-limit errors, and in whatever order its rules are
    tried: when an attempt of the guarded action raises a server error,
    be it the first attempt or one that follows any number of retried
    failures ([before]; [earlier] is what has happened until that
    attempt), the rule suppresses it and leaves the iterator as it is.
    The error never propagates out of [try_respond]; the action is
    attempted again, after the iterator's scheduled delay, whenever the
    iterator allows a further attempt, and [try_respond] returns when
    that attempt succeeds; and when the iterator allows none,
    [try_respond] returns without a success and without propagating.
    The status handler, [AIOHTTPStatusHandler], classifies a 5xx status
    outside its [break_on] the same way: suppressed, with the iterator
    left running. *)
Theorem try_respond_on_server_error self break_on before e :
  Permutation (HikariErrorManager._rules self)
    (HikariErrorManager.clear_rules break_on) ->
  uncontested break_on ->
  Forall (fun failure => retryable failure = true) before ->
  isinstance e InternalServerError = true ->
  allows (HikariErrorManager._backoff_handler self)
    (S (List.length before)) ->
  let earlier :=
    fst (fst (HikariErrorManager.try_respond self (map Some before))) in
  let attempt := HikariErrorManager.Respond (Some e) in
  let scheduled :=
    HikariErrorManager.Sleep
      (Backoff.schedule (HikariErrorManager._backoff_handler self)
         (S (List.length before))) in
  (forall h, ErrorManager.exit_ (HikariErrorManager._rules self) e h
             = (true, h)) /\
  (forall answers,
      snd (fst (HikariErrorManager.try_respond self answers))
      <> HikariErrorManager.Propagated e) /\
  (allows (HikariErrorManager._backoff_handler self)
     (S (S (List.length before))) ->
   (forall a more,
       exists events,
         fst (fst (HikariErrorManager.try_respond self
                     (map Some before ++ Some e :: a :: more)))
         = earlier ++ attempt :: scheduled
             :: HikariErrorManager.Respond a :: events) /\
   (forall more,
       fst (HikariErrorManager.try_respond self
              (map Some before ++ Some e :: None :: more))
       = (earlier
          ++ [attempt; scheduled; HikariErrorManager.Respond None],
          HikariErrorManager.Responded))) /\
  (Backoff.max_retries (HikariErrorManager._backoff_handler self)
   = Some (S (List.length before)) ->
   forall more,
     fst (HikariErrorManager.try_respond self
            (map Some before ++ Some e :: more))
     = (earlier ++ [attempt], HikariErrorManager.GaveUp)) /\
  (forall status_handler exception_,
      (500 <= AIOHTTPStatusHandler.status exception_)%Z ->
      AIOHTTPStatusHandler.status exception_
      ∉ AIOHTTPStatusHandler._break_on status_handler ->
      AIOHTTPStatusHandler._on_client_response_error status_handler
        exception_
      = (Ret false, AIOHTTPStatusHandler._backoff_handler status_handler)).
Proof.
  intros Hrules Hun Hbefore He Hallows. cbn zeta.
  pose proof (exit_server_error_any_order _ _ Hrules e
                (Hun _ (or_introl He)) He) as Hexit.
  destruct (try_respond_retried self break_on Hrules Hun before Hbefore
              Hallows)
    as (handler1 & (Hf1 & Hm1 & Hs1 & Hk1 & Hn1) & Hstep).
  split; [exact Hexit|].
  split; [|split; [|split]]; [| | | apply on_client_response_error_5xx].
  - intros answers Hprop. unfold HikariErrorManager.try_respond in Hprop.
    destruct (HikariErrorManager.respond_loop _ answers _)
      as [[events end_] handler3] eqn:Hloop.
    cbn in Hprop. subst end_.
    apply respond_loop_propagated in Hloop as [h Hh].
    rewrite Hexit in Hh. discriminate.
  - intros Htwo.
    assert (Hretry : forall a more,
      exists events end_ handler',
        HikariErrorManager.respond_loop (HikariErrorManager._rules self)
          (a :: more) handler1
        = (HikariErrorManager.Sleep
             (Backoff.schedule (HikariErrorManager._backoff_handler self)
                (S (List.length before)))
           :: HikariErrorManager.Respond a :: events, end_, handler') /\
        (a = None -> events = [] /\ end_ = HikariErrorManager.Responded)).
    { intros a more.
      destruct (respond_loop_next_attempt (HikariErrorManager._rules self)
                  handler1 a more) as (events & end_ & handler' & Hrun & Hok).
      - exact Hf1.
      - rewrite Hk1. discriminate.
      - rewrite Hm1, Hk1. unfold allows in Htwo.
        destruct (Backoff.max_retries
                    (HikariErrorManager._backoff_handler self));
          [lia | exact I].
      - rewrite Hn1, Hs1, Hk1 in Hrun. eauto 6. }
    split.
    + intros a more. rewrite Hstep, Hexit. cbv beta iota zeta.
      destruct (Hretry a more) as (events & end_ & handler' & -> & _).
      cbn [fst]. eauto.
    + intros more. rewrite Hstep, Hexit. cbv beta iota zeta.
      destruct (Hretry None more)
        as (events & end_ & handler' & -> & Hdone).
      destruct (Hdone eq_refl) as [-> ->]. reflexivity.
  - intros Hmax more. rewrite Hstep, Hexit. cbv beta iota zeta.
    rewrite (respond_loop_depleted _ more handler1
               (S (List.length before)));
      [reflexivity | congruence | lia].
Qed.

Lemma try_respond_on_server_error_witness :
  Permutation (HikariErrorManager._rules hooks_manager)
    (HikariErrorManager.clear_rules [ForbiddenError; NotFoundError]) /\
  uncontested [ForbiddenError; NotFoundError] /\
  Forall (fun failure => retryable failure = true)
    [raise_ InternalServerError] /\
  isinstance (raise_ InternalServerError) InternalServerError = true /\
  allows (HikariErrorManager._backoff_handler hooks_manager) 3 /\
  fst (HikariErrorManager.try_respond hooks_manager
         [Some (raise_ InternalServerError);
          Some (raise_ InternalServerError); None])
  = ([HikariErrorManager.Respond (Some (raise_ InternalServerError));
      HikariErrorManager.Sleep (doubling 1);
      HikariErrorManager.Respond (Some (raise_ InternalServerError));
      HikariErrorManager.Sleep (doubling 2);
      HikariErrorManager.Respond None],
     HikariErrorManager.Responded).
Proof.
  assert (Hrules : Permutation (HikariErrorManager._rules hooks_manager)
                     (HikariErrorManager.clear_rules
                        [ForbiddenError; NotFoundError])).
  { reflexivity. }
  assert (Hbefore : Forall (fun failure => retryable failure = true)
                      [raise_ InternalServerError]).
  { repeat constructor. }
  assert (H2 : allows (HikariErrorManager._backoff_handler hooks_manager) 2).
  { cbn. lia. }
  assert (H3 : allows (HikariErrorManager._backoff_handler hooks_manager) 3).
  { cbn. lia. }
  assert (Hun : uncontested [ForbiddenError; NotFoundError]).
  { intros t Ht. destruct t; vm_compute in Ht |- *; intuition congruence. }
  split; [exact Hrules|]. split; [exact Hun|].
  split; [exact Hbefore|]. split; [reflexivity|]. split; [exact H3|].
  destruct (try_respond_on_server_error hooks_manager
              [ForbiddenError; NotFoundError]
              [raise_ InternalServerError] (raise_ InternalServerError)
              Hrules Hun Hbefore eq_refl H2)
    as (_ & _ & Hretry & _ & _).
  exact (proj2 (Hretry H3) []).
Defined.

(** C9.  A server error whose class is in [break_on] matches two rules
    of the manager: the rule for server errors, which suppresses it and
    leaves the iterator running, and the [break_on] rule, which
    finishes the iterator.  Whichever of the two is tried first
    decides: the error is dealt with as the claim says only if the
    [break_on] rule is tried first, which some order of the rules does,
    and otherwise the action is attempted again.  [clear_rules]
    registers the [break_on] rule last, so that with the rules tried in
    registration order the error is retried.  The status handler, by
    contrast, tests its [break_on] before anything else: for a listed
    status the iterator is always finished. *)
Theorem listed_server_error_may_be_retried self break_on e :
  Permutation (HikariErrorManager._rules self)
    (HikariErrorManager.clear_rules break_on) ->
  isinstance e InternalServerError = true ->
  In (exc_class e) break_on ->
  allows (HikariErrorManager._backoff_handler self) 2 ->
  let rules := HikariErrorManager._rules self in
  let attempt := HikariErrorManager.Respond (Some e) in
  ((forall h, ErrorManager.exit_ rules e h = (true, Backoff.finish h)) \/
   (forall h, ErrorManager.exit_ rules e h = (true, h))) /\
  ((forall h, ErrorManager.exit_ rules e h = (true, Backoff.finish h)) ->
   forall more,
     fst (HikariErrorManager.try_respond self (Some e :: more))
     = ([attempt], HikariErrorManager.GaveUp) /\
     Backoff.finished
       (snd (HikariErrorManager.try_respond self (Some e :: more)))
     = true) /\
  ((forall h, ErrorManager.exit_ rules e h = (true, h)) ->
   (forall a more,
       exists events,
         fst (fst (HikariErrorManager.try_respond self
                     (Some e :: a :: more)))
         = attempt
           :: HikariErrorManager.Sleep
                (Backoff.schedule
                   (HikariErrorManager._backoff_handler self) 1)
           :: HikariErrorManager.Respond a :: events) /\
   (forall more,
       Backoff.finished
         (snd (HikariErrorManager.try_respond self (Some e :: None :: more)))
       = false)) /\
  (rules = HikariErrorManager.clear_rules break_on ->
   forall h, ErrorManager.exit_ rules e h = (true, h)) /\
  (exists reordered,
      Permutation reordered (HikariErrorManager.clear_rules break_on) /\
      forall h, ErrorManager.exit_ reordered e h
                = (true, Backoff.finish h)) /\
  (forall status_handler exception_,
      AIOHTTPStatusHandler.status exception_
      ∈ AIOHTTPStatusHandler._break_on status_handler ->
      AIOHTTPStatusHandler._on_client_response_error status_handler
        exception_
      = (Ret false,
         Backoff.finish
           (AIOHTTPStatusHandler._backoff_handler status_handler))).
Proof.
  intros Hrules He Hin Htwo. cbn zeta.
  assert (Hone : allows (HikariErrorManager._backoff_handler self) 1).
  { unfold allows in *. destruct (Backoff.max_retries _); [lia | exact I]. }
  split; [exact (exit_listed_server_error _ _ Hrules e He)|].
  split; [|split; [|split; [|split]]].
  - intros Hexit more.
    rewrite (try_respond_suppressed self e more Backoff.finish)
      by assumption.
    rewrite respond_loop_finished by reflexivity. split; reflexivity.
  - intros Hexit.
    assert (Hrun : forall a more,
      HikariErrorManager.try_respond self (Some e :: a :: more)
      = let '(events, end_, handler3) :=
          HikariErrorManager.respond_loop (HikariErrorManager._rules self)
            (a :: more)
            {| Backoff.max_retries :=
                 Backoff.max_retries
                   (HikariErrorManager._backoff_handler self);
               Backoff.schedule :=
                 Backoff.schedule
                   (HikariErrorManager._backoff_handler self);
               Backoff.retries := 1; Backoff.finished := false;
               Backoff.next_backoff := None |} in
        (HikariErrorManager.Respond (Some e) :: events, end_, handler3)).
    { intros a more.
      apply (try_respond_suppressed self e (a :: more) (fun h => h));
        assumption. }
    split.
    + intros a more. rewrite Hrun.
      cbn [HikariErrorManager.respond_loop].
      rewrite anext_second by exact Htwo.
      destruct a as [e2|].
      * destruct (ErrorManager.exit_ _ e2 _) as [[|] handler2].
        -- destruct (HikariErrorManager.respond_loop _ more handler2)
             as [[events end_] handler3].
           cbn. eauto.
        -- cbn. eauto.
      * cbn. eauto.
    + intros more. rewrite Hrun.
      cbn [HikariErrorManager.respond_loop].
      rewrite anext_second by exact Htwo. reflexivity.
  - intros Horder h. rewrite Horder.
    apply exit_internal_server_error. exact He.
  - exists ((break_on, HikariErrorManager._on_break_on)
            :: [([InternalServerError],
                 HikariErrorManager._on_internal_server_error);
                ([RateLimitedError],
                 HikariErrorManager._on_rate_limited_error)]).
    split.
    + unfold HikariErrorManager.clear_rules, ErrorManager.with_rule,
        ErrorManager.clear_rules.
      destruct break_on as [|t ts]; [destruct Hin|].
      cbn [app].
      exact (Permutation_cons_append
               [([InternalServerError],
                 HikariErrorManager._on_internal_server_error);
                ([RateLimitedError],
                 HikariErrorManager._on_rate_limited_error)]
               (t :: ts, HikariErrorManager._on_break_on)).
    + intros h. cbn [ErrorManager.exit_].
      rewrite (issubclass_any_member _ _ Hin). reflexivity.
  - intros status_handler exception_ Hlisted.
    unfold AIOHTTPStatusHandler._on_client_response_error.
    rewrite bool_decide_eq_true_2 by exact Hlisted. reflexivity.
Qed.

Lemma listed_server_error_may_be_retried_witness :
  Permutation (HikariErrorManager._rules break_on_5xx)
    (HikariErrorManager.clear_rules [InternalServerError]) /\
  isinstance (raise_ InternalServerError) InternalServerError = true /\
  In (exc_class (raise_ InternalServerError)) [InternalServerError] /\
  allows (HikariErrorManager._backoff_handler break_on_5xx) 2 /\
  HikariErrorManager._rules break_on_5xx
  = HikariErrorManager.clear_rules [InternalServerError] /\
  (exists events,
      fst (fst (HikariErrorManager.try_respond break_on_5xx
                  [Some (raise_ InternalServerError); None]))
      = HikariErrorManager.Respond (Some (raise_ InternalServerError))
        :: HikariErrorManager.Sleep (doubling 1)
        :: HikariErrorManager.Respond None :: events) /\
  Backoff.finished
    (snd (HikariErrorManager.try_respond break_on_5xx
            [Some (raise_ InternalServerError); None])) = false.
Proof.
  assert (Hrules : Permutation (HikariErrorManager._rules break_on_5xx)
                     (HikariErrorManager.clear_rules
                        [InternalServerError])).
  { reflexivity. }
  assert (Hin : In (exc_class (raise_ InternalServerError))
                  [InternalServerError]).
  { left. reflexivity. }
  assert (H2 : allows (HikariErrorManager._backoff_handler break_on_5xx) 2).
  { cbn. lia. }
  split; [exact Hrules|]. split; [reflexivity|]. split; [exact Hin|].
  split; [exact H2|]. split; [reflexivity|].
  destruct (listed_server_error_may_be_retried break_on_5xx
              [InternalServerError] (raise_ InternalServerError)
              Hrules eq_refl Hin H2) as (_ & _ & Hretried & Horder & _ & _).
  destruct (Hretried (Horder eq_refl)) as [Hagain Hrunning].
  split; [exact (Hagain None []) | exact (Hrunning [])].
Defined.

(* ================================================================== *)
(** * Part III.  Further properties of the code                        *)
(* ================================================================== *)

(** ** Strings *)

Lemma startswith_app t s : startswith (t ++ s) t = true.
Proof.
  unfold startswith. induction t as [|c t IH].
  - destruct s; reflexivity.
  - change (String.prefix (String c t) (String c (t ++ s)) = true). cbn.
    destruct (ascii_dec c c); [exact IH | congruence].
Qed.

Lemma startswith_empty s : startswith s EmptyString = true.
Proof. destruct s; reflexivity. Qed.

(** A string starts with [t] exactly when it is [t] followed by
    something. *)
Lemma startswith_iff s t :
  startswith s t = true <-> exists rest, s = (t ++ rest)%string.
Proof.
  split.
  - unfold startswith. revert s. induction t as [|c t IH]; intros s; cbn.
    + eauto.
    + destruct s as [|d s]; cbn; [discriminate|].
      destruct (ascii_dec c d) as [<-|]; [|discriminate].
      intros H. destruct (IH _ H) as [rest ->]. eauto.
  - intros [rest ->]. apply startswith_app.
Qed.

Lemma drop_chars_app t s : drop_chars (String.length t) (t ++ s) = s.
Proof.
  induction t as [|c t IH]; [destruct s; reflexivity|].
  change (drop_chars (S (String.length t)) (String c (t ++ s)) = s).
  exact IH.
Qed.

Lemma drop_chars_length n s :
  String.length (drop_chars n s) = String.length s - n.
Proof.
  revert s. induction n as [|n IH]; intros [|c s]; cbn; auto.
Qed.

Lemma drop_chars_drop_chars n m s :
  drop_chars m (drop_chars n s) = drop_chars (n + m) s.
Proof.
  revert s. induction n as [|n IH]; intros s; cbn.
  - reflexivity.
  - destruct s as [|c s]; [destruct m; reflexivity | apply IH].
Qed.

Lemma drop_chars_all n s :
  String.length s <= n -> drop_chars n s = EmptyString.
Proof.
  revert s. induction n as [|n IH]; intros [|c s]; cbn; auto; try lia.
  intros H. apply IH. lia.
Qed.

Lemma take_chars_length n s :
  String.length (take_chars n s) = Nat.min n (String.length s).
Proof.
  revert s. induction n as [|n IH]; intros [|c s]; cbn; auto.
Qed.

Lemma take_chars_all n s :
  String.length s <= n -> take_chars n s = s.
Proof.
  revert s. induction n as [|n IH]; intros [|c s]; cbn; auto; try lia.
  intros H. f_equal. apply IH. lia.
Qed.

Lemma string_app_length s t :
  String.length (s ++ t) = String.length s + String.length t.
Proof.
  induction s as [|c s IH]; [reflexivity|].
  change (S (String.length (s ++ t))
          = S (String.length s) + String.length t).
  rewrite IH. reflexivity.
Qed.

(** ** Commands *)

Lemma replace_char_length a b s :
  String.length (replace_char a b s) = String.length s.
Proof. induction s as [|c s IH]; cbn; auto. Qed.

(** X1.  The trigger generated from a function name has the length of
    the name and no underscore in it; a name without underscores is its
    own trigger. *)
Theorem generate_trigger_shape func_name :
  String.length (Command.generate_trigger func_name)
  = String.length func_name /\
  ~ In "_"%char
       (list_ascii_of_string (Command.generate_trigger func_name)) /\
  (~ In "_"%char (list_ascii_of_string func_name) ->
   Command.generate_trigger func_name = func_name).
Proof.
  unfold Command.generate_trigger.
  split; [apply replace_char_length|]. split.
  - induction func_name as [|c s IH]; cbn; [tauto|].
    intros [H | H]; [|tauto].
    destruct (Ascii.eqb_spec c "_"%char); [discriminate | congruence].
  - induction func_name as [|c s IH]; cbn; [reflexivity|].
    intros H. destruct (Ascii.eqb_spec c "_"%char) as [-> | _]; [tauto|].
    rewrite IH by tauto. reflexivity.
Qed.

Lemma generate_trigger_shape_witness :
  ~ In "_"%char (list_ascii_of_string "ping") /\
  Command.generate_trigger "ping" = "ping" /\
  Command.generate_trigger "server_info" = "server info".
Proof.
  assert (H : ~ In "_"%char (list_ascii_of_string "ping")).
  { cbn. intros [H | [H | [H | [H | []]]]]; discriminate. }
  split; [exact H|]. split; [|reflexivity].
  exact (proj2 (proj2 (generate_trigger_shape "ping")) H).
Defined.

(** X2.  A command built by [__init__] has the built-in predicate as its
    only check and at least one trigger: the given trigger, or the
    generated one when none (or an empty one) is given, followed by the
    aliases.  Content that begins with the main trigger is matched with
    the main trigger, whatever the aliases are. *)
Theorem init_main_trigger_wins oid_ func_name trigger aliases level_
    cluster rest :
  let self := Command.init oid_ func_name trigger aliases level_ cluster in
  let main :=
    match trigger with
    | Some tr => if truthy tr then tr else Command.generate_trigger func_name
    | None => Command.generate_trigger func_name
    end in
  plain self /\
  Command.triggers self = main :: aliases /\
  Command.check_prefix self (main ++ rest) = Some main /\
  forall ctx,
    Context.content ctx = (main ++ rest)%string ->
    Command.check_prefix_from_context self ctx
    = (Context.set_command_trigger ctx main, true).
Proof.
  cbn zeta. unfold Command.init, plain, Command.check_prefix,
    Command.check_prefix_from_context.
  destruct cluster; cbn; rewrite startswith_app; repeat split;
    intros ctx ->; rewrite startswith_app; reflexivity.
Qed.

(** A plain command passes [check] exactly when one of its triggers
    prefixes the content; the context gets the command and, on a match,
    the trigger, and nothing else changes. *)
Lemma check_of_plain self ctx :
  plain self ->
  Command.check self ctx
  = match Command.check_prefix self (Context.content ctx) with
    | Some trigger =>
        (Context.set_command_trigger
           (Context.set_command ctx (Command.oid self)) trigger, Ret true)
    | None => (Context.set_command ctx (Command.oid self), Ret false)
    end.
Proof.
  unfold plain, Command.check, Command.check_run, Command.check_prefix.
  intros ->. cbn. unfold Command.check_prefix_from_context.
  rewrite check_triggers_from_context_spec. cbn.
  destruct (Command.first_trigger _ _); reflexivity.
Qed.

(** X3.  When no trigger of a command prefixes the content, [check]
    fails after the built-in predicate alone: none of the registered
    checks is called, and the context only has its [command] slot
    changed; in particular a [triggering_name] left by an earlier
    candidate stays. *)
Theorem check_unmatched_calls_no_registered_check self ctx registered :
  Command._checks self = check_prefix_from_context_of_self :: registered ->
  Command.check_prefix self (Context.content ctx) = None ->
  Command.check self ctx
  = (Context.set_command ctx (Command.oid self), Ret false) /\
  Command.evaluated self ctx = [Ret false] /\
  Context.triggering_name (fst (Command.check self ctx))
  = Context.triggering_name ctx.
Proof.
  unfold Command.check, Command.evaluated, Command.calls, Command.check_run,
    Command.check_prefix.
  intros -> Hnone. cbn. unfold Command.check_prefix_from_context.
  rewrite check_triggers_from_context_spec. cbn. rewrite Hnone. cbn. auto.
Qed.

Lemma check_unmatched_calls_no_registered_check_witness :
  Command._checks ping_raise_then_pass
  = check_prefix_from_context_of_self
    :: [always (Raise (raise_ ValueError)); always (Ret true)] /\
  Command.check_prefix ping_raise_then_pass (Context.content ctx_hello)
  = None /\
  Command.evaluated ping_raise_then_pass ctx_hello = [Ret false].
Proof.
  split; [reflexivity|]. split; [reflexivity|].
  exact (proj1 (proj2 (check_unmatched_calls_no_registered_check
                         ping_raise_then_pass ctx_hello _
                         eq_refl eq_refl))).
Defined.

(** [s[n:]] for a length that is not negative. *)
Lemma slice_from_nonneg (n : nat) s :
  slice_from (Z.of_nat n) s = drop_chars n s.
Proof.
  unfold slice_from. destruct (Z.ltb_spec (Z.of_nat n) 0); [lia|].
  rewrite Nat2Z.id. reflexivity.
Qed.

(** [s[-k:]] for a positive [k]. *)
Lemma slice_from_negative (k : nat) s :
  0 < k ->
  slice_from (- Z.of_nat k) s = drop_chars (String.length s - k) s.
Proof.
  intros Hk. unfold slice_from.
  destruct (Z.ltb_spec (- Z.of_nat k) 0); [|lia].
  rewrite Z.opp_involutive, Nat2Z.id. reflexivity.
Qed.

(** X4.  [prune_content] keeps a tail of the content and touches nothing
    else; it never fails.  A length that is not negative cuts that many
    characters off the front: cutting the length of a leading part
    leaves the rest, cutting more than there is leaves the empty string,
    and two such cuts add up.  A negative length [-k] does not cut [k]
    characters: it keeps the last [k] characters, and the whole content
    when there are no more than [k]. *)
Theorem prune_content_cuts ctx length_ :
  let content_ := Context.content ctx in
  let pruned := Context.prune_content ctx length_ in
  (Context.command pruned = Context.command ctx /\
   Context.message pruned = Context.message ctx /\
   Context.trigger pruned = Context.trigger ctx /\
   Context.trigger_type pruned = Context.trigger_type ctx /\
   Context.triggering_name pruned = Context.triggering_name ctx) /\
  (forall front back,
      content_ = (front ++ back)%string ->
      (length_ = Z.of_nat (String.length front) ->
       Context.content pruned = back) /\
      (back <> EmptyString ->
       length_ = (- Z.of_nat (String.length back))%Z ->
       Context.content pruned = back)) /\
  ((Z.of_nat (String.length content_) <= length_)%Z ->
   Context.content pruned = EmptyString) /\
  ((length_ <= - Z.of_nat (String.length content_))%Z ->
   Context.content pruned = content_) /\
  String.length (Context.content pruned)
  = (if (length_ <? 0)%Z
     then Nat.min (String.length content_) (Z.to_nat (- length_))
     else String.length content_ - Z.to_nat length_) /\
  (forall more,
      (0 <= length_)%Z -> (0 <= more)%Z ->
      Context.prune_content pruned more
      = Context.prune_content ctx (length_ + more)).
Proof.
  cbn zeta. unfold Context.prune_content.
  cbn [Context.command Context.message Context.trigger Context.trigger_type
       Context.triggering_name Context.content].
  split; [auto|]. split; [|split; [|split; [|split]]].
  - intros front back Hsplit. split.
    + intros ->. rewrite slice_from_nonneg, Hsplit. apply drop_chars_app.
    + intros Hback ->.
      assert (Hk : 0 < String.length back).
      { destruct back; [congruence | cbn; lia]. }
      rewrite slice_from_negative by exact Hk.
      rewrite Hsplit, string_app_length.
      replace (String.length front + String.length back
               - String.length back) with (String.length front) by lia.
      apply drop_chars_app.
  - intros Hall. unfold slice_from.
    destruct (Z.ltb_spec length_ 0); [lia|].
    apply drop_chars_all. lia.
  - intros Hnone. unfold slice_from.
    destruct (Z.ltb_spec length_ 0) as [Hneg|Hpos].
    + replace (String.length (Context.content ctx) - Z.to_nat (- length_))
        with 0 by lia.
      reflexivity.
    + replace (Z.to_nat length_) with 0 by lia. reflexivity.
  - unfold slice_from.
    destruct (Z.ltb_spec length_ 0); rewrite drop_chars_length; lia.
  - intros more Hlength Hmore. f_equal. unfold slice_from.
    destruct (Z.ltb_spec length_ 0); [lia|].
    destruct (Z.ltb_spec more 0); [lia|].
    destruct (Z.ltb_spec (length_ + more) 0); [lia|].
    rewrite drop_chars_drop_chars. f_equal. lia.
Qed.

Lemma prune_content_cuts_witness :
  Context.content ctx_hello = ("he" ++ "llo")%string /\
  "llo" <> EmptyString /\
  Context.content (Context.prune_content ctx_hello 2) = "llo" /\
  Context.content (Context.prune_content ctx_hello (-3)) = "llo" /\
  (Z.of_nat (String.length (Context.content ctx_hello)) <= 9)%Z /\
  Context.content (Context.prune_content ctx_hello 9) = EmptyString /\
  (-9 <= - Z.of_nat (String.length (Context.content ctx_hello)))%Z /\
  Context.content (Context.prune_content ctx_hello (-9)) = "hello".
Proof.
  assert (Hsplit : Context.content ctx_hello = ("he" ++ "llo")%string)
    by reflexivity.
  assert (Hback : "llo" <> EmptyString) by discriminate.
  assert (Hall : (Z.of_nat (String.length (Context.content ctx_hello))
                  <= 9)%Z) by (cbn; lia).
  assert (Hnone : (-9 <= - Z.of_nat (String.length
                                       (Context.content ctx_hello)))%Z)
    by (cbn; lia).
  split; [exact Hsplit|]. split; [exact Hback|].
  destruct (prune_content_cuts ctx_hello 2) as (_ & Hfront & _).
  destruct (prune_content_cuts ctx_hello (-3)) as (_ & Htail & _).
  destruct (prune_content_cuts ctx_hello 9) as (_ & _ & Hempty & _).
  destruct (prune_content_cuts ctx_hello (-9)) as (_ & _ & _ & Hwhole & _).
  split; [exact (proj1 (Hfront "he" "llo" Hsplit) eq_refl)|].
  split; [exact (proj2 (Htail "he" "llo" Hsplit) Hback eq_refl)|].
  split; [exact Hall|]. split; [exact (Hempty Hall)|].
  split; [exact Hnone | exact (Hwhole Hnone)].
Defined.

Lemma init_main_trigger_wins_witness :
  Context.content ctx_ping = ("ping" ++ " now")%string /\
  Command.check_prefix_from_context
    (Command.init 9 "ping" None ["pong"] 0 None) ctx_ping
  = (Context.set_command_trigger ctx_ping "ping", true).
Proof.
  split; [reflexivity|].
  exact (proj2 (proj2 (proj2
           (init_main_trigger_wins 9 "ping" None ["pong"] 0 None " now")))
           ctx_ping eq_refl).
Defined.

(** ** Clusters *)

Lemma commands_from_name_app l1 l2 content :
  CommandCluster.commands_from_name (l1 ++ l2) content
  = CommandCluster.commands_from_name l1 content
    ++ CommandCluster.commands_from_name l2 content.
Proof.
  induction l1 as [|c l1 IH]; cbn; [reflexivity|].
  destruct (Command.check_prefix c content) as [t|]; [|exact IH].
  destruct (truthy t); cbn; congruence.
Qed.

(** The command that [register_command] puts into the cluster. *)
Lemma register_command_appends self func bind :
  exists command_obj,
    CommandCluster.cluster_commands
      (fst (CommandCluster.register_command self func bind))
    = CommandCluster.cluster_commands self ++ [command_obj] /\
    Command.oid command_obj
    = match func with
      | CommandCluster.a_command c => Command.oid c
      | CommandCluster.a_function oid_ _ _ _ => oid_
      end /\
    Command._cluster command_obj
    = match func with
      | CommandCluster.a_command c =>
          if bind then Some (CommandCluster.class_name self)
          else Command._cluster c
      | CommandCluster.a_function _ _ _ _ =>
          if bind then Some (CommandCluster.class_name self) else None
      end.
Proof.
  unfold CommandCluster.register_command. cbn.
  eexists. split; [reflexivity|].
  destruct func, bind; cbn; auto.
Qed.

(** X5.  [register_command] puts the command at the end of the command
    list: what [get_command_from_name] yielded before, it still yields,
    in the same order, and the new command can only follow. *)
Theorem register_command_keeps_earlier_matches self func bind content :
  exists added,
    CommandCluster.get_command_from_name
      (fst (CommandCluster.register_command self func bind)) content
    = CommandCluster.get_command_from_name self content ++ added /\
    List.length added <= 1.
Proof.
  unfold CommandCluster.get_command_from_name.
  destruct (register_command_appends self func bind) as (c & -> & _).
  rewrite commands_from_name_app. eexists. split; [reflexivity|].
  cbn. destruct (Command.check_prefix c content) as [t|]; cbn; [|lia].
  destruct (truthy t); cbn; lia.
Qed.

(** X6.  A cluster that has had a command registered by hand cannot be
    bound any more: [bind_commands] fails with [ValueError], also when
    it has never run on that cluster. *)
Theorem bind_commands_after_register_command_fails self func bind :
  CommandCluster.bind_commands
    (fst (CommandCluster.register_command self func bind))
  = Raise (raise_ ValueError).
Proof.
  apply bind_commands_on_loaded.
  destruct (register_command_appends self func bind) as (c & -> & _).
  destruct (CommandCluster.cluster_commands self); discriminate.
Qed.

Lemma remove_command_absent x l :
  CommandCluster.remove_command x l = None <->
  forall y, In y l -> Command.oid y <> Command.oid x.
Proof.
  induction l as [|y l IH]; cbn.
  - split; [tauto | reflexivity].
  - destruct (Nat.eqb_spec (Command.oid y) (Command.oid x)) as [He | Hne].
    + split; [discriminate|]. intros H. exfalso. exact (H y (or_introl eq_refl) He).
    + destruct (CommandCluster.remove_command x l) as [rest|].
      * split; [discriminate|]. intros H.
        assert (Hnone : Some rest = None).
        { apply IH. intros z Hz. apply H. right. exact Hz. }
        discriminate.
      * split; [|reflexivity]. intros _ z [<- | Hz]; [exact Hne|].
        apply IH; [reflexivity | exact Hz].
Qed.

Lemma remove_command_first x l rest :
  CommandCluster.remove_command x l = Some rest ->
  exists before found after,
    l = before ++ found :: after /\ rest = before ++ after /\
    Command.oid found = Command.oid x /\
    forall y, In y before -> Command.oid y <> Command.oid x.
Proof.
  revert rest. induction l as [|y l IH]; intros rest; cbn; [discriminate|].
  destruct (Nat.eqb_spec (Command.oid y) (Command.oid x)) as [He | Hne].
  - intros [= <-]. exists [], y, l. cbn. tauto.
  - destruct (CommandCluster.remove_command x l) as [rest'|];
      [|discriminate].
    intros [= <-].
    destruct (IH rest' eq_refl) as (before & found & after & -> & -> & Ho & Hb).
    exists (y :: before), found, after. cbn. repeat split; auto.
    intros z [<- | Hz]; auto.
Qed.

Lemma remove_command_last x l :
  (forall y, In y l -> Command.oid y <> Command.oid x) ->
  CommandCluster.remove_command x (l ++ [x]) = Some l.
Proof.
  induction l as [|y l IH]; cbn; intros H.
  - rewrite Nat.eqb_refl. reflexivity.
  - destruct (Nat.eqb_spec (Command.oid y) (Command.oid x)) as [He | Hne].
    + exfalso. exact (H y (or_introl eq_refl) He).
    + rewrite IH; [reflexivity|]. intros z Hz. apply H. right. exact Hz.
Qed.

(** X7.  [unregister_command] raises [ValueError] exactly when the
    command is not in the cluster, and otherwise takes out its first
    occurrence only, leaving the other commands in their order: a
    command registered twice stays registered once. *)
Theorem unregister_command_removes_first self command_obj :
  (CommandCluster.unregister_command self command_obj
   = Raise (raise_ ValueError) <->
   forall y, In y (CommandCluster.cluster_commands self) ->
             Command.oid y <> Command.oid command_obj) /\
  (forall self',
      CommandCluster.unregister_command self command_obj = Ret self' ->
      CommandCluster.members self' = CommandCluster.members self /\
      exists before found after,
        CommandCluster.cluster_commands self = before ++ found :: after /\
        CommandCluster.cluster_commands self' = before ++ after /\
        Command.oid found = Command.oid command_obj /\
        forall y, In y before ->
                  Command.oid y <> Command.oid command_obj).
Proof.
  unfold CommandCluster.unregister_command.
  destruct (CommandCluster.remove_command _ _) as [rest|] eqn:Hrem.
  - split.
    + split; [discriminate|]. intros H.
      apply remove_command_absent in H. congruence.
    + intros self' [= <-]. cbn. split; [reflexivity|].
      apply remove_command_first. exact Hrem.
  - split; [|discriminate].
    split; [|reflexivity]. intros _. apply remove_command_absent. exact Hrem.
Qed.

Lemma unregister_command_removes_first_witness :
  (forall y, In y (CommandCluster.cluster_commands (loaded_cluster [pin; pi]))
             -> Command.oid y <> Command.oid ping) /\
  CommandCluster.unregister_command (loaded_cluster [pin; pi]) ping
  = Raise (raise_ ValueError) /\
  CommandCluster.unregister_command (loaded_cluster [pin; pi; pin]) pin
  = Ret (loaded_cluster [pi; pin]).
Proof.
  assert (H : forall y,
             In y (CommandCluster.cluster_commands
                     (loaded_cluster [pin; pi])) ->
             Command.oid y <> Command.oid ping).
  { cbn. intros y [<- | [<- | []]]; discriminate. }
  split; [exact H|]. split; [|reflexivity].
  exact (proj2 (proj1 (unregister_command_removes_first
                         (loaded_cluster [pin; pi]) ping)) H).
Defined.

(** X8.  Registering a command and unregistering it again restores the
    command list, provided the command was not in the cluster before. *)
Theorem unregister_after_register self command_obj :
  (forall y, In y (CommandCluster.cluster_commands self) ->
             Command.oid y <> Command.oid command_obj) ->
  exists self',
    CommandCluster.unregister_command
      (fst (CommandCluster.register_command self
              (CommandCluster.a_command command_obj) false))
      command_obj = Ret self' /\
    CommandCluster.cluster_commands self'
    = CommandCluster.cluster_commands self /\
    CommandCluster.members self' = CommandCluster.members self /\
    CommandCluster.class_name self' = CommandCluster.class_name self.
Proof.
  intros Hfresh. unfold CommandCluster.unregister_command,
    CommandCluster.register_command. cbn.
  rewrite remove_command_last by exact Hfresh. eauto.
Qed.

Lemma unregister_after_register_witness :
  (forall y, In y (CommandCluster.cluster_commands (loaded_cluster [pin; pi]))
             -> Command.oid y <> Command.oid ping) /\
  CommandCluster.unregister_command
    (fst (CommandCluster.register_command (loaded_cluster [pin; pi])
            (CommandCluster.a_command ping) false)) ping
  = Ret (loaded_cluster [pin; pi]).
Proof.
  assert (H : forall y,
             In y (CommandCluster.cluster_commands
                     (loaded_cluster [pin; pi])) ->
             Command.oid y <> Command.oid ping).
  { cbn. intros y [<- | [<- | []]]; discriminate. }
  split; [exact H|].
  destruct (unregister_after_register (loaded_cluster [pin; pi]) ping H)
    as (self' & -> & Hc & Hm & Hn).
  destruct self' as [n m c]. cbn in *. subst. reflexivity.
Defined.

(** The order of strings. *)
Lemma ascii_compare_refl c : Ascii.compare c c = Eq.
Proof. unfold Ascii.compare. apply N.compare_refl. Qed.

Lemma string_compare_trans_ge s1 s2 s3 :
  String.compare s1 s2 <> Lt -> String.compare s2 s3 <> Lt ->
  String.compare s1 s3 <> Lt.
Proof.
  revert s2 s3. induction s1 as [|c1 s1 IH]; intros [|c2 s2] [|c3 s3]; cbn;
    try congruence.
  unfold Ascii.compare.
  destruct (N.compare_spec (N_of_ascii c1) (N_of_ascii c2)) as [H12|H12|H12];
    destruct (N.compare_spec (N_of_ascii c2) (N_of_ascii c3))
      as [H23|H23|H23];
    destruct (N.compare_spec (N_of_ascii c1) (N_of_ascii c3))
      as [H13|H13|H13];
    try congruence; try lia; eauto.
Qed.

Lemma ltb_false_trans s1 s2 s3 :
  String.ltb s1 s2 = false -> String.ltb s2 s3 = false ->
  String.ltb s1 s3 = false.
Proof.
  unfold String.ltb. intros H12 H23.
  pose proof (string_compare_trans_ge s1 s2 s3) as H.
  destruct (String.compare s1 s2), (String.compare s2 s3),
    (String.compare s1 s3); try congruence;
    exfalso; apply H; congruence.
Qed.

Lemma ltb_true_flip s1 s2 :
  String.ltb s1 s2 = true -> String.ltb s2 s1 = false.
Proof.
  unfold String.ltb. rewrite (String.compare_antisym s2 s1).
  destruct (String.compare s1 s2); cbn; congruence.
Qed.

Lemma ltb_proper_prefix a b : proper_prefix a b -> String.ltb a b = true.
Proof.
  intros (c & rest & ->). unfold String.ltb.
  induction a as [|d a IH]; [reflexivity|].
  change (match String.compare (String d a)
                  (String d (a ++ String c rest)) with
          | Lt => true
          | _ => false
          end = true).
  cbn. rewrite ascii_compare_refl. exact IH.
Qed.

Section SortByName.

Let ordered (a b : Command.t) : Prop :=
  String.ltb (Command.name a) (Command.name b) = false.

Lemma insert_by_name_perm x l :
  Permutation (CommandCluster.insert_by_name x l) (x :: l).
Proof.
  induction l as [|y l IH]; cbn; [reflexivity|].
  destruct (String.ltb _ _); [|reflexivity].
  rewrite IH. apply perm_swap.
Qed.

Lemma sort_by_name_reverse_perm l :
  Permutation (CommandCluster.sort_by_name_reverse l) l.
Proof.
  unfold CommandCluster.sort_by_name_reverse.
  induction l as [|x l IH]; cbn; [reflexivity|].
  rewrite insert_by_name_perm. constructor. exact IH.
Qed.

Lemma insert_by_name_sorted x l :
  StronglySorted ordered l ->
  StronglySorted ordered (CommandCluster.insert_by_name x l).
Proof.
  induction l as [|y l IH]; cbn; intros Hs.
  - repeat constructor.
  - apply StronglySorted_inv in Hs as [Hl Hy].
    destruct (String.ltb (Command.name x) (Command.name y)) eqn:Hxy.
    + constructor; [apply IH; exact Hl|].
      eapply Permutation_Forall;
        [symmetry; apply insert_by_name_perm|].
      constructor; [|exact Hy].
      apply ltb_true_flip. exact Hxy.
    + constructor; [constructor; assumption|].
      constructor; [exact Hxy|].
      eapply Forall_impl; [exact Hy|].
      intros z Hz. eapply ltb_false_trans; eassumption.
Qed.

Lemma sort_by_name_reverse_sorted l :
  StronglySorted ordered (CommandCluster.sort_by_name_reverse l).
Proof.
  unfold CommandCluster.sort_by_name_reverse.
  induction l as [|x l IH]; cbn; [constructor|].
  apply insert_by_name_sorted. exact IH.
Qed.

End SortByName.

Lemma bind_members_loads cluster found loaded warnings :
  fst (CommandCluster.bind_members cluster found loaded warnings)
  = loaded ++ map (fun m => Command.bind_cluster (snd m) cluster) found.
Proof.
  revert loaded warnings.
  induction found as [|[attr c] rest IH]; intros loaded warnings; cbn.
  - rewrite app_nil_r. reflexivity.
  - rewrite IH, <- app_assoc. reflexivity.
Qed.

(** What [bind_commands] stores: the command members, bound to the
    cluster and sorted. *)
Lemma bind_commands_stores self self' warnings :
  CommandCluster.bind_commands self = Ret (self', warnings) ->
  CommandCluster.cluster_commands self'
  = CommandCluster.sort_by_name_reverse
      (map (fun m => Command.bind_cluster (snd m)
                       (CommandCluster.class_name self))
           (CommandCluster.members self)).
Proof.
  unfold CommandCluster.bind_commands.
  destruct (CommandCluster.cluster_commands self); [|discriminate].
  pose proof (bind_members_loads (CommandCluster.class_name self)
                (CommandCluster.members self) [] []) as Hloaded.
  destruct (CommandCluster.bind_members _ _ _ _) as [loaded logged].
  cbn in Hloaded. subst loaded. intros [= <- _]. reflexivity.
Qed.

(** X9.  After [bind_commands] the command list holds exactly the
    command members of the cluster, each bound to the cluster, in
    descending order of their names. *)
Theorem bind_commands_sorts_members self self' warnings :
  CommandCluster.bind_commands self = Ret (self', warnings) ->
  Permutation (CommandCluster.cluster_commands self')
    (map (fun m => Command.bind_cluster (snd m)
                     (CommandCluster.class_name self))
         (CommandCluster.members self)) /\
  StronglySorted
    (fun a b => String.ltb (Command.name a) (Command.name b) = false)
    (CommandCluster.cluster_commands self') /\
  Forall (fun c => Command._cluster c
                   = Some (CommandCluster.class_name self))
         (CommandCluster.cluster_commands self').
Proof.
  intros Hbind. rewrite (bind_commands_stores _ _ _ Hbind).
  split; [apply sort_by_name_reverse_perm|].
  split; [apply sort_by_name_reverse_sorted|].
  eapply Permutation_Forall;
    [symmetry; apply sort_by_name_reverse_perm|].
  apply Forall_map. apply List.Forall_forall. intros m _. reflexivity.
Qed.

Lemma bind_commands_sorts_members_witness :
  exists self' warnings,
    CommandCluster.bind_commands basic_cluster = Ret (self', warnings) /\
    StronglySorted
      (fun a b => String.ltb (Command.name a) (Command.name b) = false)
      (CommandCluster.cluster_commands self').
Proof.
  destruct (CommandCluster.bind_commands basic_cluster)
    as [[self' warnings]|e] eqn:Hbind; [|discriminate].
  exists self', warnings. split; [reflexivity|].
  exact (proj1 (proj2 (bind_commands_sorts_members basic_cluster self'
                         warnings Hbind))).
Defined.

(** X10.  After [bind_commands] no command is preceded by a command
    whose name is a proper prefix of its own: of two commands named
    [pin] and [ping], [ping] comes first and is tried first. *)
Theorem bind_commands_longer_name_first self self' warnings before x after
    y :
  CommandCluster.bind_commands self = Ret (self', warnings) ->
  CommandCluster.cluster_commands self' = before ++ x :: after ->
  In y after ->
  ~ proper_prefix (Command.name x) (Command.name y).
Proof.
  intros Hbind Hsplit Hy Hprefix.
  pose proof (sort_by_name_reverse_sorted
                (map (fun m => Command.bind_cluster (snd m)
                                 (CommandCluster.class_name self))
                     (CommandCluster.members self))) as Hsorted.
  rewrite <- (bind_commands_stores _ _ _ Hbind), Hsplit in Hsorted.
  apply StronglySorted_app_1_r in Hsorted.
  apply StronglySorted_inv in Hsorted as [_ Hall].
  rewrite List.Forall_forall in Hall. specialize (Hall y Hy). cbn in Hall.
  apply ltb_proper_prefix in Hprefix. congruence.
Qed.

Lemma bind_commands_longer_name_first_witness :
  exists self' warnings before x after y,
    CommandCluster.bind_commands basic_cluster = Ret (self', warnings) /\
    CommandCluster.cluster_commands self' = before ++ x :: after /\
    In y after /\
    Command.name x = "ping" /\ Command.name y = "pin" /\
    ~ proper_prefix (Command.name x) (Command.name y).
Proof.
  destruct (CommandCluster.bind_commands basic_cluster)
    as [[self' warnings]|e] eqn:Hbind; [|discriminate].
  assert (Hsplit : exists x after y,
             CommandCluster.cluster_commands self' = [] ++ x :: after /\
             In y after /\
             Command.name x = "ping" /\ Command.name y = "pin").
  { vm_compute in Hbind. injection Hbind as <- _.
    eexists _, _, _. split; [reflexivity|].
    split; [left; reflexivity|]. split; reflexivity. }
  destruct Hsplit as (x & after & y & Hsplit & Hy & Hx & Hyn).
  exists self', warnings, [], x, after, y.
  repeat split; try assumption.
  exact (bind_commands_longer_name_first basic_cluster self' warnings
           [] x after y Hbind Hsplit Hy).
Defined.

(** ** The client *)

(** Plain commands leave the content alone: the candidates among them
    are those with a matching trigger, and no exception escapes. *)
Lemma passing_plain commands ctx :
  Forall plain commands ->
  passing commands ctx
  = (List.filter (triggered (Context.content ctx)) commands, None).
Proof.
  revert ctx. induction commands as [|c rest IH]; intros ctx Hplain; cbn.
  - reflexivity.
  - apply Forall_cons in Hplain as [Hc Hrest].
    rewrite (check_of_plain c ctx Hc). unfold triggered.
    destruct (Command.check_prefix c (Context.content ctx)) as [t|].
    + rewrite IH by assumption. reflexivity.
    + rewrite IH by assumption. reflexivity.
Qed.

(** X11.  For a cluster of plain commands none of which matches the
    content by an empty trigger, lookup by name and lookup by context
    agree: the commands [get_command_from_name] yields for the content
    are the commands whose [check] passes on a context with that
    content, in the same order, and no check raises. *)
Theorem lookup_by_name_and_by_context_agree self ctx :
  Forall plain (CommandCluster.cluster_commands self) ->
  (forall command_obj,
      In command_obj (CommandCluster.cluster_commands self) ->
      Command.check_prefix command_obj (Context.content ctx)
      <> Some EmptyString) ->
  passing (CommandCluster.cluster_commands self) ctx
  = (map fst (CommandCluster.get_command_from_name self
                (Context.content ctx)), None).
Proof.
  unfold CommandCluster.get_command_from_name.
  intros Hplain Hne. rewrite passing_plain by assumption. f_equal.
  clear Hplain.
  induction (CommandCluster.cluster_commands self) as [|c rest IH]; cbn;
    [reflexivity|].
  pose proof (Hne c (or_introl eq_refl)) as Hc.
  unfold triggered.
  destruct (Command.check_prefix c (Context.content ctx)) as [t|].
  - assert (truthy t = true) as ->.
    { apply truthy_nonempty. congruence. }
    cbn. f_equal. apply IH. intros c' Hc'. apply Hne. right. exact Hc'.
  - apply IH. intros c' Hc'. apply Hne. right. exact Hc'.
Qed.

Lemma lookup_by_name_and_by_context_agree_witness :
  Forall plain (CommandCluster.cluster_commands
                  (loaded_cluster [ping; pin; pi])) /\
  passing [ping; pin; pi] ctx_ping = ([ping; pin; pi], None) /\
  map fst (CommandCluster.get_command_from_name
             (loaded_cluster [ping; pin; pi]) "ping now")
  = [ping; pin; pi].
Proof.
  assert (Hplain : Forall plain (CommandCluster.cluster_commands
                                   (loaded_cluster [ping; pin; pi]))).
  { repeat constructor. }
  assert (Hne : forall command_obj,
             In command_obj (CommandCluster.cluster_commands
                               (loaded_cluster [ping; pin; pi])) ->
             Command.check_prefix command_obj (Context.content ctx_ping)
             <> Some EmptyString).
  { cbn. intros c [<- | [<- | [<- | []]]]; discriminate. }
  split; [exact Hplain|].
  pose proof (lookup_by_name_and_by_context_agree
                (loaded_cluster [ping; pin; pi]) ctx_ping Hplain Hne) as H.
  split; [|reflexivity].
  etransitivity; [exact H | reflexivity].
Defined.

Lemma flat_map_commands_from_name (clusters_ : list (string * CommandCluster.t))
    content :
  flat_map (fun c => CommandCluster.get_command_from_name (snd c) content)
           clusters_
  = CommandCluster.commands_from_name
      (flat_map (fun c => CommandCluster.cluster_commands (snd c)) clusters_)
      content.
Proof.
  induction clusters_ as [|c rest IH]; cbn; [reflexivity|].
  rewrite commands_from_name_app, IH. reflexivity.
Qed.

(** X12.  [get_global_command_from_name] is lookup by name over the
    traversal order of dispatch: the client's own commands first, then
    those of each loaded cluster in insertion order.  Every command it
    yields is one of them, with the first of its triggers that prefixes
    the content. *)
Theorem get_global_command_from_name_follows_traversal self content :
  CommandClient.get_global_command_from_name self content
  = CommandCluster.commands_from_name (CommandClient.traversal self)
      content /\
  forall command_obj trigger_,
    In (command_obj, trigger_)
       (CommandClient.get_global_command_from_name self content) ->
    In command_obj (CommandClient.traversal self) /\
    first_such (fun t => startswith content t)
               (Command.triggers command_obj) trigger_.
Proof.
  unfold CommandClient.get_global_command_from_name,
    CommandClient.traversal.
  rewrite flat_map_commands_from_name.
  unfold CommandCluster.get_command_from_name.
  rewrite <- commands_from_name_app.
  split; [reflexivity|].
  induction (_ ++ _) as [|c rest IH]; cbn; [tauto|].
  intros c' t'.
  destruct (Command.check_prefix c content) as [t|] eqn:Ht.
  - destruct (truthy t); cbn.
    + intros [[= <- <-] | Hin].
      * split; [left; reflexivity|].
        apply find_first_such. rewrite <- Ht.
        symmetry. apply first_trigger_match_spec.
      * destruct (IH _ _ Hin). split; [right|]; assumption.
    + intros Hin. destruct (IH _ _ Hin). split; [right|]; assumption.
  - intros Hin. destruct (IH _ _ Hin). split; [right|]; assumption.
Qed.

Lemma get_global_command_from_name_follows_traversal_witness :
  In (pin, "pin")
     (CommandClient.get_global_command_from_name (client [ping; pin; pi])
        "pin 3") /\
  In pin (CommandClient.traversal (client [ping; pin; pi])) /\
  first_such (fun t => startswith "pin 3" t) (Command.triggers pin) "pin".
Proof.
  assert (H : In (pin, "pin")
                 (CommandClient.get_global_command_from_name
                    (client [ping; pin; pi]) "pin 3")).
  { left. reflexivity. }
  split; [exact H|].
  exact (proj2 (get_global_command_from_name_follows_traversal
                  (client [ping; pin; pi]) "pin 3") pin "pin" H).
Defined.

(** [check_prefix] of the client finds the first prefix tried that
    prefixes the content. *)
Lemma client_check_prefix_finds_first self message_ :
  (forall prefix,
      first_such (fun p => startswith (message_content message_) p)
        (CommandClient._get_prefixes self (guild_id message_)) prefix ->
      CommandClient.check_prefix self message_ = Some prefix) /\
  ((forall prefix,
       In prefix (CommandClient._get_prefixes self (guild_id message_)) ->
       startswith (message_content message_) prefix = false) ->
   CommandClient.check_prefix self message_ = None).
Proof.
  unfold CommandClient.check_prefix. rewrite first_prefix_find.
  split.
  - intros prefix. apply find_first_such.
  - apply find_none_all.
Qed.

(** X13.  A message whose content begins with none of the prefixes
    tried is ignored, and so is every message for which the first
    matching prefix is the empty string: an empty prefix in the list
    never triggers a command and hides the prefixes after it. *)
Theorem on_message_create_ignores_unprefixed self message_ :
  let tried := CommandClient._get_prefixes self (guild_id message_) in
  ((forall prefix, In prefix tried ->
                   startswith (message_content message_) prefix = false) ->
   CommandClient.on_message_create self message_
   = Some CommandClient.NoPrefix) /\
  (forall before after,
      tried = before ++ EmptyString :: after ->
      (forall prefix, In prefix before ->
                      startswith (message_content message_) prefix = false)
      ->
      CommandClient.on_message_create self message_
      = Some CommandClient.NoPrefix).
Proof.
  cbn zeta. unfold CommandClient.on_message_create.
  destruct (client_check_prefix_finds_first self message_)
    as [Hsome Hnone].
  split.
  - intros Hno. apply Hnone in Hno. rewrite Hno. reflexivity.
  - intros before after Htried Hno.
    assert (Hfirst : CommandClient.check_prefix self message_
                     = Some EmptyString).
    { apply Hsome. exists before, after. split; [exact Htried|].
      split; [apply startswith_empty | exact Hno]. }
    rewrite Hfirst. reflexivity.
Qed.

Lemma on_message_create_ignores_unprefixed_witness :
  (forall prefix,
      In prefix (CommandClient._get_prefixes (client [ping])
                   (guild_id (Build_Message 7 None 1 "ping now"))) ->
      startswith "ping now" prefix = false) /\
  CommandClient.on_message_create (client [ping])
    (Build_Message 7 None 1 "ping now")
  = Some CommandClient.NoPrefix.
Proof.
  assert (H : forall prefix,
             In prefix (CommandClient._get_prefixes (client [ping])
                          (guild_id (Build_Message 7 None 1 "ping now"))) ->
             startswith "ping now" prefix = false).
  { cbn. intros prefix [<- | [<- | []]]; reflexivity. }
  split; [exact H|].
  exact (proj1 (on_message_create_ignores_unprefixed (client [ping])
                  (Build_Message 7 None 1 "ping now")) H).
Defined.

Section PlainDispatch.

Variable self : CommandClient.t.
Variable message_ : Message.

Let test (rest : string) (c : Command.t) : bool :=
  triggered rest c && CommandClient.access_check self c message_.

(** The selection loop over plain commands: it stops at the first
    command that has a matching trigger and passes the access check,
    with that command and its trigger on the context; the rest of the
    context is as it was. *)
Lemma select_flat_plain commands ctx :
  Forall plain commands ->
  match List.find (test (Context.content ctx)) commands with
  | Some c =>
      exists t,
        Command.check_prefix c (Context.content ctx) = Some t /\
        select_flat self message_ commands ctx
        = ({| Context.command := Some (Command.oid c);
              Context.content := Context.content ctx;
              Context.message := Context.message ctx;
              Context.trigger := Context.trigger ctx;
              Context.trigger_type := Context.trigger_type ctx;
              Context.triggering_name := Some t |},
           CommandClient.Break c)
  | None =>
      exists ctx', select_flat self message_ commands ctx
                   = (ctx', CommandClient.Else)
  end.
Proof.
  revert ctx. induction commands as [|c rest IH]; intros ctx Hplain; cbn.
  - eauto.
  - apply Forall_cons in Hplain as [Hc Hrest].
    rewrite (check_of_plain c ctx Hc). unfold test at 1, triggered.
    destruct (Command.check_prefix c (Context.content ctx)) as [t|] eqn:Ht;
      cbn.
    + destruct (CommandClient.access_check self c message_).
      * exists t. rewrite Ht. split; reflexivity.
      * match goal with
        | |- context [select_flat _ _ rest ?c1] => specialize (IH c1 Hrest)
        end.
        exact IH.
    + match goal with
      | |- context [select_flat _ _ rest ?c1] => specialize (IH c1 Hrest)
      end.
      exact IH.
Qed.

End PlainDispatch.

(** X14.  Dispatch over plain commands.  Once a non-empty prefix has
    matched, [on_message_create] never raises; it executes the first
    command in traversal order that has a trigger prefixing the content
    after the prefix and that the author may access; the context handed
    to [execute] names that command and its first matching trigger, and
    its content is what follows the trigger and one further character;
    and when there is no such command, nothing is executed. *)
Theorem on_message_create_over_plain_commands self message_ prefix :
  Forall plain (CommandClient.traversal self) ->
  CommandClient.check_prefix self message_ = Some prefix ->
  prefix <> EmptyString ->
  let rest :=
    drop_chars (String.length prefix) (message_content message_) in
  let test := fun c => triggered rest c
                       && CommandClient.access_check self c message_ in
  (forall e, CommandClient.on_message_create self message_
             <> Some (CommandClient.Raises e)) /\
  (forall command_obj,
      first_such test (CommandClient.traversal self) command_obj ->
      exists trigger_,
        Command.check_prefix command_obj rest = Some trigger_ /\
        CommandClient.on_message_create self message_
        = Some (CommandClient.Execute command_obj
                  {| Context.command := Some (Command.oid command_obj);
                     Context.content :=
                       drop_chars (String.length trigger_ + 1) rest;
                     Context.message := message_;
                     Context.trigger := prefix;
                     Context.trigger_type := PREFIX;
                     Context.triggering_name := Some trigger_ |})) /\
  ((forall c, In c (CommandClient.traversal self) -> test c = false) ->
   CommandClient.on_message_create self message_
   = Some CommandClient.NoCommand).
Proof.
  intros Hplain Hprefix Hne. cbn zeta.
  rewrite on_message_create_flat. unfold initial_context.
  rewrite Hprefix. apply truthy_nonempty in Hne. rewrite Hne.
  pose proof (select_flat_plain self message_ (CommandClient.traversal self)
                (Context.init
                   (drop_chars (String.length prefix)
                      (message_content message_))
                   message_ prefix PREFIX) Hplain) as Hsel.
  cbn [Context.content Context.init] in Hsel.
  split; [|split].
  - intros e.
    destruct (List.find _ _) as [c|].
    + destruct Hsel as (t & _ & ->). cbn. discriminate.
    + destruct Hsel as (ctx' & ->). discriminate.
  - intros c Hfirst. apply find_first_such in Hfirst.
    rewrite Hfirst in Hsel. destruct Hsel as (t & Ht & ->).
    exists t. split; [exact Ht|].
    cbn [Context.triggering_name]. unfold Context.prune_content.
    cbn [Context.command Context.content Context.message Context.trigger
         Context.trigger_type Context.triggering_name].
    replace (Z.of_nat (String.length t) + 1)%Z
      with (Z.of_nat (String.length t + 1)) by lia.
    rewrite slice_from_nonneg. reflexivity.
  - intros Hnone. apply find_none_all in Hnone.
    rewrite Hnone in Hsel. destruct Hsel as (ctx' & ->). reflexivity.
Qed.

Lemma on_message_create_over_plain_commands_witness :
  Forall plain (CommandClient.traversal (client [pin; pi])) /\
  CommandClient.check_prefix (client [pin; pi]) alice = Some "!" /\
  first_such (fun c => triggered "ping now" c
                       && CommandClient.access_check (client [pin; pi]) c
                            alice)
             (CommandClient.traversal (client [pin; pi])) pi /\
  exists ctx,
    CommandClient.on_message_create (client [pin; pi]) alice
    = Some (CommandClient.Execute pi ctx) /\
    Context.content ctx = "g now".
Proof.
  assert (Hplain : Forall plain
                     (CommandClient.traversal (client [pin; pi]))).
  { repeat constructor. }
  assert (Hfirst : first_such
            (fun c => triggered "ping now" c
                      && CommandClient.access_check (client [pin; pi]) c
                           alice)
            (CommandClient.traversal (client [pin; pi])) pi).
  { exists [pin], []. split; [reflexivity|]. split; [reflexivity|].
    intros y [<- | []]. reflexivity. }
  split; [exact Hplain|]. split; [reflexivity|]. split; [exact Hfirst|].
  destruct (on_message_create_over_plain_commands (client [pin; pi]) alice
              "!" Hplain eq_refl ltac:(discriminate))
    as (_ & Hexec & _).
  destruct (Hexec pi Hfirst) as (t & Ht & ->).
  eexists. split; [reflexivity|].
  cbn in Ht. injection Ht as <-. reflexivity.
Defined.

(** Dicts in insertion order. *)
Lemma dict_get_set_eq {V : Type} key (value : V) d :
  dict_get key (dict_set key value d) = Some value.
Proof.
  induction d as [|[k v] d IH]; cbn.
  - rewrite String.eqb_refl. reflexivity.
  - destruct (String.eqb_spec k key) as [-> | Hne]; cbn.
    + rewrite String.eqb_refl. reflexivity.
    + destruct (String.eqb_spec k key); [contradiction | exact IH].
Qed.

Lemma dict_get_set_ne {V : Type} key other (value : V) d :
  other <> key ->
  dict_get other (dict_set key value d) = dict_get other d.
Proof.
  intros Hne. induction d as [|[k v] d IH]; cbn.
  - destruct (String.eqb_spec key other); [congruence | reflexivity].
  - destruct (String.eqb_spec k key) as [-> | Hk]; cbn.
    + destruct (String.eqb_spec key other); [congruence | reflexivity].
    + destruct (String.eqb_spec k other); [reflexivity | exact IH].
Qed.

Lemma dict_set_keys {V : Type} key (value : V) d :
  (In key (map fst d) -> map fst (dict_set key value d) = map fst d) /\
  (~ In key (map fst d) -> dict_set key value d = d ++ [(key, value)]).
Proof.
  induction d as [|[k v] d [IHin IHout]]; cbn.
  - split; [tauto | reflexivity].
  - destruct (String.eqb_spec k key) as [-> | Hk]; cbn.
    + split; [reflexivity | tauto].
    + split.
      * intros [? | Hin]; [contradiction|]. rewrite IHin by exact Hin.
        reflexivity.
      * intros Hout. rewrite IHout by tauto. reflexivity.
Qed.

(** Constructing a cluster cannot fail: [bind_commands] finds the
    command list empty. *)
Lemma cluster_init_returns class_name_ members_ bind :
  exists cluster warnings,
    CommandCluster.init class_name_ members_ bind = Ret (cluster, warnings)
    /\ CommandCluster.class_name cluster = class_name_.
Proof.
  unfold CommandCluster.init, CommandCluster.bind_commands. cbn.
  destruct bind; [|eauto].
  destruct (CommandCluster.bind_members _ _ _ _). eauto.
Qed.

(** X15.  [register_cluster] does not fail on [bind_commands]: a class
    is instantiated with an empty command list.  Afterwards the cluster
    is the one found under its class name and the clusters under other
    names are as before.  A cluster of a new class goes to the end of the
    dict, so its commands are tried last; a cluster of a class that is
    registered already takes the place of the earlier one, whose
    commands leave the dispatch. *)
Theorem register_cluster_registers self cluster :
  exists self' cluster_ warnings,
    CommandClient.register_cluster self cluster = Ret (self', warnings) /\
    match cluster with
    | CommandClient.an_instance given => cluster_ = given
    | CommandClient.a_class class_name_ members_ =>
        CommandCluster.init class_name_ members_ true
        = Ret (cluster_, warnings)
    end /\
    dict_get (CommandCluster.class_name cluster_)
      (CommandClient.clusters self') = Some cluster_ /\
    (forall other,
        other <> CommandCluster.class_name cluster_ ->
        dict_get other (CommandClient.clusters self')
        = dict_get other (CommandClient.clusters self)) /\
    (In (CommandCluster.class_name cluster_)
        (map fst (CommandClient.clusters self)) ->
     map fst (CommandClient.clusters self')
     = map fst (CommandClient.clusters self)) /\
    (~ In (CommandCluster.class_name cluster_)
          (map fst (CommandClient.clusters self)) ->
     CommandClient.traversal self'
     = CommandClient.traversal self
       ++ CommandCluster.cluster_commands cluster_).
Proof.
  unfold CommandClient.register_cluster.
  assert (Hinit : exists cluster_ warnings,
    match cluster with
    | CommandClient.a_class class_name_ members_ =>
        CommandCluster.init class_name_ members_ true
    | CommandClient.an_instance cluster_ => Ret (cluster_, [])
    end = Ret (cluster_, warnings) /\
    match cluster with
    | CommandClient.an_instance given => cluster_ = given
    | CommandClient.a_class class_name_ members_ =>
        CommandCluster.init class_name_ members_ true
        = Ret (cluster_, warnings)
    end).
  { destruct cluster as [n ms | given].
    - destruct (cluster_init_returns n ms true) as (c & w & H & _). eauto.
    - eauto. }
  destruct Hinit as (cluster_ & warnings & -> & Hkind).
  eexists _, cluster_, warnings. split; [reflexivity|].
  split; [exact Hkind|]. cbn [CommandClient.clusters].
  split; [apply dict_get_set_eq|].
  split; [intros other Hne; apply dict_get_set_ne; exact Hne|].
  destruct (dict_set_keys (CommandCluster.class_name cluster_) cluster_
              (CommandClient.clusters self)) as [Hin Hout].
  split; [exact Hin|].
  intros Hnew. unfold CommandClient.traversal. cbn.
  rewrite (Hout Hnew), flat_map_app, <- app_assoc. cbn.
  rewrite app_nil_r. reflexivity.
Qed.

Lemma register_cluster_registers_witness :
  ~ In "Extra" (map fst (CommandClient.clusters (client [pin]))) /\
  exists self' warnings,
    CommandClient.register_cluster (client [pin])
      (CommandClient.an_instance
         {| CommandCluster.class_name := "Extra";
            CommandCluster.members := [];
            CommandCluster.cluster_commands := [pi] |})
    = Ret (self', warnings) /\
    CommandClient.traversal self' = [pin; pi].
Proof.
  assert (Hnew : ~ In "Extra"
                     (map fst (CommandClient.clusters (client [pin])))).
  { cbn. intros [H | []]. discriminate. }
  split; [exact Hnew|].
  destruct (register_cluster_registers (client [pin])
              (CommandClient.an_instance
                 {| CommandCluster.class_name := "Extra";
                    CommandCluster.members := [];
                    CommandCluster.cluster_commands := [pi] |}))
    as (self' & cluster_ & warnings & Hreg & -> & _ & _ & _ & Htrav).
  exists self', warnings. split; [exact Hreg|].
  exact (Htrav Hnew).
Defined.

(** X16.  [execute] never lets a [CommandError] of the handler escape:
    it tries one reply with the error's text, suppresses a
    [PermissionError] of that reply, and dispatches no [ERROR] event.
    Every other exception of the handler escapes as it is, after exactly
    one [ERROR] event when the command belongs to a cluster and the
    exception derives from [Exception], and without any reply. *)
Theorem execute_classifies_failures self e text reply :
  (issubclass (exc_class e) CommandError = true ->
   fst (Command.execute self (Command.Failed e text) reply)
   = [Command.ReplyAttempt text] /\
   (forall raised,
       snd (Command.execute self (Command.Failed e text) reply)
       = Raise raised ->
       reply text = Raise raised /\
       issubclass (exc_class raised) PermissionError = false)) /\
  (issubclass (exc_class e) CommandError = false ->
   snd (Command.execute self (Command.Failed e text) reply) = Raise e /\
   fst (Command.execute self (Command.Failed e text) reply)
   = match Command._cluster self with
     | Some cluster =>
         if is_Exception e then [Command.ErrorEvent cluster e] else []
     | None => []
     end).
Proof.
  unfold Command.execute. split; intros ->.
  - destruct (reply text) as [[]|raised]; cbn.
    + split; [reflexivity | discriminate].
    + destruct (issubclass (exc_class raised) PermissionError) eqn:Hp; cbn.
      * split; [reflexivity | discriminate].
      * split; [reflexivity|]. intros r [= <-]. auto.
  - destruct (is_Exception e), (Command._cluster self); cbn; auto.
Qed.

Lemma execute_classifies_failures_witness :
  issubclass (exc_class (raise_ CommandError)) CommandError = true /\
  issubclass (exc_class (raise_ ValueError)) CommandError = false /\
  Command.execute (Command.bind_cluster ping "Basic")
    (Command.Failed (raise_ CommandError) "no such user")
    (fun _ => Raise (raise_ PermissionError))
  = ([Command.ReplyAttempt "no such user"], Ret tt) /\
  Command.execute (Command.bind_cluster ping "Basic")
    (Command.Failed (raise_ ValueError) "bad value") (fun _ => Ret tt)
  = ([Command.ErrorEvent "Basic" (raise_ ValueError)],
     Raise (raise_ ValueError)).
Proof.
  split; [reflexivity|]. split; [reflexivity|].
  destruct (execute_classifies_failures (Command.bind_cluster ping "Basic")
              (raise_ CommandError) "no such user"
              (fun _ => Raise (raise_ PermissionError))) as [Hce _].
  destruct (execute_classifies_failures (Command.bind_cluster ping "Basic")
              (raise_ ValueError) "bad value" (fun _ => Ret tt))
    as [_ Hother].
  destruct (Hother eq_refl) as [Hraise Hevents].
  destruct (Hce eq_refl) as [Hreply _].
  split.
  - rewrite (surjective_pairing (Command.execute _ _ _)), Hreply.
    reflexivity.
  - rewrite (surjective_pairing (Command.execute _ _ _)), Hraise, Hevents.
    reflexivity.
Defined.

(** ** The error managers, further *)

Section RulesFurther.

Variable break_on : list exc_type.

(** An exception that none of the rules takes propagates, and the
    iterator is left as it is. *)
Lemma exit_unmatched e handler :
  isinstance e InternalServerError = false ->
  isinstance e RateLimitedError = false ->
  issubclass_any (exc_class e) break_on = false ->
  ErrorManager.exit_ (HikariErrorManager.clear_rules break_on) e handler = (false, handler).
Proof.
  unfold isinstance. intros H5 Hr Hb.
  unfold HikariErrorManager.clear_rules, ErrorManager.with_rule,
    ErrorManager.clear_rules.
  destruct break_on as [|t ts] eqn:Hbo; cbn [app ErrorManager.exit_
    issubclass_any existsb]; rewrite H5, Hr; cbn [orb]; [reflexivity|].
  change (issubclass (exc_class e) t || existsb (issubclass (exc_class e)) ts)
    with (issubclass_any (exc_class e) (t :: ts)).
  rewrite Hb. reflexivity.
Qed.

(** What [__exit__] lets through: a rate limit with a hint above 10
    seconds, or an exception that no rule takes. *)
Lemma exit_lets_through e handler :
  fst (ErrorManager.exit_ (HikariErrorManager.clear_rules break_on) e handler) = false ->
  (isinstance e RateLimitedError = true /\ (10 < retry_after e)%Q) \/
  (isinstance e InternalServerError = false /\
   isinstance e RateLimitedError = false /\
   issubclass_any (exc_class e) break_on = false).
Proof.
  destruct (isinstance e InternalServerError) eqn:H5.
  { rewrite exit_internal_server_error by exact H5. discriminate. }
  destruct (isinstance e RateLimitedError) eqn:Hr.
  { rewrite exit_rate_limited_error by exact Hr.
    destruct (Qle_bool (retry_after e) 10) eqn:Hle; cbn; [discriminate|].
    intros _. left. split; [reflexivity|].
    apply Qnot_le_lt. intros Hq. apply Qle_bool_iff in Hq. congruence. }
  destruct (issubclass_any (exc_class e) break_on) eqn:Hb.
  { rewrite exit_break_on by assumption. discriminate. }
  auto.
Qed.

(** The rules only ever finish the iterator or set its next delay: the
    bound, the schedule and the count of permits given stay. *)
Lemma exit_keeps_count e handler :
  let handler' := snd (ErrorManager.exit_ (HikariErrorManager.clear_rules break_on) e handler) in
  Backoff.max_retries handler' = Backoff.max_retries handler /\
  Backoff.schedule handler' = Backoff.schedule handler /\
  Backoff.retries handler' = Backoff.retries handler.
Proof.
  cbn zeta.
  destruct (isinstance e InternalServerError) eqn:H5.
  { rewrite exit_internal_server_error by exact H5. auto. }
  destruct (isinstance e RateLimitedError) eqn:Hr.
  { rewrite exit_rate_limited_error by exact Hr.
    destruct (negb _); cbn; auto. }
  destruct (issubclass_any (exc_class e) break_on) eqn:Hb.
  { rewrite exit_break_on by assumption. cbn. auto. }
  rewrite exit_unmatched by assumption. auto.
Qed.

End RulesFurther.

(** A permit keeps the bound and the schedule, counts one more, and is
    preceded by a sleep exactly when it is not the first. *)
Lemma anext_keeps handler slept handler1 :
  Backoff.anext handler = Some (slept, handler1) ->
  Backoff.max_retries handler1 = Backoff.max_retries handler /\
  Backoff.schedule handler1 = Backoff.schedule handler /\
  Backoff.retries handler1 = S (Backoff.retries handler) /\
  (slept = None <-> Backoff.retries handler = 0).
Proof.
  unfold Backoff.anext.
  destruct (Backoff.finished handler || Backoff.is_depleted handler);
    [discriminate|].
  destruct (Backoff.retries handler) as [|k]; intros [= <- <-]; cbn;
    repeat split; try reflexivity; try discriminate; auto.
Qed.

(** The retry loop keeps the bound and the schedule of its iterator. *)
Lemma respond_loop_keeps break_on answers :
  forall handler events end_ handler',
    HikariErrorManager.respond_loop
      (HikariErrorManager.clear_rules break_on) answers handler
    = (events, end_, handler') ->
    Backoff.max_retries handler' = Backoff.max_retries handler /\
    Backoff.schedule handler' = Backoff.schedule handler.
Proof.
  induction answers as [|[e|] rest IH]; intros handler events end_ handler';
    cbn [HikariErrorManager.respond_loop];
    (destruct (Backoff.anext handler) as [[slept handler1]|] eqn:Hnext;
     [apply anext_keeps in Hnext as (Hm1 & Hs1 & _)
     | intros [= _ _ <-]; auto]).
  - intros [= _ _ <-]. auto.
  - pose proof (exit_keeps_count break_on e handler1) as (Hm2 & Hs2 & _).
    destruct (ErrorManager.exit_ _ e handler1) as [[|] handler2];
      cbn in Hm2, Hs2.
    + destruct (HikariErrorManager.respond_loop _ rest handler2)
        as [[ev en] handler3] eqn:Hloop.
      intros [= _ _ <-]. destruct (IH _ _ _ _ Hloop) as [Hm3 Hs3].
      split; congruence.
    + intros [= _ _ <-]. split; congruence.
  - intros [= _ _ <-]. auto.
Qed.

(** X17.  What [try_respond] lets escape, whatever the remote side
    answers: only a rate-limit error with a hint above 10 seconds, or an
    exception that is neither a server error, nor a rate-limit error,
    nor an instance of a [break_on] class.  And an exception of these
    kinds escapes at once: no further attempt follows it. *)
Theorem try_respond_propagates_exactly self break_on :
  HikariErrorManager._rules self = HikariErrorManager.clear_rules break_on ->
  (forall answers e,
      snd (fst (HikariErrorManager.try_respond self answers))
      = HikariErrorManager.Propagated e ->
      (isinstance e RateLimitedError = true /\ (10 < retry_after e)%Q) \/
      (isinstance e InternalServerError = false /\
       isinstance e RateLimitedError = false /\
       issubclass_any (exc_class e) break_on = false)) /\
  (forall answers e,
      allows (HikariErrorManager._backoff_handler self) 1 ->
      isinstance e InternalServerError = false ->
      isinstance e RateLimitedError = false ->
      issubclass_any (exc_class e) break_on = false ->
      fst (HikariErrorManager.try_respond self (Some e :: answers))
      = ([HikariErrorManager.Respond (Some e)],
         HikariErrorManager.Propagated e)).
Proof.
  intros Hrules. split.
  - intros answers e Hprop. unfold HikariErrorManager.try_respond in Hprop.
    destruct (HikariErrorManager.respond_loop _ answers _)
      as [[events end_] handler3] eqn:Hloop.
    cbn in Hprop. subst end_.
    apply respond_loop_propagated in Hloop as [h Hh].
    rewrite Hrules in Hh. eapply exit_lets_through. exact Hh.
  - intros answers e Hone H5 Hr Hb.
    unfold HikariErrorManager.try_respond.
    cbn [HikariErrorManager.respond_loop].
    rewrite anext_after_reset by assumption.
    rewrite Hrules, exit_unmatched by assumption. reflexivity.
Qed.

Lemma try_respond_propagates_exactly_witness :
  HikariErrorManager._rules hooks_manager
  = HikariErrorManager.clear_rules [ForbiddenError; NotFoundError] /\
  allows (HikariErrorManager._backoff_handler hooks_manager) 1 /\
  isinstance (raise_ ValueError) InternalServerError = false /\
  isinstance (raise_ ValueError) RateLimitedError = false /\
  issubclass_any (exc_class (raise_ ValueError))
    [ForbiddenError; NotFoundError] = false /\
  fst (HikariErrorManager.try_respond hooks_manager
         [Some (raise_ ValueError); None])
  = ([HikariErrorManager.Respond (Some (raise_ ValueError))],
     HikariErrorManager.Propagated (raise_ ValueError)).
Proof.
  assert (H1 : allows (HikariErrorManager._backoff_handler hooks_manager) 1).
  { cbn. lia. }
  split; [reflexivity|]. split; [exact H1|]. split; [reflexivity|].
  split; [reflexivity|]. split; [reflexivity|].
  exact (proj2 (try_respond_propagates_exactly hooks_manager
                  [ForbiddenError; NotFoundError] eq_refl)
           [None] (raise_ ValueError) H1 eq_refl eq_refl eq_refl).
Defined.

(** X18.  [try_respond] starts from a reset iterator, so what an earlier
    call left behind (permits used up, a pending delay, a finished
    iterator) has no bearing on the next call: a manager that holds the
    iterator of an earlier call behaves as the manager did at first. *)
Theorem try_respond_is_reusable self break_on earlier answers :
  HikariErrorManager._rules self = HikariErrorManager.clear_rules break_on ->
  let used := snd (HikariErrorManager.try_respond self earlier) in
  HikariErrorManager.try_respond
    {| HikariErrorManager._backoff_handler := used;
       HikariErrorManager._rules := HikariErrorManager._rules self |}
    answers
  = HikariErrorManager.try_respond self answers.
Proof.
  intros Hrules. cbn zeta. unfold HikariErrorManager.try_respond at 1 3.
  cbn [HikariErrorManager._backoff_handler HikariErrorManager._rules].
  f_equal. unfold Backoff.reset.
  unfold HikariErrorManager.try_respond.
  destruct (HikariErrorManager.respond_loop _ earlier _)
    as [[events end_] used] eqn:Hloop.
  rewrite Hrules in Hloop.
  apply respond_loop_keeps in Hloop as [Hm Hs]. cbn in *. congruence.
Qed.

Lemma try_respond_is_reusable_witness :
  HikariErrorManager._rules hooks_manager
  = HikariErrorManager.clear_rules [ForbiddenError; NotFoundError] /\
  HikariErrorManager.try_respond
    {| HikariErrorManager._backoff_handler :=
         snd (HikariErrorManager.try_respond hooks_manager
                [Some (raise_ ForbiddenError)]);
       HikariErrorManager._rules := HikariErrorManager._rules hooks_manager |}
    [None]
  = HikariErrorManager.try_respond hooks_manager [None].
Proof.
  split; [reflexivity|].
  exact (try_respond_is_reusable hooks_manager
           [ForbiddenError; NotFoundError]
           [Some (raise_ ForbiddenError)] [None] eq_refl).
Defined.

Lemma paced_sleep_first (slept : option Q) tail :
  paced true tail = true ->
  forall k : nat,
    (slept = None <-> k = 0) ->
    paced (k =? 0)%nat
      (match slept with
       | Some d => [HikariErrorManager.Sleep d]
       | None => []
       end ++ tail) = true.
Proof.
  intros Htail k Hk. destruct slept as [d|]; destruct k as [|k]; cbn.
  - destruct Hk as [_ Hk]. specialize (Hk eq_refl). discriminate.
  - exact Htail.
  - exact Htail.
  - destruct Hk as [Hk _]. specialize (Hk eq_refl). discriminate.
Qed.

(** In the retry loop every attempt but the very first is preceded by a
    sleep, and no sleep follows another. *)
Lemma respond_loop_paced break_on answers :
  forall handler events end_ handler',
    HikariErrorManager.respond_loop
      (HikariErrorManager.clear_rules break_on) answers handler
    = (events, end_, handler') ->
    paced (Backoff.retries handler =? 0)%nat events = true.
Proof.
  induction answers as [|[e|] rest IH]; intros handler events end_ handler';
    cbn [HikariErrorManager.respond_loop];
    (destruct (Backoff.anext handler) as [[slept handler1]|] eqn:Hnext;
     [apply anext_keeps in Hnext as (_ & _ & Hcount & Hslept)
     | intros [= <- _ _]; reflexivity]).
  - intros [= <- _ _].
    destruct slept as [d|]; destruct (Backoff.retries handler) as [|k];
      cbn; try reflexivity.
    destruct Hslept as [_ Hk]. specialize (Hk eq_refl). discriminate.
  - pose proof (exit_keeps_count break_on e handler1) as (_ & _ & Hsame).
    destruct (ErrorManager.exit_ _ e handler1) as [[|] handler2];
      cbn in Hsame.
    + destruct (HikariErrorManager.respond_loop _ rest handler2)
        as [[ev en] handler3] eqn:Hloop.
      intros [= <- _ _]. apply IH in Hloop.
      rewrite Hsame, Hcount in Hloop. cbn in Hloop.
      apply paced_sleep_first; [cbn; exact Hloop | exact Hslept].
    + intros [= <- _ _]. apply paced_sleep_first; [reflexivity | exact Hslept].
  - intros [= <- _ _]. apply paced_sleep_first; [reflexivity | exact Hslept].
Qed.

Lemma anext_has_left handler n permit :
  Backoff.max_retries handler = Some n ->
  Backoff.anext handler = Some permit ->
  Backoff.retries handler < n.
Proof.
  unfold Backoff.anext, Backoff.is_depleted. intros ->.
  destruct (Backoff.finished handler); [discriminate|]. cbn [orb].
  destruct (n <=? Backoff.retries handler)%nat eqn:Hle; [discriminate|].
  intros _. apply Nat.leb_gt in Hle. exact Hle.
Qed.

(** The loop makes no more attempts than its iterator has permits
    left. *)
Lemma respond_loop_bounded break_on n answers :
  forall handler events end_ handler',
    Backoff.max_retries handler = Some n ->
    HikariErrorManager.respond_loop
      (HikariErrorManager.clear_rules break_on) answers handler
    = (events, end_, handler') ->
    attempts events <= n - Backoff.retries handler.
Proof.
  assert (Hbefore : forall (slept : option Q) tail,
    attempts (match slept with
              | Some d => [HikariErrorManager.Sleep d]
              | None => []
              end ++ tail) = attempts tail).
  { intros [d|] tail; reflexivity. }
  induction answers as [|[e|] rest IH]; intros handler events end_ handler' Hn;
    cbn [HikariErrorManager.respond_loop];
    (destruct (Backoff.anext handler) as [[slept handler1]|] eqn:Hnext;
     [ | intros [= <- _ _]; cbn; lia]).
  all: pose proof (anext_has_left _ _ _ Hn Hnext) as Hleft.
  all: apply anext_keeps in Hnext as (Hmax & _ & Hcount & _).
  - intros [= <- _ _]. rewrite <- (app_nil_r (match slept with
      | Some d => _ | None => _ end)), Hbefore. cbn. lia.
  - pose proof (exit_keeps_count break_on e handler1) as (Hmax2 & _ & Hsame).
    destruct (ErrorManager.exit_ _ e handler1) as [[|] handler2];
      cbn in Hmax2, Hsame.
    + destruct (HikariErrorManager.respond_loop _ rest handler2)
        as [[ev en] handler3] eqn:Hloop.
      intros [= <- _ _]. apply IH in Hloop; [|congruence].
      rewrite Hbefore. cbn. lia.
    + intros [= <- _ _]. rewrite Hbefore. cbn. lia.
  - intros [= <- _ _]. rewrite Hbefore. cbn. lia.
Qed.

(** X19.  [try_respond] never retries without backing off: in its trace
    the first event, if any, is an attempt, every further attempt comes
    right after a sleep, and no two sleeps follow each other. *)
Theorem try_respond_sleeps_between_attempts self break_on answers :
  HikariErrorManager._rules self = HikariErrorManager.clear_rules break_on ->
  paced true (fst (fst (HikariErrorManager.try_respond self answers))) = true.
Proof.
  intros Hrules. unfold HikariErrorManager.try_respond. rewrite Hrules.
  destruct (HikariErrorManager.respond_loop _ answers _)
    as [[events end_] handler'] eqn:Hloop.
  apply respond_loop_paced in Hloop. exact Hloop.
Qed.

Lemma try_respond_sleeps_between_attempts_witness :
  HikariErrorManager._rules manager = HikariErrorManager.clear_rules [] /\
  paced true
    (fst (fst (HikariErrorManager.try_respond manager
                 [Some (raise_ InternalServerError);
                  Some (rate_limited 3); None]))) = true.
Proof.
  split; [reflexivity|].
  exact (try_respond_sleeps_between_attempts manager []
           [Some (raise_ InternalServerError); Some (rate_limited 3); None]
           eq_refl).
Defined.

(** X20.  With the iterator the spec describes (at most [max_retries]
    permits, the first one included), [try_respond] calls [ctx.respond]
    at most [max_retries] times, whatever the remote side answers and
    whatever state the iterator was in before the call. *)
Theorem try_respond_attempts_are_bounded self break_on n answers :
  HikariErrorManager._rules self = HikariErrorManager.clear_rules break_on ->
  Backoff.max_retries (HikariErrorManager._backoff_handler self) = Some n ->
  attempts (fst (fst (HikariErrorManager.try_respond self answers))) <= n.
Proof.
  intros Hrules Hn. unfold HikariErrorManager.try_respond. rewrite Hrules.
  destruct (HikariErrorManager.respond_loop _ answers _)
    as [[events end_] handler'] eqn:Hloop.
  apply (respond_loop_bounded break_on n) in Hloop; [|exact Hn].
  cbn in *. lia.
Qed.

Lemma try_respond_attempts_are_bounded_witness :
  HikariErrorManager._rules hooks_manager
  = HikariErrorManager.clear_rules [ForbiddenError; NotFoundError] /\
  Backoff.max_retries (HikariErrorManager._backoff_handler hooks_manager)
  = Some 5 /\
  attempts
    (fst (fst (HikariErrorManager.try_respond hooks_manager
                 (repeat (Some (raise_ InternalServerError)) 8)))) <= 5.
Proof.
  split; [reflexivity|]. split; [reflexivity|].
  exact (try_respond_attempts_are_bounded hooks_manager
           [ForbiddenError; NotFoundError] 5
           (repeat (Some (raise_ InternalServerError)) 8) eq_refl eq_refl).
Defined.

(** Every permit after the first follows a sleep: the overriding delay
    if one has been set, the scheduled one otherwise; the override is
    forgotten once used. *)
Lemma anext_later max_retries_ schedule_ k next :
  match max_retries_ with Some m => S (S k) <= m | None => True end ->
  Backoff.anext
    {| Backoff.max_retries := max_retries_; Backoff.schedule := schedule_;
       Backoff.retries := S k; Backoff.finished := false;
       Backoff.next_backoff := next |}
  = Some (Some (match next with Some d => d | None => schedule_ (S k) end),
          {| Backoff.max_retries := max_retries_;
             Backoff.schedule := schedule_;
             Backoff.retries := S (S k); Backoff.finished := false;
             Backoff.next_backoff := None |}).
Proof.
  unfold Backoff.anext, Backoff.is_depleted.
  cbn [Backoff.finished Backoff.max_retries Backoff.retries orb
       Backoff.schedule Backoff.next_backoff].
  destruct max_retries_ as [n|]; [|reflexivity].
  intros Hn. destruct (Nat.leb_spec n (S k)); [lia | reflexivity].
Qed.

(** X21.  A short rate-limit hint replaces one delay only: the sleep
    after the rate-limited attempt lasts what the remote side asked for,
    and the sleep after the next failed attempt is again the one the
    iterator's schedule gives. *)
Theorem rate_limit_hint_is_used_once self break_on limited e a more :
  HikariErrorManager._rules self = HikariErrorManager.clear_rules break_on ->
  allows (HikariErrorManager._backoff_handler self) 3 ->
  isinstance limited RateLimitedError = true ->
  (retry_after limited <= 10)%Q ->
  isinstance e InternalServerError = true ->
  exists rest,
    fst (fst (HikariErrorManager.try_respond self
                (Some limited :: Some e :: a :: more)))
    = HikariErrorManager.Respond (Some limited)
      :: HikariErrorManager.Sleep (retry_after limited)
      :: HikariErrorManager.Respond (Some e)
      :: HikariErrorManager.Sleep
           (Backoff.schedule (HikariErrorManager._backoff_handler self) 2)
      :: HikariErrorManager.Respond a :: rest.
Proof.
  intros Hrules Hthree Hlimited Hshort He.
  assert (Hone : allows (HikariErrorManager._backoff_handler self) 1).
  { unfold allows in *. destruct (Backoff.max_retries _); [lia | exact I]. }
  unfold HikariErrorManager.try_respond. rewrite Hrules.
  cbn [HikariErrorManager.respond_loop].
  rewrite anext_after_reset by exact Hone.
  rewrite exit_rate_limited_error by exact Hlimited.
  rewrite retry_after_short by exact Hshort.
  unfold Backoff.set_next_backoff. cbn [Backoff.max_retries Backoff.schedule
    Backoff.retries Backoff.finished Backoff.next_backoff].
  cbn [HikariErrorManager.respond_loop].
  rewrite anext_later
    by (unfold allows in Hthree; destruct (Backoff.max_retries _);
        [lia | exact I]).
  rewrite exit_internal_server_error by exact He.
  cbn [HikariErrorManager.respond_loop].
  rewrite anext_later
    by (unfold allows in Hthree; destruct (Backoff.max_retries _);
        [lia | exact I]).
  destruct a as [e2|].
  - destruct (ErrorManager.exit_ _ e2 _) as [[|] handler2].
    + destruct (HikariErrorManager.respond_loop _ more handler2)
        as [[ev en] handler3].
      cbn. eexists. reflexivity.
    + cbn. eexists. reflexivity.
  - cbn. eexists. reflexivity.
Qed.

Lemma rate_limit_hint_is_used_once_witness :
  HikariErrorManager._rules manager = HikariErrorManager.clear_rules [] /\
  allows (HikariErrorManager._backoff_handler manager) 3 /\
  isinstance (rate_limited 3) RateLimitedError = true /\
  (retry_after (rate_limited 3) <= 10)%Q /\
  isinstance (raise_ InternalServerError) InternalServerError = true /\
  exists rest,
    fst (fst (HikariErrorManager.try_respond manager
                [Some (rate_limited 3); Some (raise_ InternalServerError);
                 None]))
    = HikariErrorManager.Respond (Some (rate_limited 3))
      :: HikariErrorManager.Sleep (retry_after (rate_limited 3))
      :: HikariErrorManager.Respond (Some (raise_ InternalServerError))
      :: HikariErrorManager.Sleep
           (Backoff.schedule (HikariErrorManager._backoff_handler manager) 2)
      :: HikariErrorManager.Respond None :: rest.
Proof.
  assert (H3 : allows (HikariErrorManager._backoff_handler manager) 3).
  { cbn. lia. }
  assert (Hq : (retry_after (rate_limited 3) <= 10)%Q).
  { cbn. unfold Qle. cbn. lia. }
  split; [reflexivity|]. split; [exact H3|]. split; [reflexivity|].
  split; [exact Hq|]. split; [reflexivity|].
  exact (rate_limit_hint_is_used_once manager [] (rate_limited 3)
           (raise_ InternalServerError) None [] eq_refl H3 eq_refl Hq eq_refl).
Defined.







(** ** The hooks *)

(** The iterator gives a permit as long as it is not finished and has
    permits left. *)
Lemma anext_permits handler n :
  Backoff.finished handler = false ->
  Backoff.max_retries handler = Some n ->
  Backoff.retries handler < n ->
  exists slept handler1,
    Backoff.anext handler = Some (slept, handler1) /\
    Backoff.finished handler1 = false /\
    Backoff.max_retries handler1 = Some n /\
    Backoff.retries handler1 = S (Backoff.retries handler).
Proof.
  intros Hf Hn Hleft. unfold Backoff.anext, Backoff.is_depleted.
  rewrite Hf, Hn. cbn [orb].
  destruct (Nat.leb_spec n (Backoff.retries handler)); [lia|].
  destruct (Backoff.retries handler) as [|k]; eexists _, _;
    (split; [reflexivity|]); cbn; auto.
Qed.

(** A retryable failure is suppressed, and the iterator stays
    unfinished. *)
Lemma exit_retryable break_on e handler :
  retryable e = true ->
  exists handler',
    ErrorManager.exit_ (HikariErrorManager.clear_rules break_on) e handler
    = (true, handler') /\
    Backoff.finished handler' = Backoff.finished handler /\
    Backoff.max_retries handler' = Backoff.max_retries handler /\
    Backoff.retries handler' = Backoff.retries handler.
Proof.
  unfold retryable. intros Hretry.
  destruct (isinstance e InternalServerError) eqn:H5.
  { rewrite exit_internal_server_error by exact H5. eauto. }
  cbn [orb] in Hretry. apply andb_true_iff in Hretry as [Hr Hshort].
  rewrite exit_rate_limited_error by exact Hr. rewrite Hshort. cbn [negb].
  eexists. split; [reflexivity|]. cbn. auto.
Qed.

(** The retry loop gives up at the first failure of a [break_on] class,
    provided the failures before it were retryable and the iterator had
    permits for them: what the remote side would have answered
    afterwards is never asked for. *)
Lemma respond_loop_breaks break_on n e before :
  isinstance e InternalServerError = false ->
  isinstance e RateLimitedError = false ->
  issubclass_any (exc_class e) break_on = true ->
  Forall (fun failure => retryable failure = true) before ->
  forall handler,
    Backoff.finished handler = false ->
    Backoff.max_retries handler = Some n ->
    Backoff.retries handler + length before < n ->
    exists events handler',
      attempts events = S (length before) /\
      forall more,
        HikariErrorManager.respond_loop
          (HikariErrorManager.clear_rules break_on)
          (map Some before ++ Some e :: more) handler
        = (events, HikariErrorManager.GaveUp, handler').
Proof.
  intros H5 Hr Hb Hbefore.
  assert (Hskip : forall (slept : option Q) tail,
    attempts (match slept with
              | Some d => [HikariErrorManager.Sleep d]
              | None => []
              end ++ tail) = attempts tail).
  { intros [d|] tail; reflexivity. }
  induction Hbefore as [|failure before Hfailure _ IH];
    intros handler Hf Hn Hleft; cbn [length] in Hleft.
  - destruct (anext_permits handler n Hf Hn ltac:(lia))
      as (slept & handler1 & Hnext & Hf1 & Hn1 & Hcount).
    eexists _, _. split; [|intros more].
    2: { cbn [map app HikariErrorManager.respond_loop]. rewrite Hnext.
         rewrite exit_break_on by assumption.
         destruct more as [|a more];
           cbn [HikariErrorManager.respond_loop];
           unfold Backoff.anext; cbn [Backoff.finish Backoff.finished orb];
           reflexivity. }
    rewrite Hskip. reflexivity.
  - destruct (anext_permits handler n Hf Hn ltac:(lia))
      as (slept & handler1 & Hnext & Hf1 & Hn1 & Hcount).
    destruct (exit_retryable break_on failure handler1 Hfailure)
      as (handler2 & Hexit & Hf2 & Hn2 & Hcount2).
    destruct (IH handler2) as (events & handler' & Hattempts & Hloop);
      [congruence | congruence | lia |].
    eexists _, _. split; [|intros more].
    2: { cbn [map app HikariErrorManager.respond_loop]. rewrite Hnext, Hexit.
         rewrite Hloop. reflexivity. }
    rewrite Hskip. cbn [attempts length]. rewrite Hattempts. reflexivity.
Qed.

(** Permission and lookup failures are neither server errors nor rate
    limits. *)
Lemma forbidden_or_not_found_is_plain e :
  issubclass_any (exc_class e) [ForbiddenError; NotFoundError] = true ->
  isinstance e InternalServerError = false /\
  isinstance e RateLimitedError = false.
Proof.
  unfold isinstance. destruct (exc_class e); vm_compute; intuition congruence.
Qed.

(** X24.  Both hooks give up without an exception as soon as the
    response is refused with a [ForbiddenError] or a [NotFoundError],
    also after retryable failures (server errors and short rate limits;
    up to four of them, the iterator having five permits): the refused
    attempt is the last one, and the exception does not leave the
    hook. *)
Theorem hooks_give_up_when_refused schedule_ e before :
  issubclass_any (exc_class e) [ForbiddenError; NotFoundError] = true ->
  Forall (fun failure => retryable failure = true) before ->
  length before < 5 ->
  exists events handler',
    attempts events = S (length before) /\
    forall more,
      Hooks.on_error schedule_ (map Some before ++ Some e :: more)
      = (events, HikariErrorManager.GaveUp, handler') /\
      Hooks.on_parser_error schedule_ (map Some before ++ Some e :: more)
      = (events, HikariErrorManager.GaveUp, handler').
Proof.
  intros Hrefused Hbefore Hfew.
  destruct (forbidden_or_not_found_is_plain e Hrefused) as [H5 Hr].
  destruct (respond_loop_breaks [ForbiddenError; NotFoundError] 5 e before
              H5 Hr Hrefused Hbefore (Backoff.init (Some 5) schedule_)
              eq_refl eq_refl ltac:(cbn; lia))
    as (events & handler' & Hattempts & Hloop).
  exists events, handler'. split; [exact Hattempts|].
  intros more. split; apply Hloop.
Qed.

Lemma hooks_give_up_when_refused_witness :
  issubclass_any (exc_class (raise_ ForbiddenError))
    [ForbiddenError; NotFoundError] = true /\
  Forall (fun failure => retryable failure = true)
    [raise_ InternalServerError; rate_limited 3] /\
  length [raise_ InternalServerError; rate_limited 3] < 5 /\
  exists events handler',
    attempts events = 3 /\
    forall more,
      Hooks.on_error doubling
        (map Some [raise_ InternalServerError; rate_limited 3]
         ++ Some (raise_ ForbiddenError) :: more)
      = (events, HikariErrorManager.GaveUp, handler') /\
      Hooks.on_parser_error doubling
        (map Some [raise_ InternalServerError; rate_limited 3]
         ++ Some (raise_ ForbiddenError) :: more)
      = (events, HikariErrorManager.GaveUp, handler').
Proof.
  assert (Hretry : Forall (fun failure => retryable failure = true)
                     [raise_ InternalServerError; rate_limited 3]).
  { repeat constructor. }
  assert (Hfew : length [raise_ InternalServerError; rate_limited 3] < 5).
  { cbn. lia. }
  split; [reflexivity|]. split; [exact Hretry|]. split; [exact Hfew|].
  exact (hooks_give_up_when_refused doubling (raise_ ForbiddenError)
           [raise_ InternalServerError; rate_limited 3]
           eq_refl Hretry Hfew).
Defined.

(** X25.  The description [on_error] puts in its embed is the code-block
    frame of 13 characters around at most 1950 characters of the
    exception's text: it never exceeds 1963 characters, however long
    the text is, and a text of at most 1950 characters is kept whole. *)
Theorem error_description_is_bounded text :
  String.length (Hooks.error_description text)
  = 13 + Nat.min 1950 (String.length text) /\
  String.length (Hooks.error_description text) <= 1963 /\
  (String.length text <= 1950 ->
   Hooks.error_description text
   = (("```python" ++ String "010"%char EmptyString) ++ text ++ "```")%string).
Proof.
  unfold Hooks.error_description.
  assert (Hlen : String.length
            (("```python" ++ String "010"%char EmptyString)
             ++ take_chars 1950 text ++ "```")%string
          = 13 + Nat.min 1950 (String.length text)).
  { rewrite !string_app_length, take_chars_length.
    cbn [String.length]. lia. }
  split; [exact Hlen|]. split; [rewrite Hlen; lia|].
  intros Hshort. rewrite take_chars_all by exact Hshort. reflexivity.
Qed.

Lemma error_description_is_bounded_witness :
  String.length "boom" <= 1950 /\
  Hooks.error_description "boom"
  = (("```python" ++ String "010"%char EmptyString) ++ "boom" ++ "```")%string.
Proof.
  assert (Hshort : String.length "boom" <= 1950).
  { cbn [String.length]. lia. }
  split; [exact Hshort|].
  exact (proj2 (proj2 (error_description_is_bounded "boom")) Hshort).
Defined.

(** ** Event listeners of a cluster *)

(** X26.  [get_cluster_event_listeners] gives exactly the coroutine
    members whose name starts with [on_], under the name without these
    three characters: a function is listed for an event precisely when
    the cluster has it as the member [on_] + event. *)
Theorem get_cluster_event_listeners_strips_on coroutines event function :
  In (event, function)
     (CommandCluster.get_cluster_event_listeners coroutines)
  <-> In (("on_" ++ event)%string, function) coroutines.
Proof.
  unfold CommandCluster.get_cluster_event_listeners.
  rewrite in_map_iff. split.
  - intros ([name function'] & Heq & Hin).
    apply List.filter_In in Hin as [Hin Hstarts]. cbn [fst snd] in *.
    apply startswith_iff in Hstarts as [rest ->].
    pose proof (drop_chars_app "on_" rest) as Hdrop.
    change (drop_chars 3 ("on_" ++ rest)%string = rest) in Hdrop.
    rewrite Hdrop in Heq. injection Heq as <- <-. exact Hin.
  - intros Hin. exists (("on_" ++ event)%string, function).
    cbn [fst snd]. split.
    + pose proof (drop_chars_app "on_" event) as Hdrop.
      change (drop_chars 3 ("on_" ++ event)%string = event) in Hdrop.
      rewrite Hdrop. reflexivity.
    + apply List.filter_In. split; [exact Hin|]. cbn [fst].
      apply startswith_app.
Qed.

Lemma get_cluster_event_listeners_strips_on_witness :
  In (("on_" ++ "message_create")%string, 11)
     [("bind_commands", 10); ("on_message_create", 11)] /\
  In ("message_create", 11)
     (CommandCluster.get_cluster_event_listeners
        [("bind_commands", 10); ("on_message_create", 11)]).
Proof.
  assert (Hmember : In (("on_" ++ "message_create")%string, 11)
                      [("bind_commands", 10); ("on_message_create", 11)]).
  { right. left. reflexivity. }
  split; [exact Hmember|].
  exact (proj2 (get_cluster_event_listeners_strips_on
                  [("bind_commands", 10); ("on_message_create", 11)]
                  "message_create" 11) Hmember).
Defined.

(** ** Loading modules *)

(** Consuming a loadable logs overlaps and nothing else. *)
Lemma consume_reports_no_module self item :
  reported_empty
    (snd (fst (ReinhardCommandClient._consume_client_loadable self item)))
  = [].
Proof.
  assert (Hmap : forall warnings,
    reported_empty (map ReinhardCommandClient.overlapping_trigger warnings)
    = []).
  { induction warnings as [|w ws IH]; [reflexivity | exact IH]. }
  destruct item as [class_name_ members_ | command_obj | call | type_name];
    cbn [ReinhardCommandClient._consume_client_loadable].
  - destruct (CommandClient.register_cluster _ _) as [[self' warnings]|e];
      cbn [fst snd]; [apply Hmap | reflexivity].
  - destruct (CommandClient.register_command _ _ _) as [self' warnings].
    cbn [fst snd]. apply Hmap.
  - destruct (call self) as [self' [e|]]; reflexivity.
  - reflexivity.
Qed.

Lemma reported_empty_app logged later :
  reported_empty (logged ++ later)
  = reported_empty logged ++ reported_empty later.
Proof. unfold reported_empty. apply flat_map_app. Qed.

(** The [else] of the export loop runs whenever the loop runs to its
    end. *)
Lemma load_exports_reports self module items :
  snd (ReinhardCommandClient.load_exports self module items) = None ->
  reported_empty
    (snd (fst (ReinhardCommandClient.load_exports self module items)))
  = [ReinhardCommandClient.module_path module].
Proof.
  revert self. induction items as [|item rest IH]; intros self;
    cbn [ReinhardCommandClient.load_exports]; [reflexivity|].
  destruct (ReinhardCommandClient.attributes module !! item) as [found|];
    [|discriminate].
  pose proof (consume_reports_no_module self found) as Hconsume.
  destruct (ReinhardCommandClient._consume_client_loadable self found)
    as [[self' logged] [consumed|e]]; [|discriminate].
  cbn [fst snd] in Hconsume.
  specialize (IH self').
  destruct (ReinhardCommandClient.load_exports self' module rest)
    as [[self'' later] escaped].
  cbn [fst snd] in *. intros Hnone. rewrite reported_empty_app, (IH Hnone).
  destruct consumed; [rewrite Hconsume; reflexivity|].
  rewrite reported_empty_app, Hconsume. reflexivity.
Qed.

(** X27.  When [load_from_modules] returns, it has logged the warning
    [No exports found] once for every module, in the order of the
    modules, whether or not the module had exports and whether or not
    they were consumed: the [else] belongs to the [for] loop, which has
    no [break]. *)
Theorem load_from_modules_reports_every_module self modules :
  snd (ReinhardCommandClient.load_from_modules self modules) = None ->
  reported_empty
    (snd (fst (ReinhardCommandClient.load_from_modules self modules)))
  = map ReinhardCommandClient.module_path modules.
Proof.
  revert self. induction modules as [|module rest IH]; intros self;
    cbn [ReinhardCommandClient.load_from_modules map]; [reflexivity|].
  pose proof (load_exports_reports self module
                (ReinhardCommandClient.exports module)) as Hmodule.
  destruct (ReinhardCommandClient.load_exports self module _)
    as [[self' logged] [e|]]; [discriminate|].
  cbn [fst snd] in Hmodule. specialize (Hmodule eq_refl).
  specialize (IH self').
  destruct (ReinhardCommandClient.load_from_modules self' rest)
    as [[self'' later] escaped].
  cbn [fst snd] in *. intros Hnone.
  rewrite reported_empty_app, Hmodule, (IH Hnone). reflexivity.
Qed.

Lemma load_from_modules_reports_every_module_witness :
  snd (ReinhardCommandClient.load_from_modules (client []) [basic_module])
  = None /\
  reported_empty
    (snd (fst (ReinhardCommandClient.load_from_modules (client [])
                 [basic_module])))
  = map ReinhardCommandClient.module_path [basic_module].
Proof.
  assert (Hnone : snd (ReinhardCommandClient.load_from_modules (client [])
                         [basic_module]) = None).
  { vm_compute. reflexivity. }
  split; [exact Hnone|].
  exact (load_from_modules_reports_every_module (client []) [basic_module]
           Hnone).
Defined.

(** X28.  An export that the module does not have stops the loading
    with a [RuntimeError].  The exports before it have been consumed and
    their effect on the client stays; the exports after it are not
    consumed, and no [No exports found] warning is logged for the
    module. *)
Theorem load_exports_missing_export self module before name after :
  snd (ReinhardCommandClient.load_exports self module before) = None ->
  ReinhardCommandClient.attributes module !! name = None ->
  let loaded := ReinhardCommandClient.load_exports self module before in
  let result :=
    ReinhardCommandClient.load_exports self module
      (before ++ name :: after) in
  snd result = Some (raise_ RuntimeError) /\
  fst (fst result) = fst (fst loaded) /\
  snd (fst result)
  ++ [ReinhardCommandClient.no_exports
        (ReinhardCommandClient.module_path module)]
  = snd (fst loaded).
Proof.
  intros Hloaded Hmissing. cbn zeta. revert self Hloaded.
  induction before as [|item rest IH]; intros self;
    cbn [app ReinhardCommandClient.load_exports].
  - intros _. rewrite Hmissing. cbn. auto.
  - destruct (ReinhardCommandClient.attributes module !! item) as [found|];
      [|discriminate].
    destruct (ReinhardCommandClient._consume_client_loadable self found)
      as [[self' logged] [consumed|e]]; [|discriminate].
    specialize (IH self').
    destruct (ReinhardCommandClient.load_exports self' module rest)
      as [[self1 later1] escaped1].
    destruct (ReinhardCommandClient.load_exports self' module
                (rest ++ name :: after)) as [[self2 later2] escaped2].
    cbn [fst snd] in *. intros Hnone.
    destruct (IH Hnone) as (Hraised & Hclient & Hlog).
    split; [exact Hraised|]. split; [exact Hclient|].
    rewrite <- Hlog, app_assoc. reflexivity.
Qed.

Lemma load_exports_missing_export_witness :
  snd (ReinhardCommandClient.load_exports (client []) broken_module ["ping"])
  = None /\
  ReinhardCommandClient.attributes broken_module !! "pong" = None /\
  snd (ReinhardCommandClient.load_exports (client []) broken_module
         (["ping"] ++ "pong" :: ["pin"]))
  = Some (raise_ RuntimeError) /\
  fst (fst (ReinhardCommandClient.load_exports (client []) broken_module
              (["ping"] ++ "pong" :: ["pin"])))
  = fst (fst (ReinhardCommandClient.load_exports (client []) broken_module
                ["ping"])).
Proof.
  assert (Hloaded : snd (ReinhardCommandClient.load_exports (client [])
                           broken_module ["ping"]) = None).
  { vm_compute. reflexivity. }
  assert (Hmissing : ReinhardCommandClient.attributes broken_module !! "pong"
                     = None).
  { vm_compute. reflexivity. }
  split; [exact Hloaded|]. split; [exact Hmissing|].
  destruct (load_exports_missing_export (client []) broken_module ["ping"]
              "pong" ["pin"] Hloaded Hmissing) as (Hraised & Hclient & _).
  split; [exact Hraised | exact Hclient].
Defined.

(** X29.  Exported command objects end up, in the order of the export
    list, behind the commands the client already has of its own; the
    clusters of the client are not touched, and nothing escapes. *)
Theorem load_exports_registers_commands module items commands :
  Forall2 (fun item command_obj =>
             ReinhardCommandClient.attributes module !! item
             = Some (ReinhardCommandClient.command_object command_obj))
          items commands ->
  forall self,
    let result := ReinhardCommandClient.load_exports self module items in
    snd result = None /\
    CommandCluster.cluster_commands
      (CommandClient.self_cluster (fst (fst result)))
    = CommandCluster.cluster_commands (CommandClient.self_cluster self)
      ++ commands /\
    CommandClient.clusters (fst (fst result)) = CommandClient.clusters self.
Proof.
  intros Hall. cbn zeta.
  induction Hall as [|item command_obj items commands Hitem _ IH];
    intros self; cbn [ReinhardCommandClient.load_exports].
  - cbn. rewrite app_nil_r. auto.
  - rewrite Hitem. cbn [ReinhardCommandClient._consume_client_loadable].
    unfold CommandClient.register_command, CommandCluster.register_command.
    cbn [fst snd].
    match goal with
    | |- context [ReinhardCommandClient.load_exports ?c module items] =>
        specialize (IH c);
        destruct (ReinhardCommandClient.load_exports c module items)
          as [[self'' later] escaped]
    end.
    cbn [fst snd CommandClient.self_cluster CommandClient.clusters
         CommandCluster.cluster_commands] in *.
    destruct IH as (Hnone & Hcommands & Hclusters).
    split; [exact Hnone|]. split; [|exact Hclusters].
    rewrite Hcommands, <- app_assoc. reflexivity.
Qed.

Lemma load_exports_registers_commands_witness :
  Forall2 (fun item command_obj =>
             ReinhardCommandClient.attributes basic_module !! item
             = Some (ReinhardCommandClient.command_object command_obj))
          ["ping"; "pin"] [ping; pin] /\
  CommandCluster.cluster_commands
    (CommandClient.self_cluster
       (fst (fst (ReinhardCommandClient.load_exports (client [])
                    basic_module ["ping"; "pin"]))))
  = CommandCluster.cluster_commands (CommandClient.self_cluster (client []))
    ++ [ping; pin].
Proof.
  assert (Hall : Forall2 (fun item command_obj =>
             ReinhardCommandClient.attributes basic_module !! item
             = Some (ReinhardCommandClient.command_object command_obj))
          ["ping"; "pin"] [ping; pin]).
  { repeat constructor. }
  split; [exact Hall|].
  exact (proj1 (proj2 (load_exports_registers_commands basic_module
                         ["ping"; "pin"] [ping; pin] Hall (client [])))).
Defined.
